(** * ratelimit: a paced, bounded, closable FIFO queue

    Shallow embedding of [ratelimit.go].  A [Limiter] couples a buffered Go
    channel ([values]) with a mutex-protected watermark ([nextTime]).  The
    embedding has three layers:

    - the Go runtime pieces the source leans on: [time.Time] arithmetic, the
      channel operations of [runtime/chan.go] (buffer, [recvq], [sendq],
      close) and [sync.Mutex];
    - the functions of [ratelimit.go], transcribed as programs over those
      primitives ([New], [NewCapacity], [Push], [Pop], [PopOk],
      [waitAndBumpNextTime], [Close]);
    - a scheduler that interleaves goroutines, each running one call, under
      an arbitrary sequence of scheduling decisions and clock advances. *)

From stdpp Require Import base option list gmap strings.
From Stdlib Require Import ZArith Lia.

Local Open Scope Z_scope.

(** ** Package [time] *)

Module time.

(** A [time.Time] carrying a monotonic clock reading, in nanoseconds. *)
Definition Time := Z.

(** [time.Duration] is an [int64] count of nanoseconds. *)
Definition Duration := Z.

Definition minDuration : Duration := - 2 ^ 63.
Definition maxDuration : Duration := 2 ^ 63 - 1.

Definition is_Duration (x : Z) : Prop := minDuration <= x <= maxDuration.

(** [t.Sub(u)]: the difference, saturated to the range of [Duration]. *)
Definition Sub (t u : Time) : Duration :=
  if t - u <? minDuration then minDuration
  else if maxDuration <? t - u then maxDuration
  else t - u.

(** [t.Add(d)]. *)
Definition Add (t : Time) (x : Duration) : Time := t + x.

End time.

(** Goroutine identifiers. *)
Definition gid := nat.

(** The [error] results of the package: [nil] or [ErrClosed]. *)
Inductive error := ErrNil | ErrClosed.

Section Ratelimit.

(** The dynamic values stored behind [interface{}]. *)
Context {V : Type}.

(** [interface{}]: either [nil] or a boxed value. *)
Inductive iface := Nil | Val (x : V).

(** ** Channels ([runtime/chan.go]) *)

Record hchan := mkChan {
  dataqsiz : Z;                  (* capacity given to make *)
  buf : list iface;              (* buffered elements, oldest first *)
  closed : bool;
  recvq : list gid;              (* parked receivers, oldest first *)
  sendq : list (gid * iface)     (* parked senders with their element *)
}.

(** [make(chan interface{}, size)] panics on a negative size. *)
Definition makechan (size : Z) : option hchan :=
  if size <? 0 then None
  else Some (mkChan size [] false [] []).

Inductive send_outcome :=
| SendClosed                              (* panic: send on closed channel *)
| SendDirect (c : hchan) (receiver : gid) (* handed to a parked receiver *)
| SendBuffered (c : hchan)
| SendPark (c : hchan).

Definition chansend (c : hchan) (g : gid) (v : iface) : send_outcome :=
  if closed c then SendClosed
  else match recvq c with
       | r :: rq =>
           SendDirect (mkChan (dataqsiz c) (buf c) (closed c) rq (sendq c)) r
       | [] =>
           if Z.of_nat (length (buf c)) <? dataqsiz c
           then SendBuffered
                  (mkChan (dataqsiz c) (buf c ++ [v]) (closed c) (recvq c) (sendq c))
           else SendPark
                  (mkChan (dataqsiz c) (buf c) (closed c) (recvq c) (sendq c ++ [(g, v)]))
       end.

Inductive recv_outcome :=
| RecvClosed                              (* closed and drained *)
| RecvDirect (c : hchan) (sender : gid) (v : iface)
| RecvBuffered (c : hchan) (v : iface)
| RecvPark (c : hchan).

(** With a parked sender the buffer is full (or there is none): the
    receiver takes the head of the buffer and the sender's element goes to
    its tail; without a buffer the element is copied from the sender. *)
Definition chanrecv (c : hchan) (g : gid) : recv_outcome :=
  if closed c && bool_decide (buf c = []) then RecvClosed
  else match (if closed c then [] else sendq c) with
       | (s, sv) :: sq =>
           match buf c with
           | [] => RecvDirect (mkChan (dataqsiz c) [] (closed c) (recvq c) sq) s sv
           | v :: b =>
               RecvDirect (mkChan (dataqsiz c) (b ++ [sv]) (closed c) (recvq c) sq) s v
           end
       | [] =>
           match buf c with
           | v :: b =>
               RecvBuffered (mkChan (dataqsiz c) b (closed c) (recvq c) (sendq c)) v
           | [] =>
               RecvPark (mkChan (dataqsiz c) [] (closed c) (recvq c ++ [g]) (sendq c))
           end
       end.

(** [close(c)]: panics when already closed; otherwise every parked
    receiver and sender is released. *)
Definition closechan (c : hchan) : option (hchan * list gid * list gid) :=
  if closed c then None
  else Some (mkChan (dataqsiz c) (buf c) true [] [],
             recvq c, map fst (sendq c)).

(** ** Programs

    The body of a goroutine: a tree of the primitive operations the source
    uses, each followed by what runs next.  [ChanSend], [ChanRecv] and
    [MuLock] can suspend the goroutine, [TimeSleep] suspends it for a
    positive duration; everything else runs to completion at once. *)

Inductive prog (R : Type) : Type :=
| Ret (r : R)
| Panic (msg : string)
| ChanSend (v : iface) (k : bool -> prog R)     (* [false]: channel closed *)
| ChanRecv (k : iface -> bool -> prog R)        (* [v, ok := <-l.values] *)
| ChanClose (k : bool -> prog R)                (* [false]: already closed *)
| MuLock (k : prog R)                           (* [l.lock.Lock()] *)
| MuUnlock (k : prog R)                         (* [l.lock.Unlock()] *)
| TimeNow (k : time.Time -> prog R)             (* [time.Now()] *)
| TimeSleep (dur : time.Duration) (k : prog R)  (* [time.Sleep(dur)] *)
| LoadNextTime (k : time.Time -> prog R)        (* read [l.nextTime] *)
| StoreNextTime (t : time.Time) (k : prog R)    (* write [l.nextTime] *)
| LoadD (k : time.Duration -> prog R).          (* read [l.d] *)

Arguments Ret {R} r.
Arguments Panic {R} msg.
Arguments ChanSend {R} v k.
Arguments ChanRecv {R} k.
Arguments ChanClose {R} k.
Arguments MuLock {R} k.
Arguments MuUnlock {R} k.
Arguments TimeNow {R} k.
Arguments TimeSleep {R} dur k.
Arguments LoadNextTime {R} k.
Arguments StoreNextTime {R} t k.
Arguments LoadD {R} k.

Fixpoint bind {A B : Type} (p : prog A) (f : A -> prog B) : prog B :=
  match p with
  | Ret r => f r
  | Panic msg => Panic msg
  | ChanSend v k => ChanSend v (fun ok => bind (k ok) f)
  | ChanRecv k => ChanRecv (fun v ok => bind (k v ok) f)
  | ChanClose k => ChanClose (fun ok => bind (k ok) f)
  | MuLock k => MuLock (bind k f)
  | MuUnlock k => MuUnlock (bind k f)
  | TimeNow k => TimeNow (fun t => bind (k t) f)
  | TimeSleep dur k => TimeSleep dur (bind k f)
  | LoadNextTime k => LoadNextTime (fun t => bind (k t) f)
  | StoreNextTime t k => StoreNextTime t (bind k f)
  | LoadD k => LoadD (fun x => bind (k x) f)
  end.

(** [defer cleanup()] around [body]: [cleanup] runs when [body] returns
    and also when it panics, after which the panic continues. *)
Fixpoint deferring {A : Type} (cleanup : prog unit) (body : prog A) : prog A :=
  match body with
  | Ret r => bind cleanup (fun _ => Ret r)
  | Panic msg => bind cleanup (fun _ => Panic msg)
  | ChanSend v k => ChanSend v (fun ok => deferring cleanup (k ok))
  | ChanRecv k => ChanRecv (fun v ok => deferring cleanup (k v ok))
  | ChanClose k => ChanClose (fun ok => deferring cleanup (k ok))
  | MuLock k => MuLock (deferring cleanup k)
  | MuUnlock k => MuUnlock (deferring cleanup k)
  | TimeNow k => TimeNow (fun t => deferring cleanup (k t))
  | TimeSleep dur k => TimeSleep dur (deferring cleanup k)
  | LoadNextTime k => LoadNextTime (fun t => deferring cleanup (k t))
  | StoreNextTime t k => StoreNextTime t (deferring cleanup k)
  | LoadD k => LoadD (fun x => deferring cleanup (k x))
  end.

(** [defer func() { if r := recover(); r != nil { err = e } }()] around a
    [body] whose named result is [err]: a normal return keeps the result,
    a panic is swallowed and the result becomes [handler msg]. *)
Fixpoint recovering {A : Type} (handler : string -> A) (body : prog A) : prog A :=
  match body with
  | Ret r => Ret r
  | Panic msg => Ret (handler msg)
  | ChanSend v k => ChanSend v (fun ok => recovering handler (k ok))
  | ChanRecv k => ChanRecv (fun v ok => recovering handler (k v ok))
  | ChanClose k => ChanClose (fun ok => recovering handler (k ok))
  | MuLock k => MuLock (recovering handler k)
  | MuUnlock k => MuUnlock (recovering handler k)
  | TimeNow k => TimeNow (fun t => recovering handler (k t))
  | TimeSleep dur k => TimeSleep dur (recovering handler k)
  | LoadNextTime k => LoadNextTime (fun t => recovering handler (k t))
  | StoreNextTime t k => StoreNextTime t (recovering handler k)
  | LoadD k => LoadD (fun x => recovering handler (k x))
  end.

End Ratelimit.

Arguments iface : clear implicits.
Arguments hchan : clear implicits.
Arguments prog : clear implicits.
Arguments Ret {V R} r.
Arguments Panic {V R} msg.
Arguments ChanSend {V R} v k.
Arguments ChanRecv {V R} k.
Arguments ChanClose {V R} k.
Arguments MuLock {V R} k.
Arguments MuUnlock {V R} k.
Arguments TimeNow {V R} k.
Arguments TimeSleep {V R} dur k.
Arguments LoadNextTime {V R} k.
Arguments StoreNextTime {V R} t k.
Arguments LoadD {V R} k.

Declare Scope prog_scope.
Delimit Scope prog_scope with prog.
Notation "x <- p ;; q" := (bind p (fun x => q))
  (at level 100, p at next level, right associativity) : prog_scope.
Notation "p ;; q" := (bind p (fun _ => q))
  (at level 100, right associativity) : prog_scope.

(** ** [ratelimit.go] *)

Section Limiter.

Context {V : Type}.
Abbreviation iface := (iface V).
Abbreviation hchan := (hchan V).
Abbreviation prog := (prog V).

Local Open Scope prog_scope.

(** The statements of the source, as one-step programs. *)
Definition send (v : iface) : prog unit :=
  ChanSend v (fun ok => if ok then Ret tt else Panic "send on closed channel").
Definition recv : prog (iface * bool) := ChanRecv (fun v ok => Ret (v, ok)).
Definition close : prog unit :=
  ChanClose (fun ok => if ok then Ret tt else Panic "close of closed channel").
Definition Lock : prog unit := MuLock (Ret tt).
Definition Unlock : prog unit := MuUnlock (Ret tt).
Definition Now : prog time.Time := TimeNow Ret.
Definition Sleep (dur : time.Duration) : prog unit := TimeSleep dur (Ret tt).
Definition get_nextTime : prog time.Time := LoadNextTime Ret.
Definition set_nextTime (t : time.Time) : prog unit := StoreNextTime t (Ret tt).
Definition get_d : prog time.Duration := LoadD Ret.

Definition DefaultCapacity : Z := 1.

(** [type Limiter struct].  [lock] is the state of the [sync.Mutex] the
    field points to: [None] when unlocked, otherwise the goroutine whose
    [Lock] call locked it. *)
Record Limiter := mkLimiter {
  lock : option gid;
  nextTime : time.Time;
  d : time.Duration;
  values : hchan
}.

(** [NewCapacity(d, capacity)], called when the clock reads [t0].  [None]
    is the panic of [make]. *)
Definition NewCapacity (t0 : time.Time) (d : time.Duration) (capacity : Z)
  : option Limiter :=
  match makechan capacity with
  | Some c => Some (mkLimiter None t0 d c)
  | None => None
  end.

Definition New (t0 : time.Time) (d : time.Duration) : option Limiter :=
  NewCapacity t0 d DefaultCapacity.

Definition Push (value : iface) : prog error :=
  recovering (fun _ => ErrClosed)
    (send value ;;
     Ret ErrNil).

Definition waitAndBumpNextTime : prog unit :=
  Lock ;;
  deferring Unlock
    (nt <- get_nextTime ;;
     t <- Now ;;
     Sleep (time.Sub nt t) ;;
     t' <- Now ;;
     dd <- get_d ;;
     set_nextTime (time.Add t' dd)).

Definition PopOk : prog (iface * bool) :=
  r <- recv ;;
  let '(v, ok) := r in
  if negb ok then Ret (Nil, ok)
  else
    waitAndBumpNextTime ;;
    Ret (v, ok).

Definition Pop : prog iface :=
  r <- PopOk ;;
  let '(v, _) := r in
  Ret v.

Definition Close : prog error :=
  recovering (fun _ => ErrClosed)
    (close ;;
     Ret ErrNil).

(** ** Goroutines and the scheduler *)

(** A call of the public interface and what it returned. *)
Inductive call := CallPush (v : iface) | CallPop | CallPopOk | CallClose.

Inductive retval :=
| RetPush (err : error)
| RetPop (v : iface)
| RetPopOk (v : iface) (ok : bool)
| RetClose (err : error).

Definition invoke (c : call) : prog retval :=
  match c with
  | CallPush v => err <- Push v ;; Ret (RetPush err)
  | CallPop => v <- Pop ;; Ret (RetPop v)
  | CallPopOk => r <- PopOk ;; Ret (RetPopOk r.1 r.2)
  | CallClose => err <- Close ;; Ret (RetClose err)
  end.

(** What a goroutine that is not running is waiting for. *)
Inductive gstate :=
| Runnable (p : prog retval)                    (* released, not yet resumed *)
| WaitSend (k : bool -> prog retval)            (* parked in [sendq] *)
| WaitRecv (k : iface -> bool -> prog retval)   (* parked in [recvq] *)
| WaitLock (k : prog retval)                    (* blocked in [Lock] *)
| Sleeping (wake : time.Time) (k : prog retval).

Inductive event :=
| EvCall (g : gid) (c : call) (t : time.Time)   (* [g] enters [c] at [t] *)
| EvDequeue (g : gid) (v : iface)               (* [g] received [v] *)
| EvReturn (g : gid) (r : retval) (t : time.Time)
| EvCrash (g : gid) (msg : string).

Record World := mkWorld {
  now : time.Time;                (* the clock *)
  lim : Limiter;                  (* the shared [*Limiter] *)
  pool : gmap gid gstate;         (* suspended goroutines *)
  nextg : gid;                    (* next fresh goroutine id *)
  trace : list event              (* newest first *)
}.

Definition with_chan (c : hchan) (w : World) : World :=
  let l := lim w in
  mkWorld (now w) (mkLimiter (lock l) (nextTime l) (d l) c)
          (pool w) (nextg w) (trace w).
Definition with_lock (b : option gid) (w : World) : World :=
  let l := lim w in
  mkWorld (now w) (mkLimiter b (nextTime l) (d l) (values l))
          (pool w) (nextg w) (trace w).
Definition with_nextTime (t : time.Time) (w : World) : World :=
  let l := lim w in
  mkWorld (now w) (mkLimiter (lock l) t (d l) (values l))
          (pool w) (nextg w) (trace w).
Definition with_pool (p : gmap gid gstate) (w : World) : World :=
  mkWorld (now w) (lim w) p (nextg w) (trace w).
Definition emit (e : event) (w : World) : World :=
  mkWorld (now w) (lim w) (pool w) (nextg w) (e :: trace w).

Definition park (g : gid) (s : gstate) (w : World) : World :=
  with_pool (<[g := s]> (pool w)) w.

(** A parked receiver is released with [(v, ok)]. *)
Definition release_recv (v : iface) (ok : bool) (r : gid) (w : World) : World :=
  match pool w !! r with
  | Some (WaitRecv k) => park r (Runnable (k v ok)) w
  | _ => w
  end.

(** A parked sender is released; [ok = false] when the channel was closed
    under it. *)
Definition release_send (ok : bool) (s : gid) (w : World) : World :=
  match pool w !! s with
  | Some (WaitSend k) => park s (Runnable (k ok)) w
  | _ => w
  end.

(** The end of a goroutine: its call returns, or it dies of a panic
    nobody recovered. *)
Definition ret (g : gid) (r : retval) (w : World) : World :=
  emit (EvReturn g r (now w)) (with_pool (delete g (pool w)) w).
Definition crash (g : gid) (msg : string) (w : World) : World :=
  emit (EvCrash g msg) (with_pool (delete g (pool w)) w).

(** Goroutine [g] runs [p] until it suspends, returns or crashes.  The
    clock stands still meanwhile: time passes while goroutines are parked,
    blocked or asleep, not between two statements of a running one.  So a
    call that leaves the gate returns at the instant it read the clock. *)
Fixpoint exec (g : gid) (p : prog retval) (w : World) : World :=
  match p with
  | Ret r => ret g r w
  | Panic msg => crash g msg w
  | ChanSend v k =>
      match chansend (values (lim w)) g v with
      | SendClosed => exec g (k false) w
      | SendDirect c r =>
          exec g (k true) (emit (EvDequeue r v) (release_recv v true r (with_chan c w)))
      | SendBuffered c => exec g (k true) (with_chan c w)
      | SendPark c => park g (WaitSend k) (with_chan c w)
      end
  | ChanRecv k =>
      match chanrecv (values (lim w)) g with
      | RecvClosed => exec g (k Nil false) w
      | RecvDirect c s v =>
          exec g (k v true) (emit (EvDequeue g v) (release_send true s (with_chan c w)))
      | RecvBuffered c v => exec g (k v true) (emit (EvDequeue g v) (with_chan c w))
      | RecvPark c => park g (WaitRecv k) (with_chan c w)
      end
  | ChanClose k =>
      match closechan (values (lim w)) with
      | None => exec g (k false) w
      | Some (c, rs, ss) =>
          exec g (k true)
            (foldr (release_send false)
               (foldr (release_recv Nil false) (with_chan c w) rs) ss)
      end
  | MuLock k =>
      match lock (lim w) with
      | Some _ => park g (WaitLock k) w
      | None => exec g k (with_lock (Some g) w)
      end
  | MuUnlock k =>
      match lock (lim w) with
      | Some _ => exec g k (with_lock None w)
      | None => crash g "sync: unlock of unlocked mutex" w
      end
  | TimeNow k => exec g (k (now w)) w
  | TimeSleep dur k =>
      if dur <=? 0 then exec g k w
      else park g (Sleeping (now w + dur) k) w
  | LoadNextTime k => exec g (k (nextTime (lim w))) w
  | StoreNextTime t k => exec g k (with_nextTime t w)
  | LoadD k => exec g (k (d (lim w))) w
  end.

(** What the environment decides: a new goroutine makes a call, a
    suspended goroutine is given the processor, or time passes. *)
Inductive action :=
| Go (c : call)
| Sched (g : gid)
| Tick (dt : N).

Definition step (w : World) (a : action) : World :=
  match a with
  | Go c =>
      exec (nextg w) (invoke c)
        (mkWorld (now w) (lim w) (pool w) (S (nextg w))
                 (EvCall (nextg w) c (now w) :: trace w))
  | Sched g =>
      match pool w !! g with
      | Some (Runnable p) => exec g p w
      | Some (WaitLock k) =>
          match lock (lim w) with
          | Some _ => w
          | None => exec g k (with_lock (Some g) w)
          end
      | Some (Sleeping wake k) =>
          if wake <=? now w then exec g k w else w
      | _ => w
      end
  | Tick dt => mkWorld (now w + Z.of_N dt) (lim w) (pool w) (nextg w) (trace w)
  end.

Definition run (w : World) (acts : list action) : World := foldl step w acts.

(** The world right after construction. *)
Definition boot (t0 : time.Time) (l : Limiter) : World := mkWorld t0 l ∅ 0%nat [].

(** Events in the order they happened. *)
Definition history (w : World) : list event := rev (trace w).

End Limiter.

Arguments Limiter : clear implicits.
Arguments call : clear implicits.
Arguments retval : clear implicits.
Arguments gstate : clear implicits.
Arguments event : clear implicits.
Arguments World : clear implicits.
Arguments action : clear implicits.

(** ** Queues and schedules used as examples *)

Module Demo.

(** [NewCapacity(5, 2)] and [NewCapacity(5, 1)] made at time [0], holding
    integers. *)
Definition two : Limiter Z := mkLimiter None 0 5 (mkChan 2 [] false [] []).
Definition one : Limiter Z := mkLimiter None 0 5 (mkChan 1 [] false [] []).

(** [New(-10)] made at time [0]. *)
Definition backwards : Limiter Z := mkLimiter None 0 (-10) (mkChan 1 [] false [] []).

(** Two values are pushed, then popped; the second pop has to sleep. *)
Definition push_push_pop_pop : list (action Z) :=
  [Go (CallPush (Val 7)); Go (CallPush (Val 8));
   Go CallPop; Go CallPopOk; Tick 5; Sched 3%nat].

Definition push_push : list (action Z) :=
  [Go (CallPush (Val 7)); Go (CallPush (Val 8))].

(** Three calls of [PopOk] after the queue was closed. *)
Definition drain : list (action Z) :=
  [Go CallPopOk; Go CallPopOk; Tick 5; Sched 4%nat; Go CallPopOk].

(** [TestLimiter_endToEndWorksForLargeDurations]: one second between pops,
    room for two values; the producer pushes 0, 1, 2, 3 and closes, the
    consumer calls [PopOk] until it reports the end.  Times in
    nanoseconds. *)
Definition large : Limiter Z :=
  mkLimiter None 0 1000000000 (mkChan 2 [] false [] []).

Definition end_to_end : list (action Z) :=
  [Go (CallPush (Val 0)); Go (CallPush (Val 1));
   Go (CallPush (Val 2));                     (* goroutine 2 parks: no room *)
   Go CallPopOk;                              (* 0 comes out, 2 goes in *)
   Sched 2%nat;
   Go (CallPush (Val 3));                     (* goroutine 4 parks *)
   Go CallPopOk;                              (* takes 1 and sleeps *)
   Sched 4%nat;
   Go CallClose;
   Tick 1000000000; Sched 5%nat;
   Go CallPopOk; Tick 1000000000; Sched 7%nat;
   Go CallPopOk; Tick 1000000000; Sched 8%nat;
   Go CallPopOk].

End Demo.

(** * Verification *)

Section Verification.

Context {V : Type}.
Abbreviation iface := (iface V).
Abbreviation hchan := (hchan V).
Abbreviation prog := (prog V).
Abbreviation retval := (retval V).
Abbreviation call := (call V).
Abbreviation World := (World V).
Abbreviation gstate := (gstate V).
Abbreviation event := (event V).
Abbreviation action := (action V).
Abbreviation Limiter := (Limiter V).

Implicit Types (w : World) (g : gid) (tr : list event) (l : Limiter).

(** ** Definitions used by the proofs *)

Definition is_pop (c : call) : bool :=
  match c with CallPop | CallPopOk => true | _ => false end.
Definition pop_ret (c : call) (v : iface) (ok : bool) : retval :=
  match c with CallPop => RetPop v | _ => RetPopOk v ok end.

Definition gate_tail (r : retval) : prog retval :=
  TimeNow (fun t' => LoadD (fun dd => StoreNextTime (time.Add t' dd) (MuUnlock (Ret r)))).
Definition gate_body (r : retval) : prog retval :=
  LoadNextTime (fun nt => TimeNow (fun t => TimeSleep (time.Sub nt t) (gate_tail r))).
Definition gate (r : retval) : prog retval := MuLock (gate_body r).

Definition send_k (p : prog retval) : bool -> prog retval :=
  match p with ChanSend _ k => k | _ => fun _ => p end.
Definition recv_k (p : prog retval) : iface -> bool -> prog retval :=
  match p with ChanRecv k => k | _ => fun _ _ => p end.
Definition close_k (p : prog retval) : bool -> prog retval :=
  match p with ChanClose k => k | _ => fun _ => p end.
Definition push_k : bool -> prog retval := send_k (invoke (CallPush Nil)).
Definition pop_k (c : call) : iface -> bool -> prog retval := recv_k (invoke c).

Definition chan (w : World) : hchan := values (lim w).

Definition called (c : call) (w : World) : World :=
  mkWorld (now w) (lim w) (pool w) (S (nextg w))
          (EvCall (nextg w) c (now w) :: trace w).

Definition pass_gate (g : gid) (r : retval) (w : World) : World :=
  ret g r (with_lock None (with_nextTime (time.Add (now w) (d (lim w))) w)).
Definition run_gate (g : gid) (r : retval) (w : World) : World :=
  if time.Sub (nextTime (lim w)) (now w) <=? 0 then pass_gate g r w
  else park g (Sleeping (now w + time.Sub (nextTime (lim w)) (now w)) (gate_tail r)) w.
Definition enter_gate (g : gid) (r : retval) (w : World) : World :=
  match lock (lim w) with
  | Some _ => park g (WaitLock (gate_body r)) w
  | None => run_gate g r (with_lock (Some g) w)
  end.

(** ** Atomic transitions *)

Inductive label :=
| LTick
| LCall (c : call)
| LGate (g : gid).

Inductive micro (w : World) : label -> World -> Prop :=
| m_tick dt :
    micro w LTick
      (mkWorld (now w + Z.of_N dt) (lim w) (pool w) (nextg w) (trace w))
| m_push_closed v :
    closed (chan w) = true ->
    micro w (LCall (CallPush v))
      (ret (nextg w) (RetPush ErrClosed) (called (CallPush v) w))
| m_push_direct v r rq :
    closed (chan w) = false -> recvq (chan w) = r :: rq ->
    micro w (LCall (CallPush v))
      (ret (nextg w) (RetPush ErrNil)
               (emit (EvDequeue r v)
                  (release_recv v true r
                     (with_chan (mkChan (dataqsiz (chan w)) (buf (chan w)) false rq
                                        (sendq (chan w)))
                        (called (CallPush v) w)))))
| m_push_buffered v :
    closed (chan w) = false -> recvq (chan w) = [] ->
    Z.of_nat (length (buf (chan w))) < dataqsiz (chan w) ->
    micro w (LCall (CallPush v))
      (ret (nextg w) (RetPush ErrNil)
               (with_chan (mkChan (dataqsiz (chan w)) (buf (chan w) ++ [v]) false []
                                  (sendq (chan w)))
                  (called (CallPush v) w)))
| m_push_park v :
    closed (chan w) = false -> recvq (chan w) = [] ->
    dataqsiz (chan w) <= Z.of_nat (length (buf (chan w))) ->
    micro w (LCall (CallPush v))
      (park (nextg w) (WaitSend push_k)
               (with_chan (mkChan (dataqsiz (chan w)) (buf (chan w)) false []
                                  (sendq (chan w) ++ [(nextg w, v)]))
                  (called (CallPush v) w)))
| m_pop_closed c :
    is_pop c = true -> closed (chan w) = true -> buf (chan w) = [] ->
    micro w (LCall c)
      (ret (nextg w) (pop_ret c Nil false) (called c w))
| m_pop_park c :
    is_pop c = true -> closed (chan w) = false -> buf (chan w) = [] ->
    sendq (chan w) = [] ->
    micro w (LCall c)
      (park (nextg w) (WaitRecv (pop_k c))
               (with_chan (mkChan (dataqsiz (chan w)) [] false
                                  (recvq (chan w) ++ [nextg w]) [])
                  (called c w)))
| m_pop_direct c s sv sq :
    is_pop c = true -> closed (chan w) = false -> sendq (chan w) = (s, sv) :: sq ->
    micro w (LCall c)
      (park (nextg w)
               (Runnable (gate (pop_ret c (hd sv (buf (chan w))) true)))
               (emit (EvDequeue (nextg w) (hd sv (buf (chan w))))
                  (release_send true s
                     (with_chan (mkChan (dataqsiz (chan w))
                                        (match buf (chan w) with
                                         | [] => []
                                         | _ :: b => b ++ [sv]
                                         end)
                                        false (recvq (chan w)) sq)
                        (called c w)))))
| m_pop_buffered c v b :
    is_pop c = true -> buf (chan w) = v :: b ->
    (if closed (chan w) then [] else sendq (chan w)) = [] ->
    micro w (LCall c)
      (park (nextg w) (Runnable (gate (pop_ret c v true)))
               (emit (EvDequeue (nextg w) v)
                  (with_chan (mkChan (dataqsiz (chan w)) b (closed (chan w))
                                     (recvq (chan w)) (sendq (chan w)))
                     (called c w))))
| m_close_closed :
    closed (chan w) = true ->
    micro w (LCall CallClose)
      (ret (nextg w) (RetClose ErrClosed) (called CallClose w))
| m_close :
    closed (chan w) = false ->
    micro w (LCall CallClose)
      (ret (nextg w) (RetClose ErrNil)
               (foldr (release_send false)
                  (foldr (release_recv Nil false)
                     (with_chan (mkChan (dataqsiz (chan w)) (buf (chan w)) true [] [])
                        (called CallClose w))
                     (recvq (chan w)))
                  (map fst (sendq (chan w)))))
| m_return g r :
    pool w !! g = Some (Runnable (Ret r)) ->
    micro w (LGate g)
      (ret g r w)
| m_gate_busy g r h :
    pool w !! g = Some (Runnable (gate r)) -> lock (lim w) = Some h ->
    micro w (LGate g)
      (park g (WaitLock (gate_body r)) w)
| m_gate_sleep g r :
    pool w !! g = Some (Runnable (gate r)) \/
    pool w !! g = Some (WaitLock (gate_body r)) ->
    lock (lim w) = None ->
    0 < time.Sub (nextTime (lim w)) (now w) ->
    micro w (LGate g)
      (park g (Sleeping (now w + time.Sub (nextTime (lim w)) (now w))
                       (gate_tail r))
               (with_lock (Some g) w))
| m_gate_pass g r :
    pool w !! g = Some (Runnable (gate r)) \/
    pool w !! g = Some (WaitLock (gate_body r)) ->
    lock (lim w) = None ->
    time.Sub (nextTime (lim w)) (now w) <= 0 ->
    micro w (LGate g)
      (pass_gate g r w)
| m_wake g r wake :
    pool w !! g = Some (Sleeping wake (gate_tail r)) ->
    lock (lim w) = Some g -> wake <= now w ->
    micro w (LGate g)
      (pass_gate g r w).

(** ** The invariant of reachable worlds *)

Fixpoint took (tr : list event) (g : gid) : option iface :=
  match tr with
  | [] => None
  | EvDequeue g' v :: tr' => if decide (g' = g) then Some v else took tr' g
  | _ :: tr' => took tr' g
  end.

Inductive gs_ok (w : World) (g : gid) : gstate -> Prop :=
| ok_send v :
    (g, v) ∈ sendq (chan w) -> gs_ok w g (WaitSend push_k)
| ok_sent err :
    gs_ok w g (Runnable (Ret (RetPush err)))
| ok_recv c :
    is_pop c = true -> g ∈ recvq (chan w) -> took (trace w) g = None ->
    gs_ok w g (WaitRecv (pop_k c))
| ok_none c :
    is_pop c = true -> took (trace w) g = None ->
    gs_ok w g (Runnable (Ret (pop_ret c Nil false)))
| ok_some c v :
    is_pop c = true -> took (trace w) g = Some v ->
    gs_ok w g (Runnable (gate (pop_ret c v true)))
| ok_lock c v :
    is_pop c = true -> took (trace w) g = Some v ->
    gs_ok w g (WaitLock (gate_body (pop_ret c v true)))
| ok_sleep c v wake :
    is_pop c = true -> took (trace w) g = Some v ->
    lock (lim w) = Some g ->
    (d (lim w) <= time.maxDuration -> nextTime (lim w) <= wake) ->
    gs_ok w g (Sleeping wake (gate_tail (pop_ret c v true))).

Record inv (w : World) : Prop := {
  inv_pool : forall g s, pool w !! g = Some s -> gs_ok w g s;
  inv_fresh : forall (g : gid) s, pool w !! g = Some s -> (g < nextg w)%nat;
  inv_fresh_took : forall g : gid, (nextg w <= g)%nat -> took (trace w) g = None;
  inv_recvq : forall g, g ∈ recvq (chan w) ->
              exists c, is_pop c = true /\ pool w !! g = Some (WaitRecv (pop_k c));
  inv_sendq : forall g v, (g, v) ∈ sendq (chan w) ->
              pool w !! g = Some (WaitSend push_k);
  inv_recvq_nodup : NoDup (recvq (chan w));
  inv_sendq_nodup : NoDup ((sendq (chan w)).*1);
  inv_lock : forall g, lock (lim w) = Some g ->
             exists wake k, pool w !! g = Some (Sleeping wake k);
  inv_recv_wait : recvq (chan w) <> [] -> buf (chan w) = [] /\ sendq (chan w) = [];
  inv_send_wait : sendq (chan w) <> [] ->
                  dataqsiz (chan w) <= Z.of_nat (length (buf (chan w)));
  inv_cap : Z.of_nat (length (buf (chan w))) <= Z.max 0 (dataqsiz (chan w));
  inv_closed : closed (chan w) = true -> recvq (chan w) = [] /\ sendq (chan w) = [];
  inv_time : d (lim w) <= time.maxDuration ->
             nextTime (lim w) <= now w + time.maxDuration
}.

(** What holds of the identifier handed to a new goroutine. *)
Record fresh (w : World) (g : gid) : Prop := {
  fresh_pool : pool w !! g = None;
  fresh_took : took (trace w) g = None;
  fresh_lt : (g < nextg w)%nat
}.

Definition released_recv (v : iface) (ok : bool) (o : option gstate) :=
  match o with
  | Some (WaitRecv k) => Some (Runnable (k v ok))
  | _ => o
  end.
Definition released_send (ok : bool) (o : option gstate) :=
  match o with
  | Some (WaitSend k) => Some (Runnable (k ok))
  | _ => o
  end.

Definition close_world (w : World) : World :=
  foldr (release_send false)
    (foldr (release_recv Nil false)
       (with_chan (mkChan (dataqsiz (chan w)) (buf (chan w)) true [] []) w)
       (recvq (chan w)))
    (map fst (sendq (chan w))).

(** The value a program returns when nothing stops it. *)
Fixpoint result_of (p : prog retval) : option retval :=
  match p with
  | Ret r => Some r
  | Panic _ => None
  | ChanSend _ k => result_of (k true)
  | ChanRecv k => result_of (k Nil true)
  | ChanClose k => result_of (k true)
  | MuLock k => result_of k
  | MuUnlock k => result_of k
  | TimeNow k => result_of (k 0)
  | TimeSleep _ k => result_of k
  | LoadNextTime k => result_of (k 0)
  | StoreNextTime _ k => result_of k
  | LoadD k => result_of (k 0)
  end.

(** ** Reading the trace *)

(** The events selected by [pick], oldest first. *)
Fixpoint chron {A : Type} (pick : event -> option A) (tr : list event) : list A :=
  match tr with
  | [] => []
  | e :: tr' =>
      match pick e with
      | Some a => chron pick tr' ++ [a]
      | None => chron pick tr'
      end
  end.

(** The values handed to [Push], in call order. *)
Definition pushed : list event -> list iface :=
  chron (fun e => match e with EvCall _ (CallPush v) _ => Some v | _ => None end).

(** Who received which value, in the order of the receptions. *)
Definition deqs : list event -> list (gid * iface) :=
  chron (fun e => match e with EvDequeue g v => Some (g, v) | _ => None end).

(** The goroutines that called [Pop] or [PopOk], in call order. *)
Definition pop_calls : list event -> list gid :=
  chron (fun e => match e with
                  | EvCall g c _ => if is_pop c then Some g else None
                  | _ => None
                  end).

Definition ev_gid (e : event) : gid :=
  match e with
  | EvCall g _ _ | EvDequeue g _ | EvReturn g _ _ | EvCrash g _ => g
  end.

(** What a returned value has to do with what the goroutine received. *)
Definition ret_ok (w : World) (g : gid) (r : retval) : Prop :=
  match r with
  | RetPop v =>
      took (trace w) g = Some v \/
      (took (trace w) g = None /\ v = Nil /\ closed (chan w) = true)
  | RetPopOk v ok =>
      (took (trace w) g = Some v /\ ok = true) \/
      (took (trace w) g = None /\ v = Nil /\ ok = false /\ closed (chan w) = true)
  | _ => True
  end.

Record tinv (w : World) : Prop := {
  t_lt : forall e, e ∈ trace w -> (ev_gid e < nextg w)%nat;
  t_live : forall g s r t, pool w !! g = Some s -> EvReturn g r t ∉ trace w;
  t_rets : forall g r t, EvReturn g r t ∈ trace w -> ret_ok w g r;
  t_fail : forall g r, pool w !! g = Some (Runnable (Ret r)) ->
           (exists err, r = RetPush err) \/ closed (chan w) = true;
  t_fifo : closed (chan w) = false ->
           pushed (trace w) =
           (deqs (trace w)).*2 ++ buf (chan w) ++ (sendq (chan w)).*2;
  t_calls : exists rest,
      pop_calls (trace w) = (deqs (trace w)).*1 ++ rest /\
      (rest <> [] -> buf (chan w) = []) /\
      (forall g, g ∈ rest -> took (trace w) g = None) /\
      (closed (chan w) = false -> rest = recvq (chan w));
  t_nocrash : forall g m, EvCrash g m ∉ trace w
}.

(** How each transition extends the trace. *)
Definition new_call (w : World) (lb : label) : list event :=
  match lb with
  | LCall c => [EvCall (nextg w) c (now w)]
  | _ => []
  end.

(** The values the queue has taken in and not lost: those received so far,
    then those still buffered. *)
Definition accepted (w : World) : list iface :=
  (deqs (trace w)).*2 ++ buf (chan w).

Definition is_pop_ret (r : retval) : bool :=
  match r with RetPop _ | RetPopOk _ _ => true | _ => false end.

(** A release: [Pop] or [PopOk] returns to a goroutine that received a
    value.  [releases] lists the instants of the releases, latest first. *)
Fixpoint releases (tr : list event) : list time.Time :=
  match tr with
  | [] => []
  | EvReturn g r t :: tr' =>
      if is_pop_ret r && bool_decide (is_Some (took tr' g))
      then t :: releases tr'
      else releases tr'
  | _ :: tr' => releases tr'
  end.

(** Consecutive instants of [ts] (latest first) are at least [dd] apart. *)
Fixpoint paced (dd : time.Duration) (ts : list time.Time) : Prop :=
  match ts with
  | t2 :: ts' =>
      match ts' with
      | t1 :: _ => t1 + dd <= t2
      | [] => True
      end /\ paced dd ts'
  | [] => True
  end.

(** The watermark is the last release plus the interval. *)
Record pinv (w : World) : Prop := {
  p_dur : d (lim w) <= time.maxDuration;
  p_paced : paced (d (lim w)) (releases (trace w));
  p_mark : forall t, head (releases (trace w)) = Some t ->
                     nextTime (lim w) = time.Add t (d (lim w))
}.


(** [Close] has been called. *)
Definition close_called (tr : list event) : Prop :=
  exists g t, EvCall g CallClose t ∈ tr.

(** The actions that neither pop nor close. *)
Definition quiet (a : action) : Prop :=
  match a with
  | Go CallPop | Go CallPopOk | Go CallClose => False
  | _ => True
  end.

Definition quiet_label (lb : label) : Prop :=
  match lb with
  | LCall CallPop | LCall CallPopOk | LCall CallClose => False
  | _ => True
  end.

(** ** [Pop] against [PopOk] *)

(** [v, _ := ...]: the flag is dropped. *)
Definition proj_ret (r : retval) : retval :=
  match r with RetPopOk v _ => RetPop v | _ => r end.

Definition proj_call (c : call) : call :=
  match c with CallPopOk => CallPop | _ => c end.

(** [p'] is [p] with the flag dropped from every result; [p] returns
    nothing but the results of [PopOk]. *)
Inductive pproj : prog retval -> prog retval -> Prop :=
| pp_ret v ok : pproj (Ret (RetPopOk v ok)) (Ret (RetPop v))
| pp_panic m : pproj (Panic m) (Panic m)
| pp_send v k k' :
    (forall ok, pproj (k ok) (k' ok)) -> pproj (ChanSend v k) (ChanSend v k')
| pp_recv k k' :
    (forall v ok, pproj (k v ok) (k' v ok)) -> pproj (ChanRecv k) (ChanRecv k')
| pp_close k k' :
    (forall ok, pproj (k ok) (k' ok)) -> pproj (ChanClose k) (ChanClose k')
| pp_lock k k' : pproj k k' -> pproj (MuLock k) (MuLock k')
| pp_unlock k k' : pproj k k' -> pproj (MuUnlock k) (MuUnlock k')
| pp_now k k' : (forall t, pproj (k t) (k' t)) -> pproj (TimeNow k) (TimeNow k')
| pp_sleep dur k k' : pproj k k' -> pproj (TimeSleep dur k) (TimeSleep dur k')
| pp_load k k' :
    (forall t, pproj (k t) (k' t)) -> pproj (LoadNextTime k) (LoadNextTime k')
| pp_store t k k' : pproj k k' -> pproj (StoreNextTime t k) (StoreNextTime t k')
| pp_d k k' : (forall x, pproj (k x) (k' x)) -> pproj (LoadD k) (LoadD k').

Inductive gs_proj : gstate -> gstate -> Prop :=
| gp_run p p' : pproj p p' -> gs_proj (Runnable p) (Runnable p')
| gp_send k k' : (forall ok, pproj (k ok) (k' ok)) -> gs_proj (WaitSend k) (WaitSend k')
| gp_recv k k' :
    (forall v ok, pproj (k v ok) (k' v ok)) -> gs_proj (WaitRecv k) (WaitRecv k')
| gp_lock k k' : pproj k k' -> gs_proj (WaitLock k) (WaitLock k')
| gp_sleep wake k k' : pproj k k' -> gs_proj (Sleeping wake k) (Sleeping wake k').

(** The events of goroutine [g0], read as those of a call of [Pop]. *)
Definition proj_event (g0 : gid) (e : event) : event :=
  match e with
  | EvCall g c t => if decide (g = g0) then EvCall g (proj_call c) t else e
  | EvReturn g r t => if decide (g = g0) then EvReturn g (proj_ret r) t else e
  | _ => e
  end.

Definition is_popok (r : retval) : Prop :=
  match r with RetPopOk _ _ => True | _ => False end.

(** [w1] is [w2] with goroutine [g0] calling [Pop] where it calls [PopOk]
    in [w2]. *)
Record sim (g0 : gid) (w1 w2 : World) : Prop := {
  sim_now : now w1 = now w2;
  sim_lim : lim w1 = lim w2;
  sim_nextg : nextg w1 = nextg w2;
  sim_pool : forall g, g <> g0 -> pool w1 !! g = pool w2 !! g;
  sim_self : option_Forall2 gs_proj (pool w2 !! g0) (pool w1 !! g0);
  sim_trace : trace w1 = proj_event g0 <$> trace w2;
  sim_rets : forall r t, EvReturn g0 r t ∈ trace w2 -> is_popok r
}.

(** ** Progress: a call that can return does return when it is scheduled *)

(** The environment lets time pass and goroutines run, and calls nothing. *)
Definition passive (a : action) : Prop :=
  match a with Go _ => False | _ => True end.

(** ** Every call of [Pop] or [PopOk] is accounted for *)

(** What a goroutine inside [Pop] or [PopOk] can be waiting for. *)
Definition is_pop_state (s : gstate) : Prop :=
  match s with
  | WaitSend _ => False
  | Runnable (Ret r) => is_pop_ret r = true
  | _ => True
  end.

Definition returned (w : World) (g : gid) : Prop :=
  exists r t, EvReturn g r t ∈ trace w /\ is_pop_ret r = true.

(** The callers of [Pop] and [PopOk] are suspended inside the call or
    have returned from it. *)
Definition linv (w : World) : Prop :=
  forall g, g ∈ pop_calls (trace w) ->
    (exists s, pool w !! g = Some s /\ is_pop_state s) \/ returned w g.

(** ** The watermark *)

(** What a transition does to the gate: it leaves the watermark and the
    releases alone (and takes the mutex at most, to sleep), or it is a
    goroutine leaving the gate. *)
Definition gate_untouched (w w' : World) : Prop :=
  nextTime (lim w') = nextTime (lim w) /\ d (lim w') = d (lim w) /\
  releases (trace w') = releases (trace w) /\ now w <= now w' /\
  (lock (lim w') = lock (lim w) \/
   (lock (lim w) = None /\ 0 < time.Sub (nextTime (lim w)) (now w))).

Definition gate_left (w w' : World) : Prop :=
  exists g c v,
    is_pop c = true /\ took (trace w) g = Some v /\
    w' = pass_gate g (pop_ret c v true) w.

(** The clock does not go back, the watermark is at most the interval
    ahead of it, a queue without interval keeps the mutex free, and
    until the first release the watermark is the time of construction. *)
Record winv (t0 : time.Time) (w : World) : Prop := {
  w_clock : t0 <= now w;
  w_ahead : nextTime (lim w) <= now w + Z.max 0 (d (lim w));
  w_idle : d (lim w) <= 0 -> lock (lim w) = None;
  w_first : releases (trace w) = [] -> nextTime (lim w) = t0
}.


(** ** A call of [Pop] on an empty queue *)

(** The actions that neither push nor close. *)
Definition calm (a : action) : Prop :=
  match a with
  | Go (CallPush _) | Go CallClose => False
  | _ => True
  end.

Definition calm_label (lb : label) : Prop :=
  match lb with
  | LCall (CallPush _) | LCall CallClose => False
  | _ => True
  end.

(** A call returns once. *)
Definition returns_once (w : World) : Prop :=
  forall g r1 t1 r2 t2,
    EvReturn g r1 t1 ∈ trace w -> EvReturn g r2 t2 ∈ trace w -> r1 = r2 /\ t1 = t2.

(** As long as the queue is open nothing has failed, and nothing is
    about to. *)
Definition no_errclosed (w : World) : Prop :=
  (forall g t, EvReturn g (RetPush ErrClosed) t ∉ trace w) /\
  (forall g t, EvReturn g (RetClose ErrClosed) t ∉ trace w) /\
  (forall g e t, EvReturn g (RetClose e) t ∉ trace w) /\
  (forall g, pool w !! g <> Some (Runnable (Ret (RetPush ErrClosed)))).


(** ** What the result of [Push] means *)

(** The calls of [Push], in call order: who called, and with what. *)
Definition push_calls : list event -> list (gid * iface) :=
  chron (fun e => match e with EvCall g (CallPush v) _ => Some (g, v) | _ => None end).

(** The call of [g] has got its value in, or has failed. *)
Definition push_ok (w : World) (g : gid) : Prop :=
  pool w !! g = Some (Runnable (Ret (RetPush ErrNil))) \/
  exists t, EvReturn g (RetPush ErrNil) t ∈ trace w.

Definition push_failed (w : World) (g : gid) : Prop :=
  pool w !! g = Some (Runnable (Ret (RetPush ErrClosed))) \/
  exists t, EvReturn g (RetPush ErrClosed) t ∈ trace w.

(** The calls of [Push] are those whose value is in (received or
    buffered), in order, followed by those whose value is not: the
    parked senders while the queue is open, the failed calls once it is
    closed. *)
Definition push_inv (w : World) : Prop :=
  exists acc rej,
    push_calls (trace w) = acc ++ rej /\
    acc.*2 = accepted w /\
    Forall (fun p => push_ok w p.1) acc /\
    if closed (chan w) then Forall (fun p => push_failed w p.1) rej
    else rej = sendq (chan w).

(** ** Lemmas *)

Lemma invoke_push v : invoke (CallPush v) = ChanSend v push_k.
Proof. reflexivity. Qed.
Lemma push_k_eq ok : push_k ok = Ret (RetPush (if ok then ErrNil else ErrClosed)).
Proof. by destruct ok. Qed.
Lemma invoke_pop c : is_pop c = true -> invoke c = ChanRecv (pop_k c).
Proof. by destruct c. Qed.
Lemma pop_k_true c v : is_pop c = true -> pop_k c v true = gate (pop_ret c v true).
Proof. by destruct c. Qed.
Lemma pop_k_false c v : is_pop c = true -> pop_k c v false = Ret (pop_ret c Nil false).
Proof. by destruct c. Qed.
Lemma invoke_close : invoke CallClose = ChanClose (close_k (invoke CallClose)).
Proof. reflexivity. Qed.
Lemma close_k_eq ok :
  close_k (invoke CallClose) ok = Ret (RetClose (if ok then ErrNil else ErrClosed)).
Proof. by destruct ok. Qed.

Lemma exec_gate_tail g r w :
  exec g (gate_tail r) w =
  match lock (lim w) with
  | Some _ => pass_gate g r w
  | None => crash g "sync: unlock of unlocked mutex"
              (with_nextTime (time.Add (now w) (d (lim w))) w)
  end.
Proof. reflexivity. Qed.

Lemma exec_gate_body g r w :
  lock (lim w) = Some g -> exec g (gate_body r) w = run_gate g r w.
Proof.
  intros Hl. unfold run_gate. simpl.
  destruct (_ <=? 0); [|done]. by rewrite Hl.
Qed.

Lemma exec_gate g r w : exec g (gate r) w = enter_gate g r w.
Proof.
  unfold enter_gate. simpl. destruct (lock (lim w)); [done|].
  unfold run_gate. simpl. by destruct (_ <=? 0).
Qed.

Lemma step_go_push w v :
  step w (Go (CallPush v)) =
  let g := nextg w in
  let w0 := called (CallPush v) w in
  match chansend (chan w) g v with
  | SendClosed => ret g (RetPush ErrClosed) w0
  | SendDirect c r =>
      ret g (RetPush ErrNil)
        (emit (EvDequeue r v) (release_recv v true r (with_chan c w0)))
  | SendBuffered c => ret g (RetPush ErrNil) (with_chan c w0)
  | SendPark c => park g (WaitSend push_k) (with_chan c w0)
  end.
Proof. simpl. unfold chan. simpl. by destruct (chansend _ _ _). Qed.

Lemma step_go_pop w c :
  is_pop c = true ->
  step w (Go c) =
  let g := nextg w in
  let w0 := called c w in
  match chanrecv (chan w) g with
  | RecvClosed => ret g (pop_ret c Nil false) w0
  | RecvDirect c' s v =>
      enter_gate g (pop_ret c v true)
        (emit (EvDequeue g v) (release_send true s (with_chan c' w0)))
  | RecvBuffered c' v =>
      enter_gate g (pop_ret c v true) (emit (EvDequeue g v) (with_chan c' w0))
  | RecvPark c' => park g (WaitRecv (pop_k c)) (with_chan c' w0)
  end.
Proof.
  intros Hc. unfold step. rewrite (invoke_pop c Hc).
  cbn [exec]. unfold chan. cbn [lim called].
  destruct (chanrecv _ _); try done.
  - by rewrite pop_k_false.
  - by rewrite pop_k_true, exec_gate.
  - by rewrite pop_k_true, exec_gate.
Qed.

Lemma step_go_close w :
  step w (Go CallClose) =
  let g := nextg w in
  let w0 := called CallClose w in
  match closechan (chan w) with
  | None => ret g (RetClose ErrClosed) w0
  | Some (c, rs, ss) =>
      ret g (RetClose ErrNil)
        (foldr (release_send false)
           (foldr (release_recv Nil false) (with_chan c w0) rs) ss)
  end.
Proof. simpl. unfold chan. simpl. by destruct (closechan _) as [[[??]?]|]. Qed.

Lemma pass_gate_with_lock g r h w :
  pass_gate g r (with_lock h w) = pass_gate g r w.
Proof. reflexivity. Qed.

Lemma enter_gate_park g r s w :
  enter_gate g r (park g s w) = enter_gate g r w.
Proof.
  unfold enter_gate, run_gate, pass_gate, ret, park, with_pool, with_lock,
    with_nextTime, emit; simpl.
  destruct (lock (lim w)); simpl.
  - by rewrite insert_insert_eq.
  - destruct (_ <=? 0); simpl.
    + by rewrite delete_insert_eq.
    + by rewrite insert_insert_eq.
Qed.

Lemma micro_run_gate w g r :
  pool w !! g = Some (Runnable (gate r)) \/
  pool w !! g = Some (WaitLock (gate_body r)) ->
  lock (lim w) = None ->
  micro w (LGate g) (run_gate g r (with_lock (Some g) w)).
Proof.
  intros Hg Hl. unfold run_gate. simpl.
  destruct (Z.leb_spec (time.Sub (nextTime (lim w)) (now w)) 0).
  - rewrite pass_gate_with_lock. by apply m_gate_pass.
  - by apply m_gate_sleep.
Qed.

Lemma micro_enter_gate w g r :
  pool w !! g = Some (Runnable (gate r)) -> micro w (LGate g) (enter_gate g r w).
Proof.
  intros Hg. unfold enter_gate. destruct (lock (lim w)) eqn:Hl.
  - by eapply m_gate_busy.
  - apply micro_run_gate; auto.
Qed.

Lemma step_micro_pop w c :
  is_pop c = true ->
  micro w (LCall c) (step w (Go c)) \/
  exists w1, micro w (LCall c) w1 /\ micro w1 (LGate (nextg w)) (step w (Go c)).
Proof.
  intros Hc. rewrite (step_go_pop w c Hc). cbv zeta. unfold chanrecv.
  destruct (closed (chan w)) eqn:Hcl; destruct (buf (chan w)) as [|v b] eqn:Hb;
    simpl.
  - left. by apply m_pop_closed.
  - right. eexists. split.
    + eapply (m_pop_buffered w c v b); auto. by rewrite Hcl.
    + rewrite Hcl. rewrite <- (enter_gate_park _ _ (Runnable (gate (pop_ret c v true)))).
      apply micro_enter_gate. unfold park. simpl. apply lookup_insert_eq.
  - destruct (sendq (chan w)) as [|[s sv] sq] eqn:Hs.
    + left. by apply m_pop_park.
    + right. pose proof (m_pop_direct w c s sv sq Hc Hcl Hs) as Hm.
      rewrite Hb in Hm. simpl in Hm. eexists. split; [exact Hm|].
      rewrite <- (enter_gate_park _ _ (Runnable (gate (pop_ret c sv true)))).
      apply micro_enter_gate. unfold park. simpl. apply lookup_insert_eq.
  - destruct (sendq (chan w)) as [|[s sv] sq] eqn:Hs.
    + right. eexists. split.
      * eapply (m_pop_buffered w c v b); auto. by rewrite Hcl.
      * rewrite Hcl, Hs.
        rewrite <- (enter_gate_park _ _ (Runnable (gate (pop_ret c v true)))).
        apply micro_enter_gate. unfold park. simpl. apply lookup_insert_eq.
    + right. pose proof (m_pop_direct w c s sv sq Hc Hcl Hs) as Hm.
      rewrite Hb in Hm. simpl in Hm. eexists. split; [exact Hm|].
      rewrite <- (enter_gate_park _ _ (Runnable (gate (pop_ret c v true)))).
      apply micro_enter_gate. unfold park. simpl. apply lookup_insert_eq.
Qed.

Lemma step_micro_sched w g :
  inv w -> step w (Sched g) = w \/ micro w (LGate g) (step w (Sched g)).
Proof.
  intros Hinv. simpl. destruct (pool w !! g) as [s|] eqn:Hg; [|by left].
  destruct (inv_pool w Hinv g s Hg).
  - by left.
  - right. by apply m_return.
  - by left.
  - right. by apply m_return.
  - right. rewrite exec_gate. by apply micro_enter_gate.
  - destruct (lock (lim w)) eqn:Hl; [by left|]. right.
    rewrite exec_gate_body by done. apply micro_run_gate; auto.
  - destruct (Z.leb_spec wake (now w)); [|by left]. right.
    rewrite exec_gate_tail. rewrite H1. by eapply m_wake.
Qed.

Lemma step_micro_go w c :
  micro w (LCall c) (step w (Go c)) \/
  exists w1, micro w (LCall c) w1 /\ micro w1 (LGate (nextg w)) (step w (Go c)).
Proof.
  destruct c as [v| | |].
  - left. rewrite step_go_push. cbv zeta. unfold chansend.
    destruct (closed (chan w)) eqn:Hc; [by apply m_push_closed|].
    destruct (recvq (chan w)) as [|r rq] eqn:Hr; [|by apply m_push_direct].
    destruct (Z.ltb_spec (Z.of_nat (length (buf (chan w)))) (dataqsiz (chan w))).
    + by apply m_push_buffered.
    + by apply m_push_park.
  - by apply step_micro_pop.
  - by apply step_micro_pop.
  - left. rewrite step_go_close. cbv zeta. unfold closechan.
    destruct (closed (chan w)) eqn:Hc; [by apply m_close_closed|].
    by apply m_close.
Qed.

Lemma gs_ok_frame w w' g s :
  gs_ok w g s ->
  (forall v, (g, v) ∈ sendq (chan w) -> (g, v) ∈ sendq (chan w')) ->
  (g ∈ recvq (chan w) -> g ∈ recvq (chan w')) ->
  took (trace w') g = took (trace w) g ->
  (lock (lim w) = Some g ->
   lock (lim w') = Some g /\ d (lim w') = d (lim w) /\
   nextTime (lim w') = nextTime (lim w)) ->
  gs_ok w' g s.
Proof.
  intros Hok Hs Hr Ht Hl. destruct Hok.
  - econstructor; eauto.
  - constructor.
  - constructor; auto. congruence.
  - constructor; auto. congruence.
  - constructor; auto. congruence.
  - constructor; auto. congruence.
  - destruct (Hl H1) as (? & Hd & Hn). constructor; auto; try congruence.
    rewrite Hd, Hn. auto.
Qed.

Lemma inv_tick w dt :
  inv w -> inv (mkWorld (now w + Z.of_N dt) (lim w) (pool w) (nextg w) (trace w)).
Proof.
  intros [].
  split; simpl; auto.
  - intros g s Hg. eapply gs_ok_frame; eauto.
  - intros. specialize (inv_time0 H). lia.
Qed.

Lemma inv_called w c : inv w -> inv (called c w).
Proof.
  intros [].
  split; simpl; auto.
  - intros g s Hg. eapply gs_ok_frame; eauto.
  - intros g s Hg. specialize (inv_fresh0 g s Hg). lia.
  - intros g Hg. apply inv_fresh_took0. lia.
Qed.

Lemma fresh_called w c : inv w -> fresh (called c w) (nextg w).
Proof.
  intros []. split; simpl.
  - destruct (pool w !! nextg w) eqn:E; [|done].
    apply inv_fresh0 in E. lia.
  - apply inv_fresh_took0. lia.
  - lia.
Qed.

Lemma fresh_not_recvq w g : inv w -> fresh w g -> g ∉ recvq (chan w).
Proof.
  intros Hi Hf Hin. destruct (inv_recvq w Hi g Hin) as (c & _ & Hp).
  rewrite (fresh_pool w g Hf) in Hp. done.
Qed.

Lemma fresh_not_sendq w g v : inv w -> fresh w g -> (g, v) ∉ sendq (chan w).
Proof.
  intros Hi Hf Hin. pose proof (inv_sendq w Hi g v Hin) as Hp.
  rewrite (fresh_pool w g Hf) in Hp. done.
Qed.

Lemma fresh_not_lock w g : inv w -> fresh w g -> lock (lim w) <> Some g.
Proof.
  intros Hi Hf Hl. destruct (inv_lock w Hi g Hl) as (? & ? & Hp).
  rewrite (fresh_pool w g Hf) in Hp. done.
Qed.

(** A goroutine that is in no queue and does not hold the mutex returns. *)
Lemma inv_ret w g r :
  inv w -> g ∉ recvq (chan w) -> (forall v, (g, v) ∉ sendq (chan w)) ->
  lock (lim w) <> Some g ->
  inv (ret g r w).
Proof.
  intros Hi Hr Hs Hl. destruct Hi.
  split; simpl; auto.
  - intros g' s Hg. apply lookup_delete_Some in Hg as [Hne Hg].
    eapply gs_ok_frame; eauto.
  - intros g' s Hg. apply lookup_delete_Some in Hg as [Hne Hg]. eauto.
  - intros g' Hg. destruct (inv_recvq0 g' Hg) as (c & ? & ?).
    exists c. split; auto. rewrite lookup_delete_ne; auto. by intros ->.
  - intros g' v Hg. rewrite lookup_delete_ne; eauto. intros ->. by eapply Hs.
  - intros g' Hg. destruct (inv_lock0 g' Hg) as (wk & k & ?).
    exists wk, k. rewrite lookup_delete_ne; auto. congruence.
Qed.

Lemma took_cons_dequeue tr r v g :
  took (EvDequeue r v :: tr) g = if decide (r = g) then Some v else took tr g.
Proof. reflexivity. Qed.

Lemma inv_push_direct w v r rq :
  inv w -> closed (chan w) = false -> recvq (chan w) = r :: rq ->
  inv (emit (EvDequeue r v)
         (release_recv v true r
            (with_chan (mkChan (dataqsiz (chan w)) (buf (chan w)) false rq
                               (sendq (chan w))) w))).
Proof.
  intros Hi Hc Hr.
  assert (Hin : r ∈ recvq (chan w)) by (rewrite Hr; left).
  destruct (inv_recvq w Hi r Hin) as (c & Hpop & Hpr).
  pose proof (inv_recvq_nodup w Hi) as Hnd. rewrite Hr in Hnd.
  apply NoDup_cons in Hnd as [Hnr Hnd].
  destruct (inv_recv_wait w Hi) as [Hb Hs]; [by rewrite Hr|].
  unfold release_recv. simpl. rewrite Hpr.
  destruct Hi. split; simpl; unfold chan in *; simpl.
  - intros g s Hg. apply lookup_insert_Some in Hg as [[<- <-]|[Hne Hg]].
    + rewrite pop_k_true by done. apply ok_some; auto. simpl.
      by rewrite decide_True.
    + eapply gs_ok_frame; eauto; unfold chan; simpl.
      * rewrite Hr. intros He. apply elem_of_cons in He as [->|]; done.
      * by rewrite decide_False.
  - intros g s Hg. apply lookup_insert_Some in Hg as [[<- <-]|[Hne Hg]]; eauto.
  - intros g Hg. rewrite decide_False; eauto.
    intros <-. apply inv_fresh0 in Hpr. lia.
  - intros g Hg. destruct (inv_recvq0 g) as (c' & ? & ?).
    { rewrite Hr. by right. }
    exists c'. split; auto. rewrite lookup_insert_ne; auto. by intros ->.
  - rewrite Hs. intros ?? He. by apply elem_of_nil in He.
  - done.
  - done.
  - intros g Hg. destruct (inv_lock0 g Hg) as (wk & k & Hp).
    exists wk, k. rewrite lookup_insert_ne; auto. intros ->. congruence.
  - done.
  - rewrite Hs. done.
  - done.
  - done.
  - done.
Qed.

Lemma inv_push_buffered w v :
  inv w -> closed (chan w) = false -> recvq (chan w) = [] ->
  Z.of_nat (length (buf (chan w))) < dataqsiz (chan w) ->
  inv (with_chan (mkChan (dataqsiz (chan w)) (buf (chan w) ++ [v]) false []
                         (sendq (chan w))) w).
Proof.
  intros Hi Hc Hr Hlt.
  assert (Hs : sendq (chan w) = []).
  { destruct (sendq (chan w)) eqn:E; [done|].
    pose proof (inv_send_wait w Hi) as Hw. rewrite E in Hw.
    specialize (Hw ltac:(done)). lia. }
  destruct Hi. split; simpl; unfold chan in *; simpl.
  - intros g s Hg. eapply gs_ok_frame; eauto; unfold chan; simpl.
    by rewrite Hr.
  - done.
  - done.
  - intros g Hg. by apply elem_of_nil in Hg.
  - done.
  - constructor.
  - done.
  - done.
  - done.
  - rewrite Hs. done.
  - rewrite length_app. simpl. lia.
  - done.
  - done.
Qed.

Lemma inv_push_park w g v :
  inv w -> fresh w g -> closed (chan w) = false -> recvq (chan w) = [] ->
  dataqsiz (chan w) <= Z.of_nat (length (buf (chan w))) ->
  inv (park g (WaitSend push_k)
         (with_chan (mkChan (dataqsiz (chan w)) (buf (chan w)) false []
                            (sendq (chan w) ++ [(g, v)])) w)).
Proof.
  intros Hi Hf Hc Hr Hle.
  pose proof (fresh_not_lock w g Hi Hf) as Hnl.
  assert (Hns : g ∉ (sendq (chan w)).*1).
  { intros Hin. apply list_elem_of_fmap in Hin as ([g' v'] & -> & Hin).
    by eapply fresh_not_sendq. }
  destruct Hf, Hi. split; simpl; unfold chan in *; simpl.
  - intros g' s Hg. apply lookup_insert_Some in Hg as [[<- <-]|[Hne Hg]].
    + apply (ok_send _ _ v). unfold chan; simpl. apply elem_of_app. right. left.
    + eapply gs_ok_frame; eauto; unfold chan; simpl.
      * intros v' Hin. apply elem_of_app. by left.
      * by rewrite Hr.
  - intros g' s Hg. apply lookup_insert_Some in Hg as [[<- <-]|[Hne Hg]]; eauto.
  - done.
  - intros g' Hg. by apply elem_of_nil in Hg.
  - intros g' v' Hin. apply elem_of_app in Hin as [Hin|Hin].
    + rewrite lookup_insert_ne; eauto. intros <-. apply Hns.
      apply list_elem_of_fmap. by exists (g, v').
    + apply list_elem_of_singleton in Hin. injection Hin as -> ->.
      apply lookup_insert_eq.
  - constructor.
  - rewrite fmap_app. apply NoDup_app. split; [done|]. split.
    + intros x Hx Hx'. apply list_elem_of_singleton in Hx'. by subst.
    + apply NoDup_singleton.
  - intros g' Hg. destruct (inv_lock0 g' Hg) as (wk & k & Hp).
    exists wk, k. rewrite lookup_insert_ne; auto. intros <-. congruence.
  - done.
  - done.
  - done.
  - done.
  - done.
Qed.

Lemma inv_pop_park w g c :
  inv w -> fresh w g -> is_pop c = true ->
  closed (chan w) = false -> buf (chan w) = [] -> sendq (chan w) = [] ->
  inv (park g (WaitRecv (pop_k c))
         (with_chan (mkChan (dataqsiz (chan w)) [] false
                            (recvq (chan w) ++ [g]) []) w)).
Proof.
  intros Hi Hf Hpop Hc Hb Hs.
  pose proof (fresh_not_lock w g Hi Hf) as Hnl.
  pose proof (fresh_not_recvq w g Hi Hf) as Hnr.
  destruct Hf, Hi. split; simpl; unfold chan in *; simpl.
  - intros g' s Hg. apply lookup_insert_Some in Hg as [[<- <-]|[Hne Hg]].
    + apply ok_recv; auto. unfold chan; simpl. apply elem_of_app. right. left.
    + eapply gs_ok_frame; eauto; unfold chan; simpl.
      * by rewrite Hs.
      * intros Hin. apply elem_of_app. by left.
  - intros g' s Hg. apply lookup_insert_Some in Hg as [[<- <-]|[Hne Hg]]; eauto.
  - done.
  - intros g' Hin. apply elem_of_app in Hin as [Hin|Hin].
    + destruct (inv_recvq0 g' Hin) as (c' & ? & ?). exists c'. split; auto.
      rewrite lookup_insert_ne; auto. by intros <-.
    + apply list_elem_of_singleton in Hin. subst. exists c. split; auto.
      apply lookup_insert_eq.
  - intros g' v' Hin. by apply elem_of_nil in Hin.
  - apply NoDup_app. split; [done|]. split.
    + intros x Hx Hx'. apply list_elem_of_singleton in Hx'. by subst.
    + apply NoDup_singleton.
  - constructor.
  - intros g' Hg. destruct (inv_lock0 g' Hg) as (wk & k & Hp).
    exists wk, k. rewrite lookup_insert_ne; auto. intros <-. congruence.
  - done.
  - done.
  - rewrite Hb in inv_cap0. done.
  - done.
  - done.
Qed.

Lemma inv_pop_direct w g c s sv sq :
  inv w -> fresh w g -> is_pop c = true ->
  closed (chan w) = false -> sendq (chan w) = (s, sv) :: sq ->
  inv (park g (Runnable (gate (pop_ret c (hd sv (buf (chan w))) true)))
         (emit (EvDequeue g (hd sv (buf (chan w))))
            (release_send true s
               (with_chan (mkChan (dataqsiz (chan w))
                                  (match buf (chan w) with
                                   | [] => []
                                   | _ :: b => b ++ [sv]
                                   end)
                                  false (recvq (chan w)) sq) w)))).
Proof.
  intros Hi Hf Hpop Hc Hs.
  pose proof (fresh_not_lock w g Hi Hf) as Hnl.
  assert (Hin : (s, sv) ∈ sendq (chan w)) by (rewrite Hs; left).
  pose proof (inv_sendq w Hi s sv Hin) as Hps.
  pose proof (inv_sendq_nodup w Hi) as Hnd. rewrite Hs in Hnd. simpl in Hnd.
  apply NoDup_cons in Hnd as [Hns Hnd].
  assert (Hr : recvq (chan w) = []).
  { destruct (recvq (chan w)) eqn:E; [done|].
    destruct (inv_recv_wait w Hi) as [_ Hs']; [by rewrite E|]. congruence. }
  assert (Hgs : g <> s).
  { intros ->. rewrite (fresh_pool w s Hf) in Hps. done. }
  assert (Hlen : length (match buf (chan w) with
                         | [] => []
                         | _ :: b => b ++ [sv]
                         end) = length (buf (chan w))).
  { destruct (buf (chan w)); simpl; [done|]. rewrite length_app. simpl. lia. }
  unfold release_send. simpl. rewrite Hps.
  destruct Hf, Hi. split; simpl; unfold chan in *; simpl.
  - intros g' st Hg. apply lookup_insert_Some in Hg as [[<- <-]|[Hne Hg]].
    { apply ok_some; auto. simpl. by rewrite decide_True. }
    apply lookup_insert_Some in Hg as [[<- <-]|[Hne' Hg]].
    { rewrite push_k_eq. constructor. }
    eapply gs_ok_frame; eauto; unfold chan; simpl.
    + rewrite Hs. intros v' He. apply elem_of_cons in He as [He|]; [|done].
      congruence.
    + by rewrite decide_False.
  - intros g' st Hg. apply lookup_insert_Some in Hg as [[<- <-]|[Hne Hg]]; [done|].
    apply lookup_insert_Some in Hg as [[<- <-]|[Hne' Hg]]; eauto.
  - intros g' Hg. rewrite decide_False by lia. by apply inv_fresh_took0.
  - rewrite Hr. intros g' Hg. by apply elem_of_nil in Hg.
  - intros g' v' Hg. assert (g' <> s).
    { intros ->. apply Hns. apply list_elem_of_fmap. by exists (s, v'). }
    assert (Hin' : (g', v') ∈ sendq (values (lim w))) by (rewrite Hs; by right).
    rewrite lookup_insert_ne, lookup_insert_ne; eauto.
    intros <-. rewrite (inv_sendq0 _ _ Hin') in fresh_pool0. done.
  - done.
  - done.
  - intros g' Hg. destruct (inv_lock0 g' Hg) as (wk & k & Hp).
    exists wk, k. rewrite lookup_insert_ne, lookup_insert_ne; auto.
    + intros <-. congruence.
    + intros <-. congruence.
  - by rewrite Hr.
  - intros _. rewrite Hlen. apply inv_send_wait0. by rewrite Hs.
  - by rewrite Hlen.
  - done.
  - done.
Qed.

Lemma inv_pop_buffered w g c v b :
  inv w -> fresh w g -> is_pop c = true -> buf (chan w) = v :: b ->
  (if closed (chan w) then [] else sendq (chan w)) = [] ->
  inv (park g (Runnable (gate (pop_ret c v true)))
         (emit (EvDequeue g v)
            (with_chan (mkChan (dataqsiz (chan w)) b (closed (chan w))
                               (recvq (chan w)) (sendq (chan w))) w))).
Proof.
  intros Hi Hf Hpop Hb Hq.
  pose proof (fresh_not_lock w g Hi Hf) as Hnl.
  assert (Hs : sendq (chan w) = []).
  { destruct (closed (chan w)) eqn:E; [|done]. by apply (inv_closed w Hi). }
  assert (Hr : recvq (chan w) = []).
  { destruct (recvq (chan w)) eqn:E; [done|].
    destruct (inv_recv_wait w Hi) as [Hb' _]; [by rewrite E|]. congruence. }
  destruct Hf, Hi. split; simpl; unfold chan in *; simpl.
  - intros g' st Hg. apply lookup_insert_Some in Hg as [[<- <-]|[Hne Hg]].
    { apply ok_some; auto. simpl. by rewrite decide_True. }
    eapply gs_ok_frame; eauto; unfold chan; simpl.
    by rewrite decide_False.
  - intros g' st Hg. apply lookup_insert_Some in Hg as [[<- <-]|[Hne Hg]]; eauto.
  - intros g' Hg. rewrite decide_False by lia. by apply inv_fresh_took0.
  - rewrite Hr. intros g' Hg. by apply elem_of_nil in Hg.
  - rewrite Hs. intros g' v' Hg. by apply elem_of_nil in Hg.
  - done.
  - done.
  - intros g' Hg. destruct (inv_lock0 g' Hg) as (wk & k & Hp).
    exists wk, k. rewrite lookup_insert_ne; auto. intros <-. congruence.
  - by rewrite Hr.
  - by rewrite Hs.
  - rewrite Hb in inv_cap0. simpl in inv_cap0. lia.
  - done.
  - done.
Qed.

Lemma release_recv_rest v ok r (w : World) :
  now (release_recv v ok r w) = now w /\ lim (release_recv v ok r w) = lim w /\
  nextg (release_recv v ok r w) = nextg w /\
  trace (release_recv v ok r w) = trace w.
Proof. unfold release_recv. by destruct (pool w !! r) as [[]|]. Qed.

Lemma release_send_rest ok r (w : World) :
  now (release_send ok r w) = now w /\ lim (release_send ok r w) = lim w /\
  nextg (release_send ok r w) = nextg w /\
  trace (release_send ok r w) = trace w.
Proof. unfold release_send. by destruct (pool w !! r) as [[]|]. Qed.

Lemma release_recv_lookup v ok r (w : World) g :
  pool (release_recv v ok r w) !! g =
  if decide (g = r) then released_recv v ok (pool w !! g) else pool w !! g.
Proof.
  unfold release_recv. case_decide as E.
  - subst. destruct (pool w !! r) as [[]|] eqn:Hp; simpl; rewrite ?Hp; try done.
    apply lookup_insert_eq.
  - destruct (pool w !! r) as [[]|] eqn:Hp; simpl; try done.
    by rewrite lookup_insert_ne.
Qed.

Lemma release_send_lookup ok r (w : World) g :
  pool (release_send ok r w) !! g =
  if decide (g = r) then released_send ok (pool w !! g) else pool w !! g.
Proof.
  unfold release_send. case_decide as E.
  - subst. destruct (pool w !! r) as [[]|] eqn:Hp; simpl; rewrite ?Hp; try done.
    apply lookup_insert_eq.
  - destruct (pool w !! r) as [[]|] eqn:Hp; simpl; try done.
    by rewrite lookup_insert_ne.
Qed.

Lemma foldr_release_recv_rest v ok rs (w : World) :
  now (foldr (release_recv v ok) w rs) = now w /\
  lim (foldr (release_recv v ok) w rs) = lim w /\
  nextg (foldr (release_recv v ok) w rs) = nextg w /\
  trace (foldr (release_recv v ok) w rs) = trace w.
Proof.
  induction rs as [|r rs IH]; simpl; [done|].
  destruct (release_recv_rest v ok r (foldr (release_recv v ok) w rs))
    as (-> & -> & -> & ->). done.
Qed.

Lemma foldr_release_send_rest ok rs (w : World) :
  now (foldr (release_send ok) w rs) = now w /\
  lim (foldr (release_send ok) w rs) = lim w /\
  nextg (foldr (release_send ok) w rs) = nextg w /\
  trace (foldr (release_send ok) w rs) = trace w.
Proof.
  induction rs as [|r rs IH]; simpl; [done|].
  destruct (release_send_rest ok r (foldr (release_send ok) w rs))
    as (-> & -> & -> & ->). done.
Qed.

Lemma foldr_release_recv_lookup v ok rs (w : World) g :
  NoDup rs ->
  pool (foldr (release_recv v ok) w rs) !! g =
  if decide (g ∈ rs) then released_recv v ok (pool w !! g) else pool w !! g.
Proof.
  induction 1 as [|r rs Hnr Hnd IH].
  - case_decide as E; [|done]. by apply elem_of_nil in E.
  - cbn [foldr]. rewrite release_recv_lookup, IH.
    destruct (decide (g = r)) as [->|E1].
    + rewrite (decide_False _ _ Hnr).
      rewrite decide_True; [done|]. left.
    + destruct (decide (g ∈ rs)).
      * rewrite decide_True; [done|]. by right.
      * rewrite decide_False; [done|]. intros Hin.
        apply elem_of_cons in Hin as [|]; done.
Qed.

Lemma foldr_release_send_lookup ok rs (w : World) g :
  NoDup rs ->
  pool (foldr (release_send ok) w rs) !! g =
  if decide (g ∈ rs) then released_send ok (pool w !! g) else pool w !! g.
Proof.
  induction 1 as [|r rs Hnr Hnd IH].
  - case_decide as E; [|done]. by apply elem_of_nil in E.
  - cbn [foldr]. rewrite release_send_lookup, IH.
    destruct (decide (g = r)) as [->|E1].
    + rewrite (decide_False _ _ Hnr).
      rewrite decide_True; [done|]. left.
    + destruct (decide (g ∈ rs)).
      * rewrite decide_True; [done|]. by right.
      * rewrite decide_False; [done|]. intros Hin.
        apply elem_of_cons in Hin as [|]; done.
Qed.

Lemma close_world_rest w :
  now (close_world w) = now w /\
  lim (close_world w) =
    mkLimiter (lock (lim w)) (nextTime (lim w)) (d (lim w))
              (mkChan (dataqsiz (chan w)) (buf (chan w)) true [] []) /\
  nextg (close_world w) = nextg w /\
  trace (close_world w) = trace w.
Proof.
  unfold close_world.
  destruct (foldr_release_send_rest false (map fst (sendq (chan w)))
    (foldr (release_recv Nil false)
       (with_chan (mkChan (dataqsiz (chan w)) (buf (chan w)) true [] []) w)
       (recvq (chan w)))) as (-> & -> & -> & ->).
  destruct (foldr_release_recv_rest Nil false (recvq (chan w))
    (with_chan (mkChan (dataqsiz (chan w)) (buf (chan w)) true [] []) w))
    as (-> & -> & -> & ->).
  done.
Qed.

Lemma close_world_lookup w g :
  inv w ->
  pool (close_world w) !! g =
  if decide (g ∈ map fst (sendq (chan w))) then Some (Runnable (push_k false))
  else if decide (g ∈ recvq (chan w))
       then released_recv Nil false (pool w !! g)
       else pool w !! g.
Proof.
  intros Hi. unfold close_world.
  rewrite foldr_release_send_lookup by apply (inv_sendq_nodup w Hi).
  rewrite foldr_release_recv_lookup by apply (inv_recvq_nodup w Hi).
  destruct (decide (g ∈ map fst (sendq (chan w)))) as [Es|Es]; [|done].
  apply (list_elem_of_fmap (A:=gid * iface)) in Es as ([g' v] & -> & Hin).
  pose proof (inv_sendq w Hi _ _ Hin) as Hp. cbn [fst with_chan pool].
  rewrite Hp. by case_decide.
Qed.

Lemma inv_close w :
  inv w -> closed (chan w) = false -> inv (close_world w).
Proof.
  intros Hi Hc.
  destruct (close_world_rest w) as (Hn & Hl & Hg & Ht).
  pose proof (close_world_lookup w) as Hp.
  split; unfold chan; rewrite ?Hn, ?Hl, ?Hg, ?Ht;
    cbn [values recvq sendq buf closed dataqsiz lock nextTime d].
  - intros g s. rewrite (Hp g Hi).
    destruct (decide (g ∈ map fst (sendq (chan w)))) as [Es|Es].
    { intros [= <-]. rewrite push_k_eq. constructor. }
    destruct (decide (g ∈ recvq (chan w))) as [Er|Er].
    { destruct (inv_recvq w Hi g Er) as (c & Hpop & Hpg). rewrite Hpg. simpl.
      intros [= <-]. rewrite pop_k_false by done.
      pose proof (inv_pool w Hi g _ Hpg) as Hok.
      inversion Hok; subst. apply ok_none; auto. by rewrite Ht. }
    intros Hs. eapply gs_ok_frame; [by eapply (inv_pool w Hi)|..].
    + intros v Hin. destruct Es. apply (list_elem_of_fmap (A:=gid * iface)).
      by exists (g, v).
    + done.
    + by rewrite Ht.
    + by rewrite Hl.
  - intros g s. rewrite (Hp g Hi).
    destruct (decide (g ∈ map fst (sendq (chan w)))) as [Es|Es].
    { intros _. apply (list_elem_of_fmap (A:=gid * iface)) in Es as ([g' v] & -> & Hin).
      eapply (inv_fresh w Hi). by eapply (inv_sendq w Hi). }
    destruct (decide (g ∈ recvq (chan w))) as [Er|Er].
    { intros _. destruct (inv_recvq w Hi g Er) as (c & Hpop & Hpg).
      by eapply (inv_fresh w Hi). }
    by apply (inv_fresh w Hi).
  - apply (inv_fresh_took w Hi).
  - intros g Hin. by apply elem_of_nil in Hin.
  - intros g v Hin. by apply elem_of_nil in Hin.
  - constructor.
  - constructor.
  - intros g Hlk. destruct (inv_lock w Hi g Hlk) as (wk & k & Hpg).
    exists wk, k. rewrite (Hp g Hi).
    destruct (decide (g ∈ map fst (sendq (chan w)))) as [Es|Es].
    { apply (list_elem_of_fmap (A:=gid * iface)) in Es as ([g' v] & -> & Hin).
      pose proof (inv_sendq w Hi _ _ Hin) as Hq. simpl in *. congruence. }
    destruct (decide (g ∈ recvq (chan w))) as [Er|Er].
    { destruct (inv_recvq w Hi g Er) as (c & Hpop & Hq). congruence. }
    done.
  - done.
  - done.
  - apply (inv_cap w Hi).
  - done.
  - apply (inv_time w Hi).
Qed.

Lemma gate_inj r r' : gate r = gate r' -> r = r'.
Proof. intros H. apply (f_equal result_of) in H. by injection H. Qed.
Lemma gate_body_inj r r' : gate_body r = gate_body r' -> r = r'.
Proof. intros H. apply (f_equal result_of) in H. by injection H. Qed.
Lemma gate_tail_inj r r' : gate_tail r = gate_tail r' -> r = r'.
Proof. intros H. apply (f_equal result_of) in H. by injection H. Qed.

Lemma gs_ok_runnable w g p :
  gs_ok w g (Runnable p) ->
  (exists r, p = Ret r) \/
  exists c v, is_pop c = true /\ took (trace w) g = Some v /\
              p = gate (pop_ret c v true).
Proof. inversion 1; subst; eauto 10. Qed.

Lemma gs_ok_waitlock w g k :
  gs_ok w g (WaitLock k) ->
  exists c v, is_pop c = true /\ took (trace w) g = Some v /\
              k = gate_body (pop_ret c v true).
Proof. inversion 1; subst; eauto 10. Qed.

Lemma gs_ok_sleeping w g wake k :
  gs_ok w g (Sleeping wake k) ->
  exists c v, is_pop c = true /\ took (trace w) g = Some v /\
    k = gate_tail (pop_ret c v true) /\ lock (lim w) = Some g /\
    (d (lim w) <= time.maxDuration -> nextTime (lim w) <= wake).
Proof. inversion 1; subst; eauto 10. Qed.

Lemma gs_ok_gate w g r :
  gs_ok w g (Runnable (gate r)) ->
  exists c v, is_pop c = true /\ took (trace w) g = Some v /\ r = pop_ret c v true.
Proof.
  intros H. apply gs_ok_runnable in H as [[r' ?]|(c & v & ? & ? & E)]; [done|].
  apply gate_inj in E. eauto.
Qed.

Lemma gs_ok_lock w g r :
  gs_ok w g (WaitLock (gate_body r)) ->
  exists c v, is_pop c = true /\ took (trace w) g = Some v /\ r = pop_ret c v true.
Proof.
  intros H. apply gs_ok_waitlock in H as (c & v & ? & ? & E).
  apply gate_body_inj in E. eauto.
Qed.

Lemma gs_ok_sleep w g wake r :
  gs_ok w g (Sleeping wake (gate_tail r)) ->
  exists c v, is_pop c = true /\ took (trace w) g = Some v /\ r = pop_ret c v true /\
    lock (lim w) = Some g /\
    (d (lim w) <= time.maxDuration -> nextTime (lim w) <= wake).
Proof.
  intros H. apply gs_ok_sleeping in H as (c & v & ? & ? & E & ? & ?).
  apply gate_tail_inj in E. eauto 10.
Qed.

Lemma inv_gate_busy w g r :
  inv w -> pool w !! g = Some (Runnable (gate r)) ->
  inv (park g (WaitLock (gate_body r)) w).
Proof.
  intros Hi Hg.
  destruct (gs_ok_gate w g r (inv_pool w Hi g _ Hg)) as (c & v & Hpop & Htk & ->).
  destruct Hi. split; simpl; unfold chan in *; simpl.
  - intros g' s Hg'. apply lookup_insert_Some in Hg' as [[<- <-]|[Hne Hg']].
    + by apply ok_lock.
    + eapply gs_ok_frame; eauto.
  - intros g' s Hg'. apply lookup_insert_Some in Hg' as [[<- <-]|[Hne Hg']]; eauto.
  - done.
  - intros g' Hin. destruct (inv_recvq0 g' Hin) as (c' & ? & ?). exists c'.
    split; auto. rewrite lookup_insert_ne; auto. intros <-. congruence.
  - intros g' v' Hin. rewrite lookup_insert_ne; eauto. intros <-.
    rewrite (inv_sendq0 _ _ Hin) in Hg. done.
  - done.
  - done.
  - intros g' Hl. destruct (inv_lock0 g' Hl) as (wk & k & Hp).
    exists wk, k. rewrite lookup_insert_ne; auto. intros <-. congruence.
  - done.
  - done.
  - done.
  - done.
  - done.
Qed.

Lemma not_queued w g s :
  inv w -> pool w !! g = Some s ->
  (forall k, s <> WaitRecv k) -> (forall k, s <> WaitSend k) ->
  (g ∉ recvq (chan w)) /\ (forall v, (g, v) ∉ sendq (chan w)).
Proof.
  intros Hi Hg Hr Hs. split.
  - intros Hin. destruct (inv_recvq w Hi g Hin) as (c & _ & Hp).
    rewrite Hg in Hp. injection Hp as ->. by eapply Hr.
  - intros v Hin. pose proof (inv_sendq w Hi g v Hin) as Hp.
    rewrite Hg in Hp. injection Hp as ->. by eapply Hs.
Qed.

Lemma sub_positive nt t :
  nt <= t + time.maxDuration -> 0 < time.Sub nt t -> t + time.Sub nt t = nt.
Proof.
  unfold time.Sub, time.minDuration, time.maxDuration.
  intros H1 H2.
  destruct (Z.ltb_spec (nt - t) (- 2 ^ 63)); [lia|].
  destruct (Z.ltb_spec (2 ^ 63 - 1) (nt - t)); lia.
Qed.

Lemma sub_nonpositive nt t : time.Sub nt t <= 0 -> nt <= t.
Proof.
  unfold time.Sub, time.minDuration, time.maxDuration.
  destruct (Z.ltb_spec (nt - t) (- 2 ^ 63)); [lia|].
  destruct (Z.ltb_spec (2 ^ 63 - 1) (nt - t)); lia.
Qed.

Lemma inv_gate_sleep w g r :
  inv w ->
  pool w !! g = Some (Runnable (gate r)) \/
  pool w !! g = Some (WaitLock (gate_body r)) ->
  lock (lim w) = None ->
  0 < time.Sub (nextTime (lim w)) (now w) ->
  inv (park g (Sleeping (now w + time.Sub (nextTime (lim w)) (now w))
                 (gate_tail r))
         (with_lock (Some g) w)).
Proof.
  intros Hi Hg Hl Hsub.
  assert (exists c v s, is_pop c = true /\ took (trace w) g = Some v /\
            r = pop_ret c v true /\ pool w !! g = Some s /\
            (forall k, s <> WaitRecv k) /\ (forall k, s <> WaitSend k))
    as (c & v & s & Hpop & Htk & -> & Hs & Hnr & Hns).
  { destruct Hg as [Hg|Hg].
    - destruct (gs_ok_gate w g r (inv_pool w Hi g _ Hg)) as (c & v & ? & ? & ?).
      exists c, v. eexists. repeat split; eauto.
    - destruct (gs_ok_lock w g r (inv_pool w Hi g _ Hg)) as (c & v & ? & ? & ?).
      exists c, v. eexists. repeat split; eauto. }
  destruct (not_queued w g s Hi Hs Hnr Hns) as [Hq1 Hq2].
  destruct Hi. split; simpl; unfold chan in *; simpl.
  - intros g' s' Hg'. apply lookup_insert_Some in Hg' as [[<- <-]|[Hne Hg']].
    + apply ok_sleep; auto. simpl. intros Hd.
      rewrite sub_positive; auto. lia.
    + eapply gs_ok_frame; eauto. simpl. congruence.
  - intros g' s' Hg'. apply lookup_insert_Some in Hg' as [[<- <-]|[Hne Hg']]; eauto.
  - done.
  - intros g' Hin. destruct (inv_recvq0 g' Hin) as (c' & ? & ?). exists c'.
    split; auto. rewrite lookup_insert_ne; auto. by intros <-.
  - intros g' v' Hin. rewrite lookup_insert_ne; eauto. intros <-. by eapply Hq2.
  - done.
  - done.
  - intros g' [= <-]. eexists _, _. apply lookup_insert_eq.
  - done.
  - done.
  - done.
  - done.
  - done.
Qed.

Lemma inv_pass_gate w g r s :
  inv w -> pool w !! g = Some s ->
  (forall k, s <> WaitRecv k) -> (forall k, s <> WaitSend k) ->
  lock (lim w) = None \/ lock (lim w) = Some g ->
  inv (pass_gate g r w).
Proof.
  intros Hi Hs Hnr Hns Hl.
  destruct (not_queued w g s Hi Hs Hnr Hns) as [Hq1 Hq2].
  destruct Hi. split; simpl; unfold chan in *; simpl.
  - intros g' s' Hg'. apply lookup_delete_Some in Hg' as [Hne Hg'].
    eapply gs_ok_frame; eauto. simpl. intros Hl'.
    destruct Hl; congruence.
  - intros g' s' Hg'. apply lookup_delete_Some in Hg' as [Hne Hg']. eauto.
  - done.
  - intros g' Hin. destruct (inv_recvq0 g' Hin) as (c' & ? & ?). exists c'.
    split; auto. rewrite lookup_delete_ne; auto. by intros <-.
  - intros g' v' Hin. rewrite lookup_delete_ne; eauto. intros <-. by eapply Hq2.
  - done.
  - done.
  - done.
  - done.
  - done.
  - done.
  - done.
  - unfold time.Add. lia.
Qed.

Lemma chan_release_recv v ok r (w : World) :
  chan (release_recv v ok r w) = chan w.
Proof. unfold chan. by destruct (release_recv_rest v ok r w) as (_ & -> & _). Qed.

Lemma chan_release_send ok r (w : World) :
  chan (release_send ok r w) = chan w.
Proof. unfold chan. by destruct (release_send_rest ok r w) as (_ & -> & _). Qed.

Lemma lim_release_recv v ok r (w : World) :
  lim (release_recv v ok r w) = lim w.
Proof. by destruct (release_recv_rest v ok r w) as (_ & -> & _). Qed.

Lemma lim_release_send ok r (w : World) :
  lim (release_send ok r w) = lim w.
Proof. by destruct (release_send_rest ok r w) as (_ & -> & _). Qed.

Theorem inv_micro w lb w' : inv w -> micro w lb w' -> inv w'.
Proof.
  intros Hi Hm. destruct Hm as
    [dt|v Hc|v r rq Hc Hr|v Hc Hr Hlt|v Hc Hr Hle|c Hpop Hc Hb
    |c Hpop Hc Hb Hs|c s sv sq Hpop Hc Hs|c v b Hpop Hb Hs|Hc|Hc
    |g r Hg|g r h Hg Hl|g r Hg Hl Hsub|g r Hg Hl Hsub|g r wake Hg Hl Hwake].
  - by apply inv_tick.
  - pose proof (fresh_called w (CallPush v) Hi) as Hf.
    pose proof (inv_called w (CallPush v) Hi) as Hi0.
    apply inv_ret; auto.
    + by apply fresh_not_recvq.
    + intros v'. by apply fresh_not_sendq.
    + by apply fresh_not_lock.
  - pose proof (fresh_called w (CallPush v) Hi) as Hf.
    pose proof (inv_called w (CallPush v) Hi) as Hi0.
    apply inv_ret.
    + by apply (inv_push_direct (called (CallPush v) w)).
    + unfold chan. simpl. rewrite lim_release_recv. simpl.
      intros Hin. apply (fresh_not_recvq _ _ Hi0 Hf).
      unfold chan; simpl. fold (chan w). rewrite Hr. by right.
    + unfold chan. simpl. rewrite lim_release_recv. simpl.
      intros v'. by apply (fresh_not_sendq _ _ _ Hi0 Hf).
    + simpl. rewrite lim_release_recv. simpl.
      by apply (fresh_not_lock _ _ Hi0 Hf).
  - pose proof (fresh_called w (CallPush v) Hi) as Hf.
    pose proof (inv_called w (CallPush v) Hi) as Hi0.
    apply inv_ret.
    + by apply (inv_push_buffered (called (CallPush v) w)).
    + unfold chan. simpl. apply not_elem_of_nil.
    + unfold chan. simpl. intros v'. by apply (fresh_not_sendq _ _ _ Hi0 Hf).
    + simpl. by apply (fresh_not_lock _ _ Hi0 Hf).
  - pose proof (fresh_called w (CallPush v) Hi) as Hf.
    pose proof (inv_called w (CallPush v) Hi) as Hi0.
    by apply (inv_push_park (called (CallPush v) w)).
  - pose proof (fresh_called w c Hi) as Hf.
    pose proof (inv_called w c Hi) as Hi0.
    apply inv_ret; auto.
    + by apply fresh_not_recvq.
    + intros v'. by apply fresh_not_sendq.
    + by apply fresh_not_lock.
  - pose proof (fresh_called w c Hi) as Hf.
    pose proof (inv_called w c Hi) as Hi0.
    by apply (inv_pop_park (called c w)).
  - pose proof (fresh_called w c Hi) as Hf.
    pose proof (inv_called w c Hi) as Hi0.
    by apply (inv_pop_direct (called c w)).
  - pose proof (fresh_called w c Hi) as Hf.
    pose proof (inv_called w c Hi) as Hi0.
    by apply (inv_pop_buffered (called c w)).
  - pose proof (fresh_called w CallClose Hi) as Hf.
    pose proof (inv_called w CallClose Hi) as Hi0.
    apply inv_ret; auto.
    + by apply fresh_not_recvq.
    + intros v'. by apply fresh_not_sendq.
    + by apply fresh_not_lock.
  - pose proof (fresh_called w CallClose Hi) as Hf.
    pose proof (inv_called w CallClose Hi) as Hi0.
    pose proof (inv_close (called CallClose w) Hi0 Hc) as Hi1.
    destruct (close_world_rest (called CallClose w)) as (Hn & Hlm & Hnx & Ht).
    change (inv (ret (nextg w) (RetClose ErrNil) (close_world (called CallClose w)))).
    apply inv_ret; auto.
    + unfold chan. rewrite Hlm. simpl. apply not_elem_of_nil.
    + unfold chan. rewrite Hlm. simpl. intros v'. apply not_elem_of_nil.
    + rewrite Hlm. simpl. by apply (fresh_not_lock _ _ Hi0 Hf).
  - destruct (not_queued w g _ Hi Hg) as [Hq1 Hq2]; [done|done|].
    apply inv_ret; auto.
    intros Hl. destruct (inv_lock w Hi g Hl) as (? & ? & ?). congruence.
  - by apply inv_gate_busy.
  - by apply inv_gate_sleep.
  - destruct Hg as [Hg|Hg]; eapply inv_pass_gate; eauto.
  - eapply inv_pass_gate; eauto.
Qed.

(** ** Reachable worlds satisfy the invariant *)

Lemma inv_boot t0 dd cap l :
  NewCapacity t0 dd cap = Some l -> inv (boot t0 l).
Proof.
  unfold NewCapacity, makechan. destruct (cap <? 0); [done|].
  intros [= <-]. split; simpl; unfold chan; simpl; try done.
  - intros g. by rewrite elem_of_nil.
  - intros g v. by rewrite elem_of_nil.
  - constructor.
  - constructor.
  - lia.
  - unfold time.maxDuration. lia.
Qed.

Lemma inv_step w a : inv w -> inv (step w a).
Proof.
  intros Hi. destruct a as [c|g|dt].
  - destruct (step_micro_go w c) as [Hm|(w1 & Hm1 & Hm2)].
    + by eapply inv_micro.
    + eapply inv_micro; [|exact Hm2]. by eapply inv_micro.
  - destruct (step_micro_sched w g Hi) as [->|Hm]; [done|].
    by eapply inv_micro.
  - eapply inv_micro; [done|apply m_tick].
Qed.

Lemma run_app w acts1 acts2 : run w (acts1 ++ acts2) = run (run w acts1) acts2.
Proof. apply foldl_app. Qed.

Lemma run_snoc w acts a : run w (acts ++ [a]) = step (run w acts) a.
Proof. by rewrite run_app. Qed.

Lemma inv_run w acts : inv w -> inv (run w acts).
Proof.
  revert w. induction acts as [|a acts IH]; intros w Hi; [done|].
  simpl. apply IH. by apply inv_step.
Qed.

(** A property kept by every atomic transition is kept by every step. *)
Lemma step_preserves (P : World -> Prop) :
  (forall w lb w', inv w -> P w -> micro w lb w' -> P w') ->
  forall w a, inv w -> P w -> P (step w a).
Proof.
  intros HP w a Hi Hw. destruct a as [c|g|dt].
  - destruct (step_micro_go w c) as [Hm|(w1 & Hm1 & Hm2)].
    + by eapply HP.
    + eapply (HP w1); [by eapply inv_micro| |exact Hm2]. by eapply HP.
  - destruct (step_micro_sched w g Hi) as [->|Hm]; [done|]. by eapply HP.
  - eapply HP; [done|done|apply m_tick].
Qed.

Lemma run_preserves (P : World -> Prop) :
  (forall w lb w', inv w -> P w -> micro w lb w' -> P w') ->
  forall acts w, inv w -> P w -> P (run w acts).
Proof.
  intros HP acts. induction acts as [|a acts IH]; intros w Hi Hw; [done|].
  simpl. apply IH; [by apply inv_step|]. by apply step_preserves.
Qed.

Lemma tinv_boot t0 l :
  closed (values l) = false -> buf (values l) = [] -> sendq (values l) = [] ->
  recvq (values l) = [] -> tinv (boot t0 l).
Proof.
  intros Hc Hb Hs Hr. split; simpl; unfold chan; simpl.
  - intros e. by rewrite elem_of_nil.
  - intros g s r t. by rewrite lookup_empty.
  - intros g r t. by rewrite elem_of_nil.
  - intros g r. by rewrite lookup_empty.
  - by rewrite Hb, Hs.
  - exists []. rewrite Hr. repeat split; try done.
  - intros g m. apply not_elem_of_nil.
Qed.

(** Quiet transitions: the channel and the trace stay as they are and no
    goroutine appears. *)
Lemma tinv_quiet w w' :
  tinv w ->
  chan w' = chan w -> nextg w' = nextg w -> trace w' = trace w ->
  (forall g s, pool w' !! g = Some s -> is_Some (pool w !! g)) ->
  (forall g r, pool w' !! g = Some (Runnable (Ret r)) ->
               pool w !! g = Some (Runnable (Ret r))) ->
  tinv w'.
Proof.
  intros [] Hc Hn Ht Hp Hr.
  split; unfold ret_ok; rewrite ?Hc, ?Hn, ?Ht; auto.
  - intros g s r t Hg. destruct (Hp g s Hg) as [s' Hs']. eauto.
  - intros g r Hg. eauto.
Qed.

(** A goroutine returns [r]. *)
Lemma tinv_ret w g r :
  tinv w -> (g < nextg w)%nat ->
  ret_ok w g r ->
  tinv (ret g r w).
Proof.
  intros [] Hs Hr.
  split; simpl; unfold ret_ok, chan in *; simpl.
  - intros e He. apply elem_of_cons in He as [->|He]; auto.
  - intros g' s' r' t' Hg' He. apply lookup_delete_Some in Hg' as [Hne Hg'].
    apply elem_of_cons in He as [[= -> -> ->]|He]; [done|].
    by eapply t_live0.
  - intros g' r' t' He. apply elem_of_cons in He as [[= -> -> ->]|He]; auto.
    by eapply t_rets0.
  - intros g' r' Hg'. apply lookup_delete_Some in Hg' as [Hne Hg']. eauto.
  - done.
  - done.
  - intros g' m He. apply elem_of_cons in He as [?|He]; [done|].
    by eapply t_nocrash0.
Qed.

(** A call that neither pushes on an open queue nor pops. *)
Lemma tinv_called w c :
  tinv w -> is_pop c = false ->
  closed (chan w) = true \/ c = CallClose ->
  tinv (called c w).
Proof.
  intros [] Hpop Hc. destruct c as [v| | |]; try done.
  all: split; simpl; unfold ret_ok, chan in *; simpl.
  all: try done.
  all: try (intros g s r t Hg He; apply elem_of_cons in He as [?|He]; [done|];
            by eapply t_live0).
  all: try (intros g r t He; apply elem_of_cons in He as [?|He]; [done|];
            by eapply t_rets0).
  all: try (intros g m He; apply elem_of_cons in He as [?|He]; [done|];
            by eapply t_nocrash0).
  all: try (intros e He; apply elem_of_cons in He as [->|He]; simpl; [lia|];
            apply t_lt0 in He; lia).
  intros Hcl. destruct Hc; congruence.
Qed.

Lemma ret_ok_success w g c v :
  is_pop c = true -> took (trace w) g = Some v -> ret_ok w g (pop_ret c v true).
Proof. intros Hc Ht. destruct c; try done; simpl; auto. Qed.

Lemma tinv_pass_gate w g r s :
  inv w -> tinv w -> pool w !! g = Some s ->
  (exists c v, is_pop c = true /\ took (trace w) g = Some v /\ r = pop_ret c v true) ->
  tinv (pass_gate g r w).
Proof.
  intros Hi Ht Hg (c & v & Hpop & Htk & ->).
  apply tinv_ret.
  - by apply (tinv_quiet w).
  - by eapply (inv_fresh w Hi).
  - by apply ret_ok_success.
Qed.

Lemma elem_of_cons_inv {A : Type} (x y : A) (l : list A) :
  x ∈ y :: l -> x = y \/ x ∈ l.
Proof. apply elem_of_cons. Qed.

Ltac in_trace H :=
  repeat (apply elem_of_cons_inv in H as [H|H]; [try done|]).

Lemma tinv_push_direct w v r rq :
  inv w -> tinv w -> closed (chan w) = false -> recvq (chan w) = r :: rq ->
  tinv (emit (EvDequeue r v)
          (release_recv v true r
             (with_chan (mkChan (dataqsiz (chan w)) (buf (chan w)) false rq
                                (sendq (chan w)))
                (called (CallPush v) w)))).
Proof.
  intros Hi Ht Hc Hr.
  assert (Hin : r ∈ recvq (chan w)) by (rewrite Hr; left).
  destruct (inv_recvq w Hi r Hin) as (c & Hpop & Hpr).
  pose proof (inv_recvq_nodup w Hi) as Hnd. rewrite Hr in Hnd.
  apply NoDup_cons in Hnd as [Hnr Hnd].
  destruct (inv_recv_wait w Hi) as [Hb Hs]; [by rewrite Hr|].
  pose proof (inv_fresh w Hi r _ Hpr) as Hlt.
  unfold release_recv. simpl. rewrite Hpr.
  destruct Ht. split; simpl; unfold ret_ok, chan, pushed, deqs, pop_calls in *; simpl.
  - intros e He. in_trace He; subst; simpl; try lia.
    apply t_lt0 in He. lia.
  - intros g s r' t Hg He. in_trace He.
    apply lookup_insert_Some in Hg as [[<- <-]|[Hne Hg]]; by eapply t_live0.
  - intros g r' t He. in_trace He.
    rewrite decide_False; [|intros <-; by eapply t_live0].
    pose proof (t_rets0 _ _ _ He) as Hro. by rewrite Hc in Hro.
  - intros g r' Hg. apply lookup_insert_Some in Hg as [[<- Hg]|[Hne Hg]].
    + rewrite pop_k_true in Hg by done. done.
    + destruct (t_fail0 _ _ Hg) as [?|?]; [by left|congruence].
  - intros _. rewrite t_fifo0 by done. rewrite Hb, Hs, fmap_app. simpl.
    by rewrite !app_nil_r.
  - destruct t_calls0 as (rest & Hpc & Hrb & Hrt & Hro).
    specialize (Hro Hc). subst rest. exists rq. repeat split.
    + rewrite Hpc, Hr, fmap_app. simpl. by rewrite <- app_assoc.
    + done.
    + intros g Hg. rewrite decide_False; [|by intros <-].
      apply Hrt. rewrite Hr. by right.
  - intros g m He. in_trace He. by eapply t_nocrash0.
Qed.

Lemma tinv_push_buffered w v :
  inv w -> tinv w -> closed (chan w) = false -> recvq (chan w) = [] ->
  Z.of_nat (length (buf (chan w))) < dataqsiz (chan w) ->
  tinv (with_chan (mkChan (dataqsiz (chan w)) (buf (chan w) ++ [v]) false []
                          (sendq (chan w)))
          (called (CallPush v) w)).
Proof.
  intros Hi Ht Hc Hr Hlt.
  assert (Hs : sendq (chan w) = []).
  { destruct (sendq (chan w)) eqn:E; [done|].
    pose proof (inv_send_wait w Hi) as Hw. rewrite E in Hw.
    specialize (Hw ltac:(done)). lia. }
  destruct Ht. split; simpl; unfold ret_ok, chan, pushed, deqs, pop_calls in *; simpl.
  - intros e He. in_trace He; subst; simpl; try lia.
    apply t_lt0 in He. lia.
  - intros g s r' t Hg He. in_trace He. by eapply t_live0.
  - intros g r' t He. in_trace He.
    pose proof (t_rets0 _ _ _ He) as Hro. by rewrite Hc in Hro.
  - intros g r' Hg. destruct (t_fail0 _ _ Hg) as [?|?]; [by left|congruence].
  - intros _. rewrite t_fifo0 by done. rewrite Hs. simpl.
    by rewrite !app_nil_r, app_assoc.
  - destruct t_calls0 as (rest & Hpc & Hrb & Hrt & Hro).
    specialize (Hro Hc). rewrite Hr in Hro. subst rest. exists []. done.
  - intros g m He. in_trace He. by eapply t_nocrash0.
Qed.

Lemma tinv_push_park w v :
  inv w -> tinv w -> closed (chan w) = false -> recvq (chan w) = [] ->
  tinv (park (nextg w) (WaitSend push_k)
          (with_chan (mkChan (dataqsiz (chan w)) (buf (chan w)) false []
                             (sendq (chan w) ++ [(nextg w, v)]))
             (called (CallPush v) w))).
Proof.
  intros Hi Ht Hc Hr.
  destruct Ht. split; simpl; unfold ret_ok, chan, pushed, deqs, pop_calls in *; simpl.
  - intros e He. in_trace He; subst; simpl; try lia.
    apply t_lt0 in He. lia.
  - intros g s r' t Hg He. in_trace He.
    apply lookup_insert_Some in Hg as [[<- <-]|[Hne Hg]]; [|by eapply t_live0].
    apply t_lt0 in He. simpl in He. lia.
  - intros g r' t He. in_trace He.
    pose proof (t_rets0 _ _ _ He) as Hro. by rewrite Hc in Hro.
  - intros g r' Hg. apply lookup_insert_Some in Hg as [[<- Hg]|[Hne Hg]]; [done|].
    destruct (t_fail0 _ _ Hg) as [?|?]; [by left|congruence].
  - intros _. rewrite t_fifo0 by done. rewrite fmap_app. simpl.
    by rewrite !app_assoc.
  - destruct t_calls0 as (rest & Hpc & Hrb & Hrt & Hro).
    specialize (Hro Hc). rewrite Hr in Hro. subst rest. exists []. done.
  - intros g m He. in_trace He. by eapply t_nocrash0.
Qed.

Lemma tinv_pop_closed w c :
  inv w -> tinv w -> is_pop c = true ->
  closed (chan w) = true -> buf (chan w) = [] ->
  tinv (called c w).
Proof.
  intros Hi Ht Hpop Hc Hb.
  destruct Ht. split; simpl; unfold ret_ok, chan, pushed, deqs, pop_calls in *; simpl.
  - intros e He. in_trace He; subst; simpl; try lia.
    apply t_lt0 in He. lia.
  - intros g s r' t Hg He. in_trace He. by eapply t_live0.
  - intros g r' t He. in_trace He. by eapply t_rets0.
  - done.
  - congruence.
  - destruct t_calls0 as (rest & Hpc & Hrb & Hrt & Hro).
    exists (rest ++ [nextg w]). rewrite Hpop. repeat split.
    + destruct c; try done; simpl; by rewrite Hpc, app_assoc.
    + done.
    + intros g Hg. apply elem_of_app in Hg as [Hg|Hg]; [by apply Hrt|].
      apply list_elem_of_singleton in Hg. subst.
      destruct c; try done; simpl; apply (inv_fresh_took w Hi); lia.
    + congruence.
  - intros g m He. in_trace He. by eapply t_nocrash0.
Qed.

Lemma tinv_pop_park w c :
  inv w -> tinv w -> is_pop c = true ->
  closed (chan w) = false -> buf (chan w) = [] -> sendq (chan w) = [] ->
  tinv (park (nextg w) (WaitRecv (pop_k c))
          (with_chan (mkChan (dataqsiz (chan w)) [] false
                             (recvq (chan w) ++ [nextg w]) [])
             (called c w))).
Proof.
  intros Hi Ht Hpop Hc Hb Hs.
  destruct Ht. split; simpl; unfold ret_ok, chan, pushed, deqs, pop_calls in *; simpl.
  - intros e He. in_trace He; subst; simpl; try lia.
    apply t_lt0 in He. lia.
  - intros g s r' t Hg He. in_trace He.
    apply lookup_insert_Some in Hg as [[<- <-]|[Hne Hg]]; [|by eapply t_live0].
    apply t_lt0 in He. simpl in He. lia.
  - intros g r' t He. in_trace He.
    pose proof (t_rets0 _ _ _ He) as Hro. by rewrite Hc in Hro.
  - intros g r' Hg. apply lookup_insert_Some in Hg as [[<- Hg]|[Hne Hg]]; [done|].
    destruct (t_fail0 _ _ Hg) as [?|?]; [by left|congruence].
  - intros _. destruct c; try done; simpl; rewrite t_fifo0 by done;
      by rewrite Hb, Hs.
  - destruct t_calls0 as (rest & Hpc & Hrb & Hrt & Hro).
    specialize (Hro Hc). subst rest.
    exists (recvq (values (lim w)) ++ [nextg w]). rewrite Hpop. repeat split.
    + destruct c; try done; simpl; by rewrite Hpc, app_assoc.
    + intros g Hg. apply elem_of_app in Hg as [Hg|Hg]; [by apply Hrt|].
      apply list_elem_of_singleton in Hg. subst.
      destruct c; try done; simpl; apply (inv_fresh_took w Hi); lia.
  - intros g m He. in_trace He. by eapply t_nocrash0.
Qed.

Lemma tinv_pop_direct w c s sv sq :
  inv w -> tinv w -> is_pop c = true ->
  closed (chan w) = false -> sendq (chan w) = (s, sv) :: sq ->
  tinv (park (nextg w) (Runnable (gate (pop_ret c (hd sv (buf (chan w))) true)))
          (emit (EvDequeue (nextg w) (hd sv (buf (chan w))))
             (release_send true s
                (with_chan (mkChan (dataqsiz (chan w))
                                   (match buf (chan w) with
                                    | [] => []
                                    | _ :: b => b ++ [sv]
                                    end)
                                   false (recvq (chan w)) sq)
                   (called c w))))).
Proof.
  intros Hi Ht Hpop Hc Hs.
  assert (Hin : (s, sv) ∈ sendq (chan w)) by (rewrite Hs; left).
  pose proof (inv_sendq w Hi s sv Hin) as Hps.
  assert (Hr : recvq (chan w) = []).
  { destruct (recvq (chan w)) eqn:E; [done|].
    destruct (inv_recv_wait w Hi) as [_ Hs']; [by rewrite E|]. congruence. }
  unfold release_send. simpl. rewrite Hps.
  destruct Ht. split; simpl; unfold ret_ok, chan, pushed, deqs, pop_calls in *; simpl.
  - intros e He. in_trace He; subst; simpl; try lia.
    apply t_lt0 in He. lia.
  - intros g s' r' t Hg He. in_trace He.
    apply lookup_insert_Some in Hg as [[<- <-]|[Hne Hg]].
    { apply t_lt0 in He. simpl in He. lia. }
    apply lookup_insert_Some in Hg as [[<- <-]|[Hne' Hg]]; by eapply t_live0.
  - intros g r' t He. in_trace He.
    rewrite decide_False; [|intros <-; apply t_lt0 in He; simpl in He; lia].
    pose proof (t_rets0 _ _ _ He) as Hro. by rewrite Hc in Hro.
  - intros g r' Hg. apply lookup_insert_Some in Hg as [[<- Hg]|[Hne Hg]]; [done|].
    apply lookup_insert_Some in Hg as [[<- Hg]|[Hne' Hg]].
    { left. exists ErrNil. by injection Hg as <-. }
    destruct (t_fail0 _ _ Hg) as [?|?]; [by left|congruence].
  - intros _. destruct c; try done; simpl; rewrite t_fifo0 by done;
      rewrite Hs, fmap_app; simpl; destruct (buf (values (lim w))); simpl;
      rewrite <- ?app_assoc; reflexivity.
  - destruct t_calls0 as (rest & Hpc & Hrb & Hrt & Hro).
    specialize (Hro Hc). rewrite Hr in Hro. subst rest.
    exists []. rewrite Hpop, Hr. repeat split; try done.
    + destruct c; try done; simpl; rewrite Hpc, fmap_app; simpl;
        by rewrite !app_nil_r.
    + intros g Hg. by apply elem_of_nil in Hg.
  - intros g m He. in_trace He. by eapply t_nocrash0.
Qed.

Lemma tinv_pop_buffered w c v b :
  inv w -> tinv w -> is_pop c = true -> buf (chan w) = v :: b ->
  (if closed (chan w) then [] else sendq (chan w)) = [] ->
  tinv (park (nextg w) (Runnable (gate (pop_ret c v true)))
          (emit (EvDequeue (nextg w) v)
             (with_chan (mkChan (dataqsiz (chan w)) b (closed (chan w))
                                (recvq (chan w)) (sendq (chan w)))
                (called c w)))).
Proof.
  intros Hi Ht Hpop Hb Hq.
  assert (Hs : sendq (chan w) = []).
  { destruct (closed (chan w)) eqn:E; [|done]. by apply (inv_closed w Hi). }
  assert (Hr : recvq (chan w) = []).
  { destruct (recvq (chan w)) eqn:E; [done|].
    destruct (inv_recv_wait w Hi) as [Hb' _]; [by rewrite E|]. congruence. }
  destruct Ht. split; simpl; unfold ret_ok, chan, pushed, deqs, pop_calls in *; simpl.
  - intros e He. in_trace He; subst; simpl; try lia.
    apply t_lt0 in He. lia.
  - intros g s' r' t Hg He. in_trace He.
    apply lookup_insert_Some in Hg as [[<- <-]|[Hne Hg]]; [|by eapply t_live0].
    apply t_lt0 in He. simpl in He. lia.
  - intros g r' t He. in_trace He.
    rewrite decide_False; [|intros <-; apply t_lt0 in He; simpl in He; lia].
    by eapply t_rets0.
  - intros g r' Hg. apply lookup_insert_Some in Hg as [[<- Hg]|[Hne Hg]]; [done|].
    eauto.
  - intros Hcl. destruct c; try done; simpl; rewrite t_fifo0 by done;
      rewrite Hb, Hs, fmap_app; simpl; by rewrite <- ?app_assoc.
  - destruct t_calls0 as (rest & Hpc & Hrb & Hrt & Hro).
    assert (rest = []) as ->.
    { destruct rest; [done|]. rewrite Hrb in Hb; done. }
    exists []. rewrite Hpop, Hr. repeat split; try done.
    + destruct c; try done; simpl; rewrite Hpc, fmap_app; simpl;
        by rewrite !app_nil_r.
    + intros g Hg. by apply elem_of_nil in Hg.
  - intros g m He. in_trace He. by eapply t_nocrash0.
Qed.

Lemma tinv_close w :
  inv w -> tinv w -> closed (chan w) = false -> tinv (close_world w).
Proof.
  intros Hi Ht Hc.
  destruct (close_world_rest w) as (Hn & Hl & Hg & Htr).
  pose proof (close_world_lookup w) as Hp.
  destruct Ht.
  split; unfold ret_ok, chan in *; rewrite ?Hn, ?Hl, ?Hg, ?Htr;
    cbn [values recvq sendq buf closed dataqsiz lock nextTime d].
  - done.
  - intros g s r t. rewrite (Hp g Hi).
    destruct (decide (g ∈ map fst (sendq (values (lim w))))) as [Es|Es].
    { intros _. apply (list_elem_of_fmap (A:=gid * iface)) in Es as ([g' v] & -> & Hin).
      eapply t_live0. by eapply (inv_sendq w Hi). }
    destruct (decide (g ∈ recvq (values (lim w)))) as [Er|Er].
    { intros _. destruct (inv_recvq w Hi g Er) as (c & Hpop & Hpg).
      by eapply t_live0. }
    by apply t_live0.
  - intros g r t He. pose proof (t_rets0 _ _ _ He) as Hro.
    destruct r; try done.
    + destruct Hro as [?|(? & ? & ?)]; [by left|]. by right.
    + destruct Hro as [?|(? & ? & ? & ?)]; [by left|]. by right.
  - intros g r _. by right.
  - done.
  - destruct t_calls0 as (rest & Hpc & Hrb & Hrt & Hro).
    exists rest. repeat split; try done.
  - done.
Qed.

Lemma tinv_micro w lb w' : inv w -> tinv w -> micro w lb w' -> tinv w'.
Proof.
  intros Hi Ht Hm. destruct Hm as
    [dt|v Hc|v r rq Hc Hr|v Hc Hr Hlt|v Hc Hr Hle|c Hpop Hc Hb
    |c Hpop Hc Hb Hs|c s sv sq Hpop Hc Hs|c v b Hpop Hb Hs|Hc|Hc
    |g r Hg|g r h Hg Hl|g r Hg Hl Hsub|g r Hg Hl Hsub|g r wake Hg Hl Hwake].
  - by apply (tinv_quiet w).
  - (* push on a closed queue *)
    apply tinv_ret; [by apply tinv_called; auto| simpl; lia | done].
  - (* push handed to a receiver *)
    apply tinv_ret; [by apply tinv_push_direct| |done].
    simpl. destruct (release_recv_rest v true r
      (with_chan (mkChan (dataqsiz (chan w)) (buf (chan w)) false rq
                         (sendq (chan w))) (called (CallPush v) w)))
      as (_ & _ & -> & _). simpl. lia.
  - (* push stored in the buffer *)
    apply tinv_ret; [by apply tinv_push_buffered|simpl; lia|done].
  - (* push parked *)
    by apply tinv_push_park.
  - (* pop on a closed and drained queue *)
    apply tinv_ret; [by apply tinv_pop_closed|simpl; lia|].
    destruct c; try done; simpl; right; unfold chan; simpl; repeat split; auto;
      apply (inv_fresh_took w Hi); lia.
  - (* pop parked *)
    by apply tinv_pop_park.
  - (* pop served by a parked sender *)
    by apply tinv_pop_direct.
  - (* pop served from the buffer *)
    by apply tinv_pop_buffered.
  - (* close of a closed queue *)
    apply tinv_ret; [by apply tinv_called; auto|simpl; lia|done].
  - (* close *)
    pose proof (inv_called w CallClose Hi) as Hi0.
    pose proof (tinv_called w CallClose Ht eq_refl (or_intror eq_refl)) as Ht0.
    pose proof (tinv_close (called CallClose w) Hi0 Ht0 Hc) as Ht1.
    destruct (close_world_rest (called CallClose w)) as (Hn & Hlm & Hnx & Htr).
    change (tinv (ret (nextg w) (RetClose ErrNil) (close_world (called CallClose w)))).
    apply tinv_ret; [done| |done]. rewrite Hnx. simpl. lia.
  - (* return *)
    apply tinv_ret; auto.
    + by eapply (inv_fresh w Hi).
    + pose proof (inv_pool w Hi g _ Hg) as Hok.
      apply gs_ok_runnable in Hok as [[r' [= <-]]|(c & v & ? & ? & [=])].
      destruct (t_fail w Ht g r Hg) as [[err ->]|Hcl]; [done|].
      pose proof (inv_pool w Hi g _ Hg) as Hok. inversion Hok; subst; [done|].
      destruct c; try done; simpl; right; auto.
  - (* gate busy *)
    apply (tinv_quiet w); auto; simpl.
    + intros g' s' Hg'. apply lookup_insert_Some in Hg' as [[<- <-]|[? ?]]; eauto.
    + intros g' r' Hg'. apply lookup_insert_Some in Hg' as [[<- [=]]|[? ?]]; eauto.
  - (* gate sleep *)
    apply (tinv_quiet w); auto; simpl.
    + intros g' s' Hg'. apply lookup_insert_Some in Hg' as [[<- <-]|[? ?]]; eauto.
      destruct Hg; eauto.
    + intros g' r' Hg'. apply lookup_insert_Some in Hg' as [[<- [=]]|[? ?]]; eauto.
  - (* gate pass *)
    destruct Hg as [Hg|Hg].
    + eapply tinv_pass_gate; eauto. eapply gs_ok_gate. by apply (inv_pool w Hi).
    + eapply tinv_pass_gate; eauto. eapply gs_ok_lock. by apply (inv_pool w Hi).
  - (* wake *)
    eapply tinv_pass_gate; eauto.
    destruct (gs_ok_sleep w g wake r (inv_pool w Hi g _ Hg))
      as (c & v & ? & ? & ? & _). eauto.
Qed.

Lemma tinv_step w a : inv w -> tinv w -> tinv (step w a).
Proof.
  intros Hi Ht. apply (step_preserves tinv); auto.
  clear. intros w lb w' Hi Ht Hm. by eapply tinv_micro.
Qed.

Lemma tinv_run w acts : inv w -> tinv w -> tinv (run w acts).
Proof.
  intros Hi Ht. apply (run_preserves tinv); auto.
  clear. intros w lb w' Hi Ht Hm. by eapply tinv_micro.
Qed.

Lemma boot_ok t0 dd cap l :
  NewCapacity t0 dd cap = Some l -> inv (boot t0 l) /\ tinv (boot t0 l).
Proof.
  intros H. split; [by eapply inv_boot|].
  unfold NewCapacity, makechan in H. destruct (cap <? 0); [done|].
  injection H as <-. by apply tinv_boot.
Qed.

Lemma micro_trace w lb w' :
  inv w -> micro w lb w' ->
  exists evs, trace w' = evs ++ new_call w lb ++ trace w /\
              Forall (fun e => forall g c t, e <> EvCall g c t) evs.
Proof.
  intros Hi Hm. destruct Hm as
    [dt|v Hc|v r rq Hc Hr|v Hc Hr Hlt|v Hc Hr Hle|c Hpop Hc Hb
    |c Hpop Hc Hb Hs|c s sv sq Hpop Hc Hs|c v b Hpop Hb Hs|Hc|Hc
    |g r Hg|g r h Hg Hl|g r Hg Hl Hsub|g r Hg Hl Hsub|g r wake Hg Hl Hwake];
    simpl.
  - by exists [].
  - eexists [_]. split; [done|]. by repeat constructor.
  - destruct (release_recv_rest v true r
      (with_chan (mkChan (dataqsiz (chan w)) (buf (chan w)) false rq
                         (sendq (chan w))) (called (CallPush v) w)))
      as (_ & _ & _ & ->). simpl.
    eexists [_; _]. split; [done|]. by repeat constructor.
  - eexists [_]. split; [done|]. by repeat constructor.
  - by exists [].
  - eexists [_]. split; [done|]. by repeat constructor.
  - by exists [].
  - destruct (release_send_rest true s
      (with_chan (mkChan (dataqsiz (chan w))
                    (match buf (chan w) with [] => [] | _ :: b => b ++ [sv] end)
                    false (recvq (chan w)) sq) (called c w)))
      as (_ & _ & _ & ->). simpl.
    eexists [_]. split; [done|]. by repeat constructor.
  - eexists [_]. split; [done|]. by repeat constructor.
  - eexists [_]. split; [done|]. by repeat constructor.
  - destruct (close_world_rest (called CallClose w)) as (_ & _ & _ & Htr).
    match goal with
    | |- context [trace (foldr ?f ?x ?l)] =>
        change (foldr f x l) with (close_world (called CallClose w))
    end.
    rewrite Htr. eexists [_]. split; [done|]. by repeat constructor.
  - eexists [_]. split; [done|]. by repeat constructor.
  - by exists [].
  - by exists [].
  - eexists [_]. split; [done|]. by repeat constructor.
  - eexists [_]. split; [done|]. by repeat constructor.
Qed.

Lemma chron_app {A : Type} (pick : event -> option A) tr1 tr2 :
  chron pick (tr1 ++ tr2) = chron pick tr2 ++ chron pick tr1.
Proof.
  induction tr1 as [|e tr1 IH]; simpl; [by rewrite app_nil_r|].
  destruct (pick e); [|done]. by rewrite IH, app_assoc.
Qed.

Lemma chron_none {A : Type} (pick : event -> option A) tr :
  Forall (fun e => pick e = None) tr -> chron pick tr = [].
Proof. induction 1 as [|e tr He _ IH]; simpl; [done|]. by rewrite He. Qed.

Lemma elem_of_chron {A : Type} (pick : event -> option A) tr a :
  a ∈ chron pick tr <-> exists e, e ∈ tr /\ pick e = Some a.
Proof.
  induction tr as [|e tr IH]; simpl.
  - split; [by intros ?%elem_of_nil|]. by intros (e & ?%elem_of_nil & _).
  - destruct (pick e) as [a'|] eqn:E.
    + rewrite elem_of_app, IH, list_elem_of_singleton. split.
      * intros [(e' & ? & ?)| ->]; [exists e'|exists e]; split; auto;
          [by right|by left].
      * intros (e' & [->|?]%elem_of_cons & He'); [right; congruence|].
        left. eauto.
    + rewrite IH. split.
      * intros (e' & ? & ?). exists e'. split; auto. by right.
      * intros (e' & [->|?]%elem_of_cons & He'); [congruence|]. eauto.
Qed.

Lemma pop_calls_micro w lb w' :
  inv w -> micro w lb w' ->
  pop_calls (trace w') =
  pop_calls (trace w) ++
  match lb with
  | LCall c => if is_pop c then [nextg w] else []
  | _ => []
  end.
Proof.
  intros Hi Hm. destruct (micro_trace w lb w' Hi Hm) as (evs & -> & Hevs).
  unfold pop_calls. rewrite !chron_app. rewrite (chron_none _ evs).
  - rewrite app_nil_r. destruct lb; simpl; rewrite ?app_nil_r; try done.
    by destruct (is_pop c).
  - eapply Forall_impl; [exact Hevs|]. intros [] He; try done.
    by destruct (He g c t).
Qed.

Lemma pop_calls_lt w g :
  tinv w -> g ∈ pop_calls (trace w) -> (g < nextg w)%nat.
Proof.
  intros Ht Hg. apply elem_of_chron in Hg as (e & He & Hp).
  apply (t_lt w Ht) in He. destruct e; try done. simpl in *.
  destruct (is_pop c); [|done]. by injection Hp as <-.
Qed.

Lemma nodup_calls_micro w lb w' :
  inv w -> tinv w -> micro w lb w' ->
  NoDup (pop_calls (trace w)) -> NoDup (pop_calls (trace w')).
Proof.
  intros Hi Ht Hm Hnd. rewrite (pop_calls_micro w lb w' Hi Hm).
  destruct lb as [|c|g]; rewrite ?app_nil_r; auto.
  destruct (is_pop c); rewrite ?app_nil_r; auto.
  apply NoDup_app. split; [done|]. split; [|apply NoDup_singleton].
  intros g Hg Hg'. apply list_elem_of_singleton in Hg'. subst.
  apply (pop_calls_lt w) in Hg; auto. lia.
Qed.

Lemma nodup_calls_run t0 dd cap l acts :
  NewCapacity t0 dd cap = Some l ->
  NoDup (pop_calls (trace (run (boot t0 l) acts))).
Proof.
  intros Hl. destruct (boot_ok t0 dd cap l Hl) as [Hi Ht].
  assert (H : tinv (run (boot t0 l) acts) /\
              NoDup (pop_calls (trace (run (boot t0 l) acts)))); [|by destruct H].
  apply (run_preserves (fun w => tinv w /\ NoDup (pop_calls (trace w)))); auto.
  - clear. intros w lb w' Hi [Ht Hnd] Hm. split; [by eapply tinv_micro|].
    by eapply nodup_calls_micro.
  - split; [done|]. constructor.
Qed.

(** The channel's part in each transition. *)
Lemma closed_micro w lb w' :
  micro w lb w' ->
  closed (chan w') = true <->
  closed (chan w) = true \/ lb = LCall CallClose.
Proof.
  intros Hm. destruct Hm as
    [dt|v Hc|v r rq Hc Hr|v Hc Hr Hlt|v Hc Hr Hle|c Hpop Hc Hb
    |c Hpop Hc Hb Hs|c s sv sq Hpop Hc Hs|c v b Hpop Hb Hs|Hc|Hc
    |g r Hg|g r h Hg Hl|g r Hg Hl Hsub|g r Hg Hl Hsub|g r wake Hg Hl Hwake].
  11:{ split; [by right|]. intros _.
       change (closed (chan (close_world (called CallClose w))) = true).
       unfold chan. by destruct (close_world_rest (called CallClose w)) as (_ & -> & _). }
  all: unfold chan in *; simpl; rewrite ?lim_release_recv, ?lim_release_send; simpl.
  all: try (split; [by left|]; intros [?|?]; [done|congruence]).
  all: try (rewrite Hc; split; [done|]; intros [?|?]; [done|]; subst; done).
  all: try (split; [done|]; intros [?|?]; [congruence|]; subst; done).
  all: try (split; [|done]; intros; by left).
  all: try (split; [|done]; intros; by right).
  all: try (split; [intros; by left|]; by intros [?|?]).
  all: try (split; [done|]; intros [?|[= ->]]; [congruence|done]).
  split; [by left|]. by intros [?|[= ->]].
Qed.

Lemma closed_step w a :
  inv w ->
  closed (chan (step w a)) = true <-> closed (chan w) = true \/ a = Go CallClose.
Proof.
  intros Hi. destruct a as [c|g|dt].
  - destruct (step_micro_go w c) as [Hm|(w1 & Hm1 & Hm2)].
    + rewrite (closed_micro _ _ _ Hm). split; intros [?|E]; auto; right; congruence.
    + rewrite (closed_micro _ _ _ Hm2), (closed_micro _ _ _ Hm1).
      split; [intros [[?|E]|?]|intros [?|E]]; auto; try done; try (right; congruence).
      left. right. congruence.
  - destruct (step_micro_sched w g Hi) as [->|Hm].
    + split; auto. by intros [?|?].
    + rewrite (closed_micro _ _ _ Hm). split; intros [?|?]; auto; done.
  - simpl. split; auto. by intros [?|?].
Qed.

Lemma closed_run w acts :
  inv w -> closed (chan w) = false ->
  Forall (fun a => a <> Go CallClose) acts ->
  closed (chan (run w acts)) = false.
Proof.
  revert w. induction acts as [|a acts IH]; intros w Hi Hc Hacts; [done|].
  apply Forall_cons in Hacts as [Ha Hacts]. simpl.
  apply IH; auto; [by apply inv_step|].
  destruct (closed (chan (step w a))) eqn:E; [|done].
  apply closed_step in E as [?|?]; auto; congruence.
Qed.

Lemma took_deqs tr g v :
  took tr g = Some v -> exists j, deqs tr !! j = Some (g, v).
Proof.
  unfold deqs. induction tr as [|e tr IH]; simpl; [done|].
  destruct e as [| g' v' | |]; auto.
  case_decide as E.
  - intros [= <-]. subst. eexists. apply list_lookup_middle. done.
  - intros Ht. destruct (IH Ht) as [j Hj]. exists j.
    by apply lookup_app_l_Some.
Qed.

Lemma deqs_took tr g v : (g, v) ∈ deqs tr -> is_Some (took tr g).
Proof.
  unfold deqs. induction tr as [|e tr IH]; simpl; [by intros ?%elem_of_nil|].
  destruct e as [| g' v' | |]; auto.
  intros [Hin|Hin%list_elem_of_singleton]%elem_of_app.
  - case_decide; [by eexists|]. auto.
  - injection Hin as <- <-. rewrite decide_True; [by eexists|done].
Qed.

(** What a call of [Pop] or [PopOk] returned, by its position among the
    calls: the value received in that position, or nothing when the queue
    was closed and nothing was left in it. *)
Lemma pop_outcome w i g r t :
  inv w -> tinv w -> NoDup (pop_calls (trace w)) ->
  pop_calls (trace w) !! i = Some g ->
  EvReturn g r t ∈ trace w ->
  match r with
  | RetPop v =>
      (deqs (trace w)).*2 !! i = Some v \/
      (v = Nil /\ closed (chan w) = true /\ buf (chan w) = [] /\
       (length (deqs (trace w)) <= i)%nat)
  | RetPopOk v ok =>
      (ok = true /\ (deqs (trace w)).*2 !! i = Some v) \/
      (ok = false /\ v = Nil /\ closed (chan w) = true /\ buf (chan w) = [] /\
       (length (deqs (trace w)) <= i)%nat)
  | _ => True
  end.
Proof.
  intros Hi Ht Hnd Hg Hr.
  pose proof (t_rets w Ht g r t Hr) as Hok.
  destruct (t_calls w Ht) as (rest & Hpc & Hrb & Hrt & _).
  assert (Hsome : forall v, took (trace w) g = Some v ->
                            (deqs (trace w)).*2 !! i = Some v).
  { intros v Hv. destruct (took_deqs _ _ _ Hv) as [j Hj].
    assert (Hj1 : pop_calls (trace w) !! j = Some g).
    { rewrite Hpc. apply lookup_app_l_Some. by rewrite list_lookup_fmap, Hj. }
    assert (i = j) as -> by (eapply NoDup_lookup; eauto).
    by rewrite list_lookup_fmap, Hj. }
  assert (Hnone : took (trace w) g = None ->
                  buf (chan w) = [] /\ (length (deqs (trace w)) <= i)%nat).
  { intros Hn. rewrite Hpc in Hg. apply lookup_app_Some in Hg as [Hg|[Hlen Hg]].
    - rewrite list_lookup_fmap in Hg.
      destruct (deqs (trace w) !! i) as [[g' v']|] eqn:E; [|done].
      injection Hg as ->. apply list_elem_of_lookup_2 in E.
      apply deqs_took in E as [? ?]. congruence.
    - rewrite length_fmap in Hlen. split; [|done]. apply Hrb.
      intros ->. by rewrite lookup_nil in Hg. }
  destruct r as [|v|v ok|]; try done; simpl in Hok.
  - destruct Hok as [Hv|(Hn & -> & Hc)]; [left; auto|].
    right. destruct (Hnone Hn). auto.
  - destruct Hok as [[Hv ->]|(Hn & -> & -> & Hc)]; [left; auto|].
    right. destruct (Hnone Hn). auto.
Qed.

Lemma deqs_micro_quiet w w' evs :
  trace w' = evs ++ trace w ->
  Forall (fun e => forall g v, e <> EvDequeue g v) evs ->
  deqs (trace w') = deqs (trace w).
Proof.
  intros -> Hevs. unfold deqs. rewrite chron_app, (chron_none _ evs).
  - by rewrite app_nil_r.
  - eapply Forall_impl; [exact Hevs|]. intros [] He; try done.
    by destruct (He g v).
Qed.

Lemma accepted_closed_micro w lb w' :
  inv w -> closed (chan w) = true -> micro w lb w' ->
  accepted w' = accepted w.
Proof.
  intros Hi Hcl Hm. unfold accepted. destruct Hm as
    [dt|v Hc|v r rq Hc Hr|v Hc Hr Hlt|v Hc Hr Hle|c Hpop Hc Hb
    |c Hpop Hc Hb Hs|c s sv sq Hpop Hc Hs|c v b Hpop Hb Hs|Hc|Hc
    |g r Hg|g r h Hg Hl|g r Hg Hl Hsub|g r Hg Hl Hsub|g r wake Hg Hl Hwake];
    try congruence; unfold deqs, chan in *; simpl; try done.
  rewrite Hb, fmap_app. simpl. by rewrite <- app_assoc.
Qed.

Lemma accepted_closed_run w acts :
  inv w -> closed (chan w) = true ->
  closed (chan (run w acts)) = true /\ accepted (run w acts) = accepted w.
Proof.
  intros Hi Hc.
  apply (run_preserves
           (fun w' => closed (chan w') = true /\ accepted w' = accepted w)); auto.
  clear. intros w0 lb w' Hi [Hc Ha] Hm. split.
  - apply (closed_micro _ _ _ Hm). by left.
  - rewrite <- Ha. by eapply accepted_closed_micro.
Qed.

Lemma accepted_close w :
  inv w -> tinv w -> closed (chan w) = false -> sendq (chan w) = [] ->
  closed (chan (step w (Go CallClose))) = true /\
  accepted (step w (Go CallClose)) = pushed (trace w).
Proof.
  intros Hi Ht Hc Hs. split.
  { apply closed_step; auto. }
  rewrite step_go_close. cbv zeta. unfold closechan. rewrite Hc.
  change (accepted (ret (nextg w) (RetClose ErrNil) (close_world (called CallClose w)))
          = pushed (trace w)).
  unfold accepted, chan. simpl.
  destruct (close_world_rest (called CallClose w)) as (_ & -> & _ & ->).
  simpl. rewrite (t_fifo w Ht Hc), Hs. unfold deqs, chan. simpl.
  by rewrite app_nil_r.
Qed.

Lemma lookup_accepted w i v :
  (deqs (trace w)).*2 !! i = Some v -> accepted w !! i = Some v.
Proof. intros H. unfold accepted. by apply lookup_app_l_Some. Qed.

(** Without a call of [Close], whoever made the [i]-th call of [Pop] or
    [PopOk] and has returned, has returned the [i]-th value pushed. *)
Lemma fifo_safety t0 dd cap l acts :
  NewCapacity t0 dd cap = Some l ->
  Forall (fun a => a <> Go CallClose) acts ->
  forall i g,
    pop_calls (trace (run (boot t0 l) acts)) !! i = Some g ->
    (forall v t,
        EvReturn g (RetPop v) t ∈ trace (run (boot t0 l) acts) ->
        pushed (trace (run (boot t0 l) acts)) !! i = Some v) /\
    (forall v ok t,
        EvReturn g (RetPopOk v ok) t ∈ trace (run (boot t0 l) acts) ->
        ok = true /\ pushed (trace (run (boot t0 l) acts)) !! i = Some v).
Proof.
  intros Hl Hacts i g Hg.
  destruct (boot_ok t0 dd cap l Hl) as [Hi0 Ht0].
  pose proof (inv_run _ acts Hi0) as Hi.
  pose proof (tinv_run _ acts Hi0 Ht0) as Ht.
  pose proof (nodup_calls_run t0 dd cap l acts Hl) as Hnd.
  assert (Hc : closed (chan (run (boot t0 l) acts)) = false).
  { apply closed_run; auto. unfold NewCapacity, makechan in Hl.
    destruct (cap <? 0); [done|]. by injection Hl as <-. }
  pose proof (t_fifo _ Ht Hc) as Hf.
  split.
  - intros v t Hr.
    pose proof (pop_outcome _ i g _ t Hi Ht Hnd Hg Hr) as Ho. simpl in Ho.
    destruct Ho as [Hv|(_ & ? & _)]; [|congruence].
    rewrite Hf. by apply lookup_app_l_Some.
  - intros v ok t Hr.
    pose proof (pop_outcome _ i g _ t Hi Ht Hnd Hg Hr) as Ho. simpl in Ho.
    destruct Ho as [[-> Hv]|(_ & _ & ? & _)]; [|congruence].
    split; [done|]. rewrite Hf. by apply lookup_app_l_Some.
Qed.

Lemma step_pop_drained w c :
  is_pop c = true -> closed (chan w) = true -> buf (chan w) = [] ->
  step w (Go c) = ret (nextg w) (pop_ret c Nil false) (called c w).
Proof.
  intros Hpop Hc Hb. rewrite step_go_pop by done. cbv zeta.
  unfold chanrecv. by rewrite Hc, Hb.
Qed.

(** After the values [vs] were pushed and the queue was closed, a call of
    [Pop] or [PopOk] that has returned, has returned the value of its
    position, or [nil] past the last one; a call on the drained queue
    returns at once; nothing panics. *)
Lemma drain_safety t0 dd cap l acts1 acts2 :
  NewCapacity t0 dd cap = Some l ->
  closed (chan (run (boot t0 l) acts1)) = false ->
  sendq (chan (run (boot t0 l) acts1)) = [] ->
  let vs := pushed (trace (run (boot t0 l) acts1)) in
  let w := run (boot t0 l) (acts1 ++ Go CallClose :: acts2) in
  (forall i g,
      pop_calls (trace w) !! i = Some g ->
      (forall v ok t,
          EvReturn g (RetPopOk v ok) t ∈ trace w ->
          match vs !! i with
          | Some vi => v = vi /\ ok = true
          | None => v = Nil /\ ok = false
          end) /\
      (forall v t,
          EvReturn g (RetPop v) t ∈ trace w ->
          v = default Nil (vs !! i))) /\
  (buf (chan w) = [] ->
   trace (step w (Go CallPopOk)) =
     EvReturn (nextg w) (RetPopOk Nil false) (now w)
       :: EvCall (nextg w) CallPopOk (now w) :: trace w /\
   trace (step w (Go CallPop)) =
     EvReturn (nextg w) (RetPop Nil) (now w)
       :: EvCall (nextg w) CallPop (now w) :: trace w) /\
  (forall g m, EvCrash g m ∉ trace w).
Proof.
  intros Hl Hc1 Hs1 vs w.
  destruct (boot_ok t0 dd cap l Hl) as [Hi0 Ht0].
  pose proof (inv_run _ acts1 Hi0) as Hi1.
  pose proof (tinv_run _ acts1 Hi0 Ht0) as Ht1.
  pose proof (inv_run _ (acts1 ++ Go CallClose :: acts2) Hi0) as Hi.
  pose proof (tinv_run _ (acts1 ++ Go CallClose :: acts2) Hi0 Ht0) as Ht.
  pose proof (nodup_calls_run t0 dd cap l (acts1 ++ Go CallClose :: acts2) Hl) as Hnd.
  fold w in Hi, Ht, Hnd.
  destruct (accepted_close _ Hi1 Ht1 Hc1 Hs1) as [Hc2 Ha2].
  assert (Hw : w = run (step (run (boot t0 l) acts1) (Go CallClose)) acts2).
  { unfold w. by rewrite run_app. }
  destruct (accepted_closed_run (step (run (boot t0 l) acts1) (Go CallClose)) acts2)
    as [Hc Ha]; [by apply inv_step|done|].
  rewrite <- Hw in Hc, Ha. rewrite Ha2 in Ha. fold vs in Ha.
  split; [|split].
  - intros i g Hg. split.
    + intros v ok t Hr.
      pose proof (pop_outcome _ i g _ t Hi Ht Hnd Hg Hr) as Ho. simpl in Ho.
      destruct Ho as [[-> Hv]|(-> & -> & _ & Hb & Hlen)].
      * apply lookup_accepted in Hv. rewrite Ha in Hv. by rewrite Hv.
      * rewrite <- Ha. unfold accepted. rewrite Hb, app_nil_r.
        rewrite lookup_ge_None_2; [done|]. by rewrite length_fmap.
    + intros v t Hr.
      pose proof (pop_outcome _ i g _ t Hi Ht Hnd Hg Hr) as Ho. simpl in Ho.
      destruct Ho as [Hv|(-> & _ & Hb & Hlen)].
      * apply lookup_accepted in Hv. rewrite Ha in Hv. by rewrite Hv.
      * rewrite <- Ha. unfold accepted. rewrite Hb, app_nil_r.
        rewrite lookup_ge_None_2; [done|]. by rewrite length_fmap.
  - intros Hb. by rewrite !step_pop_drained.
  - apply (t_nocrash _ Ht).
Qed.

Lemma is_pop_ret_pop_ret c v ok : is_pop c = true -> is_pop_ret (pop_ret c v ok) = true.
Proof. by destruct c. Qed.

(** A transition that leaves the watermark alone and releases nothing. *)
Lemma pinv_quiet w w' :
  pinv w -> d (lim w') = d (lim w) -> nextTime (lim w') = nextTime (lim w) ->
  releases (trace w') = releases (trace w) -> pinv w'.
Proof. intros [] Hd Hn Hr. split; rewrite ?Hd, ?Hn, ?Hr; auto. Qed.

Lemma releases_ret_other tr g r t :
  is_pop_ret r = false \/ took tr g = None ->
  releases (EvReturn g r t :: tr) = releases tr.
Proof.
  intros [H|H]; simpl; rewrite H; [done|]. rewrite bool_decide_eq_false_2.
  - by rewrite andb_false_r.
  - by intros [? ?].
Qed.

Lemma releases_ret_pop tr g c v t :
  is_pop c = true -> took tr g = Some v ->
  releases (EvReturn g (pop_ret c v true) t :: tr) = t :: releases tr.
Proof.
  intros Hc Ht. simpl. rewrite is_pop_ret_pop_ret by done.
  rewrite bool_decide_eq_true_2; [done|]. by eexists.
Qed.

Lemma pinv_pass_gate w g c v :
  pinv w -> is_pop c = true -> took (trace w) g = Some v ->
  nextTime (lim w) <= now w ->
  pinv (pass_gate g (pop_ret c v true) w).
Proof.
  intros [] Hc Ht Hn.
  split; unfold pass_gate, ret, emit, with_pool, with_lock, with_nextTime;
    cbn [trace lim d nextTime now].
  - done.
  - rewrite releases_ret_pop by done. simpl. split; [|done].
    destruct (releases (trace w)) as [|t1 ts] eqn:E; [done|].
    specialize (p_mark0 t1 eq_refl). unfold time.Add in *. lia.
  - rewrite releases_ret_pop by done. simpl. by intros t [= <-].
Qed.

Lemma pinv_micro w lb w' : inv w -> pinv w -> micro w lb w' -> pinv w'.
Proof.
  intros Hi Hp Hm. destruct Hm as
    [dt|v Hc|v r rq Hc Hr|v Hc Hr Hlt|v Hc Hr Hle|c Hpop Hc Hb
    |c Hpop Hc Hb Hs|c s sv sq Hpop Hc Hs|c v b Hpop Hb Hs|Hc|Hc
    |g r Hg|g r h Hg Hl|g r Hg Hl Hsub|g r Hg Hl Hsub|g r wake Hg Hl Hwake].
  - by apply (pinv_quiet w).
  - apply (pinv_quiet w); auto.
  - apply (pinv_quiet w); simpl; rewrite ?lim_release_recv; auto.
    destruct (release_recv_rest v true r
      (with_chan (mkChan (dataqsiz (chan w)) (buf (chan w)) false rq
                         (sendq (chan w))) (called (CallPush v) w)))
      as (_ & _ & _ & ->). done.
  - apply (pinv_quiet w); auto.
  - apply (pinv_quiet w); auto.
  - apply (pinv_quiet w); auto.
    unfold ret, emit, called; cbn [trace].
    rewrite releases_ret_other; [done|].
    right. simpl. apply (inv_fresh_took w Hi). lia.
  - apply (pinv_quiet w); auto.
  - apply (pinv_quiet w); simpl; rewrite ?lim_release_send; auto.
    destruct (release_send_rest true s
      (with_chan (mkChan (dataqsiz (chan w))
                    (match buf (chan w) with [] => [] | _ :: b => b ++ [sv] end)
                    false (recvq (chan w)) sq) (called c w)))
      as (_ & _ & _ & ->). done.
  - apply (pinv_quiet w); auto.
  - apply (pinv_quiet w); auto.
  - change (pinv (ret (nextg w) (RetClose ErrNil) (close_world (called CallClose w)))).
    destruct (close_world_rest (called CallClose w)) as (_ & Hl & _ & Ht).
    apply (pinv_quiet w); simpl; rewrite ?Hl, ?Ht; auto.
  - apply (pinv_quiet w); auto.
    unfold ret, emit; cbn [trace].
    pose proof (inv_pool w Hi g _ Hg) as Hok. inversion Hok; subst.
    + by apply releases_ret_other; left.
    + by apply releases_ret_other; right.
  - by apply (pinv_quiet w).
  - by apply (pinv_quiet w).
  - assert (exists c v, is_pop c = true /\ took (trace w) g = Some v /\
                        r = pop_ret c v true) as (c & v & ? & ? & ->).
    { destruct Hg as [Hg|Hg].
      - eapply gs_ok_gate. by apply (inv_pool w Hi).
      - eapply gs_ok_lock. by apply (inv_pool w Hi). }
    apply pinv_pass_gate; auto. by apply sub_nonpositive.
  - destruct (gs_ok_sleep w g wake r (inv_pool w Hi g _ Hg))
      as (c & v & ? & ? & -> & _ & Hw).
    apply pinv_pass_gate; auto. specialize (Hw (p_dur w Hp)). lia.
Qed.

Lemma pinv_boot t0 dd cap l :
  NewCapacity t0 dd cap = Some l -> time.is_Duration dd -> pinv (boot t0 l).
Proof.
  unfold NewCapacity. destruct (makechan cap); [|done]. intros [= <-] [_ Hd].
  split; simpl; done.
Qed.


Lemma d_micro w lb w' : micro w lb w' -> d (lim w') = d (lim w).
Proof.
  intros Hm. destruct Hm; simpl;
    rewrite ?lim_release_recv, ?lim_release_send; try done.
  change (d (lim (close_world (called CallClose w))) = d (lim w)).
  by destruct (close_world_rest (called CallClose w)) as (_ & -> & _).
Qed.


Lemma nextTime_micro w lb w' :
  inv w -> d (lim w) <= time.maxDuration -> 0 <= d (lim w) ->
  micro w lb w' -> nextTime (lim w) <= nextTime (lim w').
Proof.
  intros Hi Hd Hd0 Hm. destruct Hm as
    [dt|v Hc|v r rq Hc Hr|v Hc Hr Hlt|v Hc Hr Hle|c Hpop Hc Hb
    |c Hpop Hc Hb Hs|c s sv sq Hpop Hc Hs|c v b Hpop Hb Hs|Hc|Hc
    |g r Hg|g r h Hg Hl|g r Hg Hl Hsub|g r Hg Hl Hsub|g r wake Hg Hl Hwake].
  11:{ change (nextTime (lim w) <=
               nextTime (lim (close_world (called CallClose w)))).
       destruct (close_world_rest (called CallClose w)) as (_ & -> & _).
       simpl. lia. }
  all: simpl; rewrite ?lim_release_recv, ?lim_release_send; simpl; try lia.
  - apply sub_nonpositive in Hsub. unfold time.Add. lia.
  - destruct (gs_ok_sleep w g wake r (inv_pool w Hi g _ Hg))
      as (c & v & _ & _ & _ & _ & Hw).
    specialize (Hw Hd). unfold time.Add. lia.
Qed.

(** C8, for a queue whose interval is not negative: no step of any run
    makes [nextTime] earlier than it was. *)
Theorem watermark_monotone t0 dd cap l acts a :
  NewCapacity t0 dd cap = Some l -> time.is_Duration dd -> 0 <= dd ->
  nextTime (lim (run (boot t0 l) acts)) <=
  nextTime (lim (step (run (boot t0 l) acts) a)).
Proof.
  intros Hl [_ Hd] Hd0. destruct (boot_ok t0 dd cap l Hl) as [Hi0 _].
  assert (Hdd : d (lim (boot t0 l)) = dd).
  { unfold NewCapacity in Hl. destruct (makechan cap); [|done]. by injection Hl as <-. }
  assert (H : d (lim (run (boot t0 l) acts)) = dd).
  { apply (run_preserves (fun w => d (lim w) = dd)); auto.
    clear. intros w lb w' _ <- Hm. by eapply d_micro. }
  pose proof (inv_run _ acts Hi0) as Hi.
  set (w := run (boot t0 l) acts) in *.
  assert (Hs : d (lim (step w a)) = dd /\
               nextTime (lim w) <= nextTime (lim (step w a))); [|by destruct Hs].
  apply (step_preserves (fun w' => d (lim w') = dd /\
                                   nextTime (lim w) <= nextTime (lim w'))); auto.
  - clear -Hd Hd0. intros w0 lb w' Hi [Hdd Hn] Hm. split.
    + rewrite <- Hdd. by eapply d_micro.
    + etrans; [exact Hn|]. eapply nextTime_micro; eauto; lia.
  - split; [done|lia].
Qed.





Lemma sub_le_0 nt t : nt <= t -> time.Sub nt t <= 0.
Proof.
  intros H. unfold time.Sub, time.minDuration, time.maxDuration.
  destruct (Z.ltb_spec (nt - t) (- 2 ^ 63)); [lia|].
  destruct (Z.ltb_spec (2 ^ 63 - 1) (nt - t)); lia.
Qed.

Lemma micro_trace_app w lb w' :
  inv w -> micro w lb w' -> exists pre, trace w' = pre ++ trace w.
Proof.
  intros Hi Hm. destruct (micro_trace w lb w' Hi Hm) as (evs & -> & _).
  exists (evs ++ new_call w lb). by rewrite app_assoc.
Qed.




Lemma d_run t0 dd cap l acts :
  NewCapacity t0 dd cap = Some l -> d (lim (run (boot t0 l) acts)) = dd.
Proof.
  intros Hl. destruct (boot_ok t0 dd cap l Hl) as [Hi0 _].
  apply (run_preserves (fun w => d (lim w) = dd)); auto.
  - clear. intros w lb w' _ <- Hm. by eapply d_micro.
  - unfold NewCapacity in Hl. destruct (makechan cap); [|done]. by injection Hl as <-.
Qed.


Lemma close_called_micro w lb w' :
  inv w -> micro w lb w' ->
  close_called (trace w') <-> close_called (trace w) \/ lb = LCall CallClose.
Proof.
  intros Hi Hm. destruct (micro_trace w lb w' Hi Hm) as (evs & -> & Hevs).
  unfold close_called. split.
  - intros (g & t & [He|[He|He]%elem_of_app]%elem_of_app).
    + rewrite Forall_forall in Hevs. by destruct (Hevs _ He g CallClose t).
    + right. destruct lb; simpl in He; try by apply elem_of_nil in He.
      apply list_elem_of_singleton in He. by injection He as _ <- _.
    + left. eauto.
  - intros [(g & t & He)| ->].
    + exists g, t. rewrite !elem_of_app. auto.
    + exists (nextg w), (now w). rewrite !elem_of_app. right. left. simpl. left.
Qed.

(** The queue is closed exactly when [Close] has been called. *)
Lemma closed_iff_called t0 dd cap l acts :
  NewCapacity t0 dd cap = Some l ->
  closed (chan (run (boot t0 l) acts)) = true <->
  close_called (trace (run (boot t0 l) acts)).
Proof.
  intros Hl. destruct (boot_ok t0 dd cap l Hl) as [Hi0 _].
  apply (run_preserves (fun w => closed (chan w) = true <-> close_called (trace w)));
    auto.
  - clear. intros w lb w' Hi Hw Hm.
    rewrite (closed_micro _ _ _ Hm), (close_called_micro _ _ _ Hi Hm), Hw. done.
  - unfold NewCapacity, makechan in Hl. destruct (cap <? 0); [done|].
    injection Hl as <-. unfold chan, close_called. simpl. split; [done|].
    intros (g & t & He). by apply elem_of_nil in He.
Qed.

Lemma retclose_micro w lb w' pre g e t :
  inv w -> micro w lb w' -> trace w' = pre ++ trace w ->
  EvReturn g (RetClose e) t ∈ pre -> lb = LCall CallClose.
Proof.
  intros Hi Hm Hpre He. destruct Hm as
    [dt|v Hc|v r0 rq Hc Hr0|v Hc Hr0 Hlt|v Hc Hr0 Hle|c Hpop Hc Hb
    |c Hpop Hc Hb Hs|c s sv sq Hpop Hc Hs|c v b Hpop Hb Hs|Hc|Hc
    |g0 r0 Hg|g0 r0 h Hg Hl|g0 r0 Hg Hl Hsub|g0 r0 Hg Hl Hsub|g0 r0 wake Hg Hl Hwake];
    try done.
  all: exfalso; simpl in Hpre.
  all: try (destruct (release_recv_rest v true r0
      (with_chan (mkChan (dataqsiz (chan w)) (buf (chan w)) false rq
                         (sendq (chan w))) (called (CallPush v) w)))
      as (_ & _ & _ & Htr); rewrite Htr in Hpre; simpl in Hpre).
  all: try (destruct (release_send_rest true s
      (with_chan (mkChan (dataqsiz (chan w))
                    (match buf (chan w) with [] => [] | _ :: b => b ++ [sv] end)
                    false (recvq (chan w)) sq) (called c w)))
      as (_ & _ & _ & Htr); rewrite Htr in Hpre; simpl in Hpre).
  all: first [ apply (app_inv_tail _ []) in Hpre
             | apply (app_inv_tail _ [_]) in Hpre
             | apply (app_inv_tail _ [_; _]) in Hpre
             | apply (app_inv_tail _ [_; _; _]) in Hpre ]; subst pre.
  all: in_trace He; try (by apply elem_of_nil in He).
  all: try (by destruct c).
  - injection He as -> <- ->. pose proof (inv_pool w Hi g0 _ Hg) as Hok.
    inversion Hok as [| | |c Hc Htk Hr| | |]; subst. by destruct c.
  - injection He as -> <- ->.
    assert (exists c v, is_pop c = true /\ took (trace w) g0 = Some v /\
                        RetClose e = pop_ret c v true) as (c & v & ? & ? & ?).
    { destruct Hg as [Hg|Hg].
      - eapply gs_ok_gate. by apply (inv_pool w Hi).
      - eapply gs_ok_lock. by apply (inv_pool w Hi). }
    by destruct c.
  - injection He as -> <- ->.
    destruct (gs_ok_sleep w g0 wake _ (inv_pool w Hi g0 _ Hg))
      as (c & v & ? & ? & ? & _).
    by destruct c.
Qed.

(** A call of [Close] that has returned left the queue closed. *)
Lemma returned_close_closed t0 dd cap l acts g e t :
  NewCapacity t0 dd cap = Some l ->
  EvReturn g (RetClose e) t ∈ trace (run (boot t0 l) acts) ->
  closed (chan (run (boot t0 l) acts)) = true.
Proof.
  intros Hl. destruct (boot_ok t0 dd cap l Hl) as [Hi0 _].
  apply (run_preserves
           (fun w => EvReturn g (RetClose e) t ∈ trace w -> closed (chan w) = true));
    auto.
  - clear. intros w lb w' Hi Hw Hm He.
    apply (closed_micro _ _ _ Hm).
    destruct (micro_trace_app _ _ _ Hi Hm) as [pre Hpre].
    rewrite Hpre in He. apply elem_of_app in He as [He|He]; auto.
    right. by eapply retclose_micro.
  - simpl. by intros ?%elem_of_nil.
Qed.

Lemma step_push_closed w x :
  closed (chan w) = true ->
  step w (Go (CallPush x)) = ret (nextg w) (RetPush ErrClosed) (called (CallPush x) w).
Proof.
  intros Hc. rewrite step_go_push. cbv zeta. unfold chansend. by rewrite Hc.
Qed.

(** C5: a closed queue rejects [Push].  Once a call of [Close] has returned
    [nil], every [Push] returns [ErrClosed] in the step that calls it, and
    the limiter (its buffer in particular), the suspended goroutines and
    the clock are what they were. *)
Theorem closed_rejects_push t0 dd cap l acts x :
  NewCapacity t0 dd cap = Some l ->
  let w := run (boot t0 l) acts in
  (exists g t, EvReturn g (RetClose ErrNil) t ∈ trace w) ->
  trace (step w (Go (CallPush x))) =
    EvReturn (nextg w) (RetPush ErrClosed) (now w)
      :: EvCall (nextg w) (CallPush x) (now w) :: trace w /\
  lim (step w (Go (CallPush x))) = lim w /\
  pool (step w (Go (CallPush x))) = pool w /\
  now (step w (Go (CallPush x))) = now w.
Proof.
  intros Hl w (g & t & He).
  destruct (boot_ok t0 dd cap l Hl) as [Hi0 _].
  pose proof (inv_run _ acts Hi0) as Hi. fold w in Hi.
  pose proof (returned_close_closed t0 dd cap l acts g _ t Hl He) as Hc. fold w in Hc.
  rewrite step_push_closed by done. simpl. repeat split.
  apply delete_id. destruct (pool w !! nextg w) eqn:E; [|done].
  apply (inv_fresh w Hi) in E. lia.
Qed.

Lemma step_close_trace w :
  inv w ->
  trace (step w (Go CallClose)) =
    EvReturn (nextg w)
      (RetClose (if closed (chan w) then ErrClosed else ErrNil)) (now w)
      :: EvCall (nextg w) CallClose (now w) :: trace w.
Proof.
  intros Hi. rewrite step_go_close. cbv zeta. unfold closechan.
  destruct (closed (chan w)) eqn:Hc; [done|].
  change (trace (ret (nextg w) (RetClose ErrNil) (close_world (called CallClose w)))
          = EvReturn (nextg w) (RetClose ErrNil) (now w)
              :: EvCall (nextg w) CallClose (now w) :: trace w).
  simpl. by destruct (close_world_rest (called CallClose w)) as (-> & _ & _ & ->).
Qed.

(** C6: [Close] is one-shot.  The queue is closed exactly when [Close] has
    been called; a call of [Close] returns [nil] on an open queue and
    [ErrClosed] on a closed one, leaves the queue closed, and no later step
    opens it again. *)
Theorem close_one_shot t0 dd cap l acts :
  NewCapacity t0 dd cap = Some l ->
  let w := run (boot t0 l) acts in
  (closed (values (lim w)) = true <-> exists g t, EvCall g CallClose t ∈ trace w) /\
  trace (step w (Go CallClose)) =
    EvReturn (nextg w)
      (RetClose (if closed (values (lim w)) then ErrClosed else ErrNil)) (now w)
      :: EvCall (nextg w) CallClose (now w) :: trace w /\
  closed (values (lim (step w (Go CallClose)))) = true /\
  (forall a, closed (values (lim w)) = true ->
             closed (values (lim (step w a))) = true).
Proof.
  intros Hl w. destruct (boot_ok t0 dd cap l Hl) as [Hi0 _].
  pose proof (inv_run _ acts Hi0) as Hi. fold w in Hi.
  split; [|split; [|split]].
  - apply (closed_iff_called t0 dd cap l acts Hl).
  - by apply step_close_trace.
  - apply (closed_step w (Go CallClose) Hi). by right.
  - intros a Hc. apply (closed_step w a Hi). by left.
Qed.

Lemma dataqsiz_micro w lb w' : micro w lb w' -> dataqsiz (chan w') = dataqsiz (chan w).
Proof.
  intros Hm. destruct Hm; unfold chan; simpl;
    rewrite ?lim_release_recv, ?lim_release_send; try done.
  change (dataqsiz (values (lim (close_world (called CallClose w))))
          = dataqsiz (values (lim w))).
  by destruct (close_world_rest (called CallClose w)) as (_ & -> & _).
Qed.

Lemma dataqsiz_run t0 dd cap l acts :
  NewCapacity t0 dd cap = Some l ->
  dataqsiz (chan (run (boot t0 l) acts)) = cap /\ 0 <= cap.
Proof.
  intros Hl. destruct (boot_ok t0 dd cap l Hl) as [Hi0 _].
  apply (run_preserves (fun w => dataqsiz (chan w) = cap /\ 0 <= cap)); auto.
  - clear. intros w lb w' _ [<- ?] Hm. split; [|done]. by eapply dataqsiz_micro.
  - unfold NewCapacity, makechan in Hl.
    destruct (Z.ltb_spec cap 0); [done|]. by injection Hl as <-.
Qed.

(** While nobody pops or closes, a parked sender stays where it is. *)
Lemma parked_micro w lb w' g x :
  inv w -> micro w lb w' -> quiet_label lb ->
  closed (chan w) = false -> (g, x) ∈ sendq (chan w) ->
  closed (chan w') = false /\ buf (chan w') = buf (chan w) /\
  exists extra, sendq (chan w') = sendq (chan w) ++ extra.
Proof.
  intros Hi Hm Hq Hc Hin.
  assert (Hne : sendq (chan w) <> []) by (intros E; rewrite E in Hin; by apply elem_of_nil in Hin).
  destruct Hm as
    [dt|v Hc'|v r0 rq Hc' Hr0|v Hc' Hr0 Hlt|v Hc' Hr0 Hle|c Hpop Hc' Hb
    |c Hpop Hc' Hb Hs|c s sv sq Hpop Hc' Hs|c v b Hpop Hb Hs|Hc'|Hc'
    |g0 r0 Hg|g0 r0 h Hg Hl|g0 r0 Hg Hl Hsub|g0 r0 Hg Hl Hsub|g0 r0 wake Hg Hl Hwake];
    try (by destruct c); try done; try congruence.
  all: unfold chan in *; simpl.
  all: try (repeat split; auto; exists []; by rewrite app_nil_r).
  - destruct (inv_recv_wait w Hi) as [_ ?]; [unfold chan; by rewrite Hr0|]. done.
  - pose proof (inv_send_wait w Hi Hne). unfold chan in *. lia.
  - repeat split; auto. by eexists.
Qed.

Lemma quiet_step w a g x :
  inv w -> quiet a ->
  closed (chan w) = false -> (g, x) ∈ sendq (chan w) ->
  closed (chan (step w a)) = false /\ buf (chan (step w a)) = buf (chan w) /\
  exists extra, sendq (chan (step w a)) = sendq (chan w) ++ extra.
Proof.
  intros Hi Hq Hc Hin. destruct a as [c|g'|dt].
  - assert (Hql : quiet_label (LCall c)) by (by destruct c).
    destruct (step_micro_go w c) as [Hm|(w1 & Hm1 & Hm2)].
    + by eapply parked_micro.
    + destruct (parked_micro w _ w1 g x Hi Hm1 Hql Hc Hin)
        as (Hc1 & Hb1 & extra1 & Hs1).
      assert (Hin1 : (g, x) ∈ sendq (chan w1)).
      { rewrite Hs1. apply elem_of_app. by left. }
      destruct (parked_micro w1 _ _ g x (inv_micro _ _ _ Hi Hm1) Hm2 I Hc1 Hin1)
        as (Hc2 & Hb2 & extra2 & Hs2).
      repeat split; [done|congruence|]. exists (extra1 ++ extra2).
      by rewrite Hs2, Hs1, app_assoc.
  - destruct (step_micro_sched w g' Hi) as [->|Hm].
    + repeat split; auto. exists []. by rewrite app_nil_r.
    + by eapply (parked_micro w _ _ g x Hi Hm).
  - by eapply (parked_micro w _ _ g x Hi (m_tick w dt)).
Qed.

Lemma quiet_run w acts g x :
  inv w -> Forall quiet acts ->
  closed (chan w) = false -> (g, x) ∈ sendq (chan w) ->
  closed (chan (run w acts)) = false /\ buf (chan (run w acts)) = buf (chan w) /\
  exists extra, sendq (chan (run w acts)) = sendq (chan w) ++ extra.
Proof.
  revert w. induction acts as [|a acts IH]; intros w Hi Hq Hc Hin.
  - repeat split; auto. exists []. by rewrite app_nil_r.
  - apply Forall_cons in Hq as [Ha Hq]. simpl.
    destruct (quiet_step w a g x Hi Ha Hc Hin) as (Hc1 & Hb1 & extra1 & Hs1).
    destruct (IH (step w a)) as (Hc2 & Hb2 & extra2 & Hs2); auto.
    { by apply inv_step. }
    { rewrite Hs1. apply elem_of_app. by left. }
    repeat split; [done|congruence|]. exists (extra1 ++ extra2).
    by rewrite Hs2, Hs1, app_assoc.
Qed.

(** [Push] finds the queue open, nobody waiting to receive and no room. *)
Lemma step_push_parks w x :
  closed (chan w) = false -> recvq (chan w) = [] ->
  dataqsiz (chan w) <= Z.of_nat (length (buf (chan w))) ->
  step w (Go (CallPush x)) =
    park (nextg w) (WaitSend push_k)
      (with_chan (mkChan (dataqsiz (chan w)) (buf (chan w)) false []
                         (sendq (chan w) ++ [(nextg w, x)]))
         (called (CallPush x) w)).
Proof.
  intros Hc Hr Hle. rewrite step_go_push. cbv zeta. unfold chansend.
  rewrite Hc, Hr. destruct (Z.ltb_spec (Z.of_nat (length (buf (chan w))))
                              (dataqsiz (chan w))); [lia|done].
Qed.

Lemma chan_enter_gate g r w : chan (enter_gate g r w) = chan w.
Proof.
  unfold enter_gate, run_gate. destruct (lock (lim w)); [done|].
  cbn [with_lock lim nextTime now]. by destruct (_ <=? 0).
Qed.

Lemma pool_enter_gate_ne g g' r w :
  g <> g' -> pool (enter_gate g' r w) !! g = pool w !! g.
Proof.
  intros Hne. unfold enter_gate, run_gate. destruct (lock (lim w)); simpl.
  - by rewrite lookup_insert_ne.
  - destruct (_ <=? 0); simpl.
    + by rewrite lookup_delete_ne.
    + by rewrite lookup_insert_ne.
Qed.

(** A pop lets in the sender that is first in line. *)
Lemma pop_releases_sender w c g x sq :
  inv w -> is_pop c = true ->
  closed (chan w) = false -> sendq (chan w) = (g, x) :: sq ->
  buf (chan (step w (Go c))) =
    match buf (chan w) with [] => [] | _ :: b => b ++ [x] end /\
  pool (step w (Go c)) !! g = Some (Runnable (Ret (RetPush ErrNil))).
Proof.
  intros Hi Hc Hcl Hs.
  assert (Hin : (g, x) ∈ sendq (chan w)) by (rewrite Hs; left).
  pose proof (inv_sendq w Hi g x Hin) as Hp.
  pose proof (inv_fresh w Hi g _ Hp) as Hlt.
  rewrite step_go_pop by done. cbv zeta. unfold chanrecv.
  rewrite Hcl, Hs. simpl.
  destruct (buf (chan w)) as [|v b];
    rewrite chan_enter_gate, pool_enter_gate_ne by lia;
    (split; [unfold chan; cbn [emit lim]; by rewrite lim_release_send|]);
    cbn [emit pool]; rewrite release_send_lookup, decide_True by done;
    cbn [with_chan called pool]; by rewrite Hp.
Qed.

(** [Close] wakes every parked sender with the closed signal. *)
Lemma close_releases_sender w g x :
  inv w -> closed (chan w) = false -> (g, x) ∈ sendq (chan w) ->
  pool (step w (Go CallClose)) !! g = Some (Runnable (Ret (RetPush ErrClosed))).
Proof.
  intros Hi Hcl Hin.
  pose proof (inv_sendq w Hi g x Hin) as Hp.
  pose proof (inv_fresh w Hi g _ Hp) as Hlt.
  rewrite step_go_close. cbv zeta. unfold closechan. rewrite Hcl.
  change (pool (ret (nextg w) (RetClose ErrNil) (close_world (called CallClose w)))
            !! g = Some (Runnable (Ret (RetPush ErrClosed)))).
  cbn [ret emit with_pool pool]. rewrite lookup_delete_ne by lia.
  rewrite (close_world_lookup _ _ (inv_called w CallClose Hi)).
  rewrite decide_True; [done|].
  apply (list_elem_of_fmap (A:=gid * iface)). by exists (g, x).
Qed.

Lemma sched_returns w g r :
  pool w !! g = Some (Runnable (Ret r)) ->
  trace (step w (Sched g)) = EvReturn g r (now w) :: trace w.
Proof. intros Hp. simpl. by rewrite Hp. Qed.

(** A push that found no room is parked until a pop or a close. *)
Lemma push_blocked w x acts :
  inv w -> tinv w ->
  closed (chan w) = false -> recvq (chan w) = [] ->
  dataqsiz (chan w) <= Z.of_nat (length (buf (chan w))) ->
  Forall quiet acts ->
  let g := nextg w in
  let w' := run (step w (Go (CallPush x))) acts in
  inv w' /\ closed (chan w') = false /\
  (exists extra, sendq (chan w') = sendq (chan w) ++ (g, x) :: extra) /\
  buf (chan w') = buf (chan w) /\
  pool w' !! g = Some (WaitSend push_k) /\
  (forall r t, EvReturn g r t ∉ trace w').
Proof.
  intros Hi Ht Hc Hr Hle Hq g w'.
  pose proof (inv_step w (Go (CallPush x)) Hi) as Hi1.
  pose proof (tinv_step w (Go (CallPush x)) Hi Ht) as Ht1.
  pose proof (step_push_parks w x Hc Hr Hle) as Hstep.
  assert (Hc1 : closed (chan (step w (Go (CallPush x)))) = false)
    by (by rewrite Hstep).
  assert (Hs1 : sendq (chan (step w (Go (CallPush x)))) = sendq (chan w) ++ [(g, x)])
    by (by rewrite Hstep).
  assert (Hb1 : buf (chan (step w (Go (CallPush x)))) = buf (chan w))
    by (by rewrite Hstep).
  assert (Hin1 : (g, x) ∈ sendq (chan (step w (Go (CallPush x))))).
  { rewrite Hs1. apply elem_of_app. right. left. }
  destruct (quiet_run _ acts g x Hi1 Hq Hc1 Hin1) as (Hc' & Hb' & extra & Hs').
  fold w' in Hc', Hb', Hs'.
  pose proof (inv_run _ acts Hi1) as Hi'. fold w' in Hi'.
  pose proof (tinv_run _ acts Hi1 Ht1) as Ht'. fold w' in Ht'.
  assert (Hin' : (g, x) ∈ sendq (chan w')).
  { rewrite Hs'. apply elem_of_app. by left. }
  pose proof (inv_sendq w' Hi' g x Hin') as Hp.
  refine (conj Hi' (conj Hc' (conj _ (conj _ (conj Hp _))))).
  - exists extra. by rewrite Hs', Hs1, <- app_assoc.
  - congruence.
  - intros r t. by eapply (t_live w' Ht').
Qed.

(** C7: capacity and back-pressure.  A queue made with capacity
    [cap >= 1] never buffers more than [cap] values; a [Push] called on an
    open queue whose buffer is full parks, and stays parked with the buffer
    untouched as long as nobody calls [Pop], [PopOk] or [Close]; the next
    pop lets the first parked sender in, and [Close] wakes the sender with
    [ErrClosed]. *)
Theorem capacity_backpressure t0 dd cap l acts x acts' :
  NewCapacity t0 dd cap = Some l -> 1 <= cap ->
  let w := run (boot t0 l) acts in
  Z.of_nat (length (buf (values (lim w)))) <= cap /\
  (closed (values (lim w)) = false ->
   Z.of_nat (length (buf (values (lim w)))) = cap ->
   Forall quiet acts' ->
   let g := nextg w in
   let w' := run (step w (Go (CallPush x))) acts' in
   (exists k, pool w' !! g = Some (WaitSend k)) /\
   (forall r t, EvReturn g r t ∉ trace w') /\
   buf (values (lim w')) = buf (values (lim w)) /\
   (forall c, is_pop c = true -> sendq (values (lim w)) = [] ->
      buf (values (lim (step w' (Go c)))) = tl (buf (values (lim w))) ++ [x] /\
      pool (step w' (Go c)) !! g = Some (Runnable (Ret (RetPush ErrNil)))) /\
   pool (step w' (Go CallClose)) !! g = Some (Runnable (Ret (RetPush ErrClosed)))).
Proof.
  intros Hl Hcap w.
  destruct (boot_ok t0 dd cap l Hl) as [Hi0 Ht0].
  pose proof (inv_run _ acts Hi0) as Hi. fold w in Hi.
  pose proof (tinv_run _ acts Hi0 Ht0) as Ht. fold w in Ht.
  destruct (dataqsiz_run t0 dd cap l acts Hl) as [Hq _]. fold w in Hq.
  split.
  { pose proof (inv_cap w Hi) as H. unfold chan in *. lia. }
  intros Hc Hfull Hquiet g w'.
  assert (Hr : recvq (chan w) = []).
  { destruct (recvq (chan w)) eqn:E; [done|].
    destruct (inv_recv_wait w Hi) as [Hb _]; [by rewrite E|].
    unfold chan in *. rewrite Hb in Hfull. simpl in Hfull. lia. }
  destruct (push_blocked w x acts' Hi Ht Hc Hr) as
    (Hi' & Hc' & (extra & Hs') & Hb' & Hp' & Hnr); auto.
  { unfold chan in *. lia. }
  fold g w' in Hi', Hc', Hs', Hb', Hp', Hnr.
  split; [by eexists|]. split; [done|]. split; [done|]. split.
  - intros c Hpop Hs. unfold chan in *. rewrite Hs in Hs'. simpl in Hs'.
    destruct (pop_releases_sender w' c g x extra Hi' Hpop Hc' Hs') as [Hb'' Hp''].
    split; [|done]. unfold chan in *. rewrite Hb'', Hb'.
    destruct (buf (values (lim w))); [|done]. simpl in Hfull. lia.
  - apply (close_releases_sender w' g x Hi' Hc').
    rewrite Hs'. apply elem_of_app. right. left.
Qed.

Lemma took_enter_gate g r w g' :
  took (trace (enter_gate g r w)) g' = took (trace w) g'.
Proof.
  unfold enter_gate, run_gate. destruct (lock (lim w)); [done|].
  cbn [with_lock lim nextTime now]. by destruct (_ <=? 0).
Qed.




Lemma invoke_pop_proj : pproj (invoke CallPopOk) (invoke CallPop).
Proof.
  apply pp_recv. intros v ok. destruct ok; simpl; repeat constructor.
Qed.

Lemma sim_with_chan g0 c w1 w2 :
  sim g0 w1 w2 -> sim g0 (with_chan c w1) (with_chan c w2).
Proof. intros []. split; simpl; auto; congruence. Qed.

Lemma sim_with_lock g0 h w1 w2 :
  sim g0 w1 w2 -> sim g0 (with_lock h w1) (with_lock h w2).
Proof. intros []. split; simpl; auto; congruence. Qed.

Lemma sim_with_nextTime g0 t w1 w2 :
  sim g0 w1 w2 -> sim g0 (with_nextTime t w1) (with_nextTime t w2).
Proof. intros []. split; simpl; auto; congruence. Qed.

Lemma sim_dequeue g0 g v w1 w2 :
  sim g0 w1 w2 -> sim g0 (emit (EvDequeue g v) w1) (emit (EvDequeue g v) w2).
Proof.
  intros []. split; simpl; auto.
  - by f_equal.
  - intros r t [He|Hin]%elem_of_cons; [done|eauto].
Qed.

Lemma sim_park_other g0 g s w1 w2 :
  g <> g0 -> sim g0 w1 w2 -> sim g0 (park g s w1) (park g s w2).
Proof.
  intros Hne []. split; simpl; auto.
  - intros g' Hg'. destruct (decide (g' = g)) as [->|Hne'].
    + by rewrite !lookup_insert_eq.
    + rewrite !lookup_insert_ne by done. auto.
  - by rewrite !lookup_insert_ne.
Qed.

Lemma sim_park_self g0 s2 s1 w1 w2 :
  gs_proj s2 s1 -> sim g0 w1 w2 -> sim g0 (park g0 s1 w1) (park g0 s2 w2).
Proof.
  intros Hs []. split; simpl; auto.
  - intros g' Hg'. rewrite !lookup_insert_ne by done. auto.
  - rewrite !lookup_insert_eq. by constructor.
Qed.

Lemma sim_ret_other g0 g r w1 w2 :
  g <> g0 -> sim g0 w1 w2 -> sim g0 (ret g r w1) (ret g r w2).
Proof.
  intros Hne []. split; simpl; auto.
  - intros g' Hg'. destruct (decide (g' = g)) as [->|Hne'].
    + by rewrite !lookup_delete_eq.
    + rewrite !lookup_delete_ne by done. auto.
  - by rewrite !lookup_delete_ne.
  - rewrite decide_False by done. by f_equal; [f_equal|].
  - intros r' t [[= E _ _]|Hin]%elem_of_cons; [done|eauto].
Qed.

Lemma sim_ret_self g0 v ok w1 w2 :
  sim g0 w1 w2 -> sim g0 (ret g0 (RetPop v) w1) (ret g0 (RetPopOk v ok) w2).
Proof.
  intros []. split; simpl; auto.
  - intros g' Hg'. rewrite !lookup_delete_ne by done. auto.
  - rewrite !lookup_delete_eq. constructor.
  - rewrite decide_True by done. simpl. by f_equal; [f_equal|].
  - intros r' t [[= -> _]|Hin]%elem_of_cons; [done|eauto].
Qed.

Lemma sim_crash g0 g m w1 w2 :
  sim g0 w1 w2 -> sim g0 (crash g m w1) (crash g m w2).
Proof.
  intros []. split; simpl; auto.
  - intros g' Hg'. destruct (decide (g' = g)) as [->|Hne'].
    + by rewrite !lookup_delete_eq.
    + rewrite !lookup_delete_ne by done. auto.
  - destruct (decide (g0 = g)) as [->|Hne].
    + rewrite !lookup_delete_eq. constructor.
    + by rewrite !lookup_delete_ne.
  - by f_equal.
  - intros r' t [[=]|Hin]%elem_of_cons; eauto.
Qed.

Lemma sim_release_recv g0 v ok r w1 w2 :
  sim g0 w1 w2 -> sim g0 (release_recv v ok r w1) (release_recv v ok r w2).
Proof.
  intros Hs. unfold release_recv. destruct (decide (r = g0)) as [->|Hne].
  - pose proof (sim_self _ _ _ Hs) as Hp.
    destruct Hp as [s2 s1 Hp|]; [|done].
    destruct Hp; try done. apply sim_park_self; [|done]. by constructor.
  - rewrite (sim_pool _ _ _ Hs r Hne).
    destruct (pool w2 !! r) as [[]|]; try done. by apply sim_park_other.
Qed.

Lemma sim_release_send g0 ok r w1 w2 :
  sim g0 w1 w2 -> sim g0 (release_send ok r w1) (release_send ok r w2).
Proof.
  intros Hs. unfold release_send. destruct (decide (r = g0)) as [->|Hne].
  - pose proof (sim_self _ _ _ Hs) as Hp.
    destruct Hp as [s2 s1 Hp|]; [|done].
    destruct Hp; try done. apply sim_park_self; [|done]. by constructor.
  - rewrite (sim_pool _ _ _ Hs r Hne).
    destruct (pool w2 !! r) as [[]|]; try done. by apply sim_park_other.
Qed.

Lemma sim_foldr_release_recv g0 v ok rs w1 w2 :
  sim g0 w1 w2 ->
  sim g0 (foldr (release_recv v ok) w1 rs) (foldr (release_recv v ok) w2 rs).
Proof. intros Hs. induction rs; simpl; [done|]. by apply sim_release_recv. Qed.

Lemma sim_foldr_release_send g0 ok rs w1 w2 :
  sim g0 w1 w2 ->
  sim g0 (foldr (release_send ok) w1 rs) (foldr (release_send ok) w2 rs).
Proof. intros Hs. induction rs; simpl; [done|]. by apply sim_release_send. Qed.

(** The other goroutines run alike in the two worlds. *)
Lemma sim_exec_other g0 g p :
  g <> g0 -> forall w1 w2, sim g0 w1 w2 -> sim g0 (exec g p w1) (exec g p w2).
Proof.
  intros Hne.
  induction p as [r|m|v k IH|k IH|k IH|k IH|k IH|k IH|dur k IH|k IH|t k IH|k IH];
    intros w1 w2 Hs; simpl; rewrite ?(sim_lim _ _ _ Hs), ?(sim_now _ _ _ Hs).
  - by apply sim_ret_other.
  - by apply sim_crash.
  - destruct (chansend _ _ _).
    + by apply IH.
    + by apply IH, sim_dequeue, sim_release_recv, sim_with_chan.
    + by apply IH, sim_with_chan.
    + by apply sim_park_other, sim_with_chan.
  - destruct (chanrecv _ _).
    + by apply IH.
    + by apply IH, sim_dequeue, sim_release_send, sim_with_chan.
    + by apply IH, sim_dequeue, sim_with_chan.
    + by apply sim_park_other, sim_with_chan.
  - destruct (closechan _) as [[[c rs] ss]|].
    + by apply IH, sim_foldr_release_send, sim_foldr_release_recv, sim_with_chan.
    + by apply IH.
  - destruct (lock (lim w2)).
    + by apply sim_park_other.
    + by apply IH, sim_with_lock.
  - destruct (lock (lim w2)).
    + by apply IH, sim_with_lock.
    + by apply sim_crash.
  - by apply IH.
  - destruct (dur <=? 0).
    + by apply IH.
    + by apply sim_park_other.
  - by apply IH.
  - by apply IH, sim_with_nextTime.
  - by apply IH.
Qed.

(** The goroutine that calls [Pop] runs as the one that calls [PopOk]. *)
Lemma sim_exec_self g0 p p' :
  pproj p p' ->
  forall w1 w2, sim g0 w1 w2 -> sim g0 (exec g0 p' w1) (exec g0 p w2).
Proof.
  induction 1 as [v ok|m|v k k' Hk IH|k k' Hk IH|k k' Hk IH|k k' Hk IH
                 |k k' Hk IH|k k' Hk IH|dur k k' Hk IH|k k' Hk IH
                 |t k k' Hk IH|k k' Hk IH];
    intros w1 w2 Hs; simpl; rewrite ?(sim_lim _ _ _ Hs), ?(sim_now _ _ _ Hs).
  - by apply sim_ret_self.
  - by apply sim_crash.
  - destruct (chansend _ _ _).
    + by apply IH.
    + by apply IH, sim_dequeue, sim_release_recv, sim_with_chan.
    + by apply IH, sim_with_chan.
    + apply sim_park_self; [by constructor|]. by apply sim_with_chan.
  - destruct (chanrecv _ _).
    + by apply IH.
    + by apply IH, sim_dequeue, sim_release_send, sim_with_chan.
    + by apply IH, sim_dequeue, sim_with_chan.
    + apply sim_park_self; [by constructor|]. by apply sim_with_chan.
  - destruct (closechan _) as [[[c rs] ss]|].
    + by apply IH, sim_foldr_release_send, sim_foldr_release_recv, sim_with_chan.
    + by apply IH.
  - destruct (lock (lim w2)).
    + apply sim_park_self; [by constructor|done].
    + by apply IH, sim_with_lock.
  - destruct (lock (lim w2)).
    + by apply IH, sim_with_lock.
    + by apply sim_crash.
  - by apply IH.
  - destruct (dur <=? 0).
    + by apply IH.
    + apply sim_park_self; [by constructor|done].
  - by apply IH.
  - by apply IH, sim_with_nextTime.
  - by apply IH.
Qed.

Lemma nextg_exec g p : forall w, nextg (exec g p w) = nextg w.
Proof.
  induction p as [r|m|v k IH|k IH|k IH|k IH|k IH|k IH|dur k IH|k IH|t k IH|k IH];
    intros w; simpl; try done.
  - destruct (chansend _ _ _); rewrite ?IH; simpl; try done.
    by destruct (release_recv_rest v true receiver (with_chan c w)) as (_ & _ & -> & _).
  - destruct (chanrecv _ _); rewrite ?IH; simpl; try done.
    by destruct (release_send_rest true sender (with_chan c w)) as (_ & _ & -> & _).
  - destruct (closechan _) as [[[c rs] ss]|]; rewrite ?IH; [|done].
    destruct (foldr_release_send_rest false ss
                (foldr (release_recv Nil false) (with_chan c w) rs))
      as (_ & _ & -> & _).
    by destruct (foldr_release_recv_rest Nil false rs (with_chan c w))
      as (_ & _ & -> & _).
  - destruct (lock (lim w)); rewrite ?IH; done.
  - destruct (lock (lim w)); rewrite ?IH; done.
  - destruct (dur <=? 0); rewrite ?IH; done.
  - by rewrite IH.
Qed.

Lemma nextg_step w a : (nextg w <= nextg (step w a))%nat.
Proof.
  destruct a as [c|g|dt]; simpl.
  - rewrite nextg_exec. simpl. lia.
  - destruct (pool w !! g) as [[]|]; try done.
    + by rewrite nextg_exec.
    + destruct (lock (lim w)); [done|]. by rewrite nextg_exec.
    + destruct (_ <=? _); [|done]. by rewrite nextg_exec.
  - done.
Qed.

Lemma sim_step g0 w1 w2 a :
  (g0 < nextg w2)%nat -> sim g0 w1 w2 -> sim g0 (step w1 a) (step w2 a).
Proof.
  intros Hlt Hs. destruct a as [c|g|dt]; cbn [step].
  - rewrite (sim_nextg _ _ _ Hs).
    apply sim_exec_other; [lia|]. destruct Hs. split; simpl; auto.
    + rewrite decide_False by lia. by rewrite sim_now0, sim_trace0.
    + intros r t [He|Hin]%elem_of_cons; [done|eauto].
  - destruct (decide (g = g0)) as [->|Hne].
    + destruct (sim_self _ _ _ Hs) as [s2 s1 Hp|]; [|done].
      rewrite (sim_now _ _ _ Hs), (sim_lim _ _ _ Hs).
      destruct Hp; try done.
      * by apply sim_exec_self.
      * destruct (lock (lim w2)); [done|]. by apply sim_exec_self, sim_with_lock.
      * destruct (_ <=? _); [|done]. by apply sim_exec_self.
    + rewrite (sim_pool _ _ _ Hs g Hne), (sim_now _ _ _ Hs), (sim_lim _ _ _ Hs).
      destruct (pool w2 !! g) as [[]|]; try done.
      * by apply sim_exec_other.
      * destruct (lock (lim w2)); [done|]. by apply sim_exec_other, sim_with_lock.
      * destruct (_ <=? _); [|done]. by apply sim_exec_other.
  - destruct Hs. split; simpl; auto. by rewrite sim_now0.
Qed.

Lemma sim_run g0 acts : forall w1 w2,
  (g0 < nextg w2)%nat -> sim g0 w1 w2 -> sim g0 (run w1 acts) (run w2 acts).
Proof.
  induction acts as [|a acts IH]; intros w1 w2 Hlt Hs; [done|].
  simpl. apply IH; [|by apply sim_step].
  pose proof (nextg_step w2 a). lia.
Qed.

Lemma proj_event_other g0 tr :
  (forall e, e ∈ tr -> ev_gid e <> g0) -> proj_event g0 <$> tr = tr.
Proof.
  induction tr as [|e tr IH]; intros H; [done|]. simpl. f_equal.
  - assert (He : ev_gid e <> g0) by (apply H; left).
    destruct e; simpl in *; try done; by rewrite decide_False.
  - apply IH. intros e' He'. apply H. by right.
Qed.

(** A call of [Pop] and a call of [PopOk], made in the same world. *)
Lemma sim_go w :
  inv w -> tinv w -> sim (nextg w) (step w (Go CallPop)) (step w (Go CallPopOk)).
Proof.
  intros Hi Ht. simpl exec.
  change (sim (nextg w) (exec (nextg w) (invoke CallPop) (called CallPop w))
                        (exec (nextg w) (invoke CallPopOk) (called CallPopOk w))).
  apply sim_exec_self; [apply invoke_pop_proj|].
  assert (Hp : pool w !! nextg w = None).
  { destruct (pool w !! nextg w) eqn:E; [|done]. apply (inv_fresh w Hi) in E. lia. }
  split; simpl; auto.
  - rewrite Hp. constructor.
  - rewrite decide_True by done. simpl. f_equal. symmetry.
    apply proj_event_other. intros e He. apply (t_lt w Ht) in He. lia.
  - intros r t [He|Hin]%elem_of_cons; [done|].
    apply (t_lt w Ht) in Hin. simpl in Hin. lia.
Qed.

Lemma sim_returns g0 w1 w2 v t :
  sim g0 w1 w2 ->
  EvReturn g0 (RetPop v) t ∈ trace w1 <->
  exists ok, EvReturn g0 (RetPopOk v ok) t ∈ trace w2.
Proof.
  intros Hs. rewrite (sim_trace _ _ _ Hs). split.
  - intros (e & He & Hin)%list_elem_of_fmap.
    destruct e as [g c t'|g x|g r t'|g m]; simpl in He; try done.
    + by case_decide.
    + case_decide as E; [|congruence]. subst g.
      pose proof (sim_rets _ _ _ Hs _ _ Hin) as Hr.
      destruct r; try done. simpl in He. injection He as -> ->. by eexists.
  - intros (ok & Hin). apply list_elem_of_fmap.
    exists (EvReturn g0 (RetPopOk v ok) t). split; [|done].
    simpl. by rewrite decide_True.
Qed.

(** C9: [Pop] is the first component of [PopOk].  From every reachable
    state and under every schedule, a call of [Pop] and a call of [PopOk]
    leave the same clock, the same limiter and the same trace up to the
    dropped flag, so [Pop] returns [v] exactly when [PopOk] returns
    [(v, ok)] for some [ok]; a pushed [nil] and the [nil] of a drained
    queue give the same result of [Pop]. *)
Theorem pop_projects_popok t0 dd cap l acts acts' :
  NewCapacity t0 dd cap = Some l ->
  let w := run (boot t0 l) acts in
  let g := nextg w in
  let w1 := run (step w (Go CallPop)) acts' in
  let w2 := run (step w (Go CallPopOk)) acts' in
  (now w1 = now w2 /\ lim w1 = lim w2 /\
   trace w1 = proj_event g <$> trace w2) /\
  (forall v t,
      EvReturn g (RetPop v) t ∈ trace w1 <->
      exists ok, EvReturn g (RetPopOk v ok) t ∈ trace w2) /\
  (forall l1, New t0 dd = Some l1 ->
     let pushed_nil := run (boot t0 l1) [Go (CallPush Nil)] in
     let drained := run (boot t0 l1) [Go CallClose] in
     head (trace (step pushed_nil (Go CallPop))) = Some (EvReturn 1%nat (RetPop Nil) t0) /\
     head (trace (step drained (Go CallPop))) = Some (EvReturn 1%nat (RetPop Nil) t0) /\
     head (trace (step pushed_nil (Go CallPopOk))) =
       Some (EvReturn 1%nat (RetPopOk Nil true) t0) /\
     head (trace (step drained (Go CallPopOk))) =
       Some (EvReturn 1%nat (RetPopOk Nil false) t0)).
Proof.
  intros Hl w g w1 w2.
  destruct (boot_ok t0 dd cap l Hl) as [Hi0 Ht0].
  pose proof (inv_run _ acts Hi0) as Hi. fold w in Hi.
  pose proof (tinv_run _ acts Hi0 Ht0) as Ht. fold w in Ht.
  assert (Hs : sim g w1 w2).
  { apply sim_run; [|by apply sim_go].
    change (step w (Go CallPopOk))
      with (exec (nextg w) (invoke CallPopOk) (called CallPopOk w)).
    rewrite nextg_exec. simpl. unfold g. lia. }
  split; [|split].
  - by destruct Hs.
  - intros v t. by apply sim_returns.
  - intros l1 [= <-]. cbv zeta. unfold run, boot. simpl.
    unfold time.Sub. rewrite Z.sub_diag. simpl. done.
Qed.

Lemma step_sched_gate w g r :
  lock (lim w) = None ->
  pool w !! g = Some (Runnable (gate r)) \/
  pool w !! g = Some (WaitLock (gate_body r)) ->
  step w (Sched g) = run_gate g r (with_lock (Some g) w).
Proof.
  intros Hl [Hg|Hg]; cbn [step]; rewrite Hg.
  - rewrite exec_gate. unfold enter_gate. by rewrite Hl.
  - rewrite Hl. by rewrite exec_gate_body.
Qed.

Lemma step_sched_wake w g h wake r :
  pool w !! g = Some (Sleeping wake (gate_tail r)) ->
  lock (lim w) = Some h -> wake <= now w ->
  step w (Sched g) = pass_gate g r w.
Proof.
  intros Hg Hl Hw. cbn [step]. rewrite Hg.
  destruct (Z.leb_spec wake (now w)); [|lia].
  rewrite exec_gate_tail. by rewrite Hl.
Qed.

Lemma gate_progress_free w g r :
  lock (lim w) = None ->
  pool w !! g = Some (Runnable (gate r)) \/
  pool w !! g = Some (WaitLock (gate_body r)) ->
  exists acts t, Forall passive acts /\ EvReturn g r t ∈ trace (run w acts).
Proof.
  intros Hl Hg. pose proof (step_sched_gate w g r Hl Hg) as Hs.
  unfold run_gate in Hs. cbn [with_lock lim nextTime now] in Hs.
  destruct (Z.leb_spec (time.Sub (nextTime (lim w)) (now w)) 0) as [Hle|Hgt].
  - exists [Sched g], (now w). split; [by repeat constructor|].
    change (run w [Sched g]) with (step w (Sched g)). rewrite Hs. left.
  - set (s := time.Sub (nextTime (lim w)) (now w)) in *.
    exists [Sched g; Tick (Z.to_N s); Sched g], (now w + Z.of_N (Z.to_N s)).
    split; [by repeat constructor|].
    change (run w [Sched g; Tick (Z.to_N s); Sched g])
      with (step (step (step w (Sched g)) (Tick (Z.to_N s))) (Sched g)).
    rewrite Hs. rewrite (step_sched_wake _ g g (now w + s) r).
    + left.
    + simpl. apply lookup_insert_eq.
    + done.
    + simpl. lia.
Qed.

(** A goroutine that has taken a value gets through the gate: the holder
    of the mutex wakes up and leaves, then the goroutine sleeps until the
    watermark and returns. *)
Lemma gate_progress w g r :
  inv w ->
  pool w !! g = Some (Runnable (gate r)) \/
  pool w !! g = Some (WaitLock (gate_body r)) \/
  (exists wake, pool w !! g = Some (Sleeping wake (gate_tail r))) ->
  exists acts t, Forall passive acts /\ EvReturn g r t ∈ trace (run w acts).
Proof.
  intros Hi Hg. destruct (lock (lim w)) as [h|] eqn:Hl.
  - destruct (inv_lock w Hi h Hl) as (wake & k & Hh).
    destruct (gs_ok_sleeping w h wake k (inv_pool w Hi h _ Hh))
      as (c & v & Hc & _ & -> & _ & _).
    set (w1 := step w (Tick (Z.to_N (wake - now w)))).
    assert (Hs : step w1 (Sched h) = pass_gate h (pop_ret c v true) w1).
    { apply (step_sched_wake w1 h h wake); [done|done|]. simpl. lia. }
    destruct (decide (h = g)) as [->|Hne].
    + exists [Tick (Z.to_N (wake - now w)); Sched g], (now w1).
      split; [by repeat constructor|].
      change (run w [Tick (Z.to_N (wake - now w)); Sched g]) with (step w1 (Sched g)).
      rewrite Hs. destruct Hg as [Hg|[Hg|[wake' Hg]]]; rewrite Hh in Hg; try done.
      apply (f_equal (fun o => match o with
                               | Some (Sleeping _ k) => k
                               | _ => Ret (RetPop Nil)
                               end)) in Hg.
      cbv beta iota in Hg. apply gate_tail_inj in Hg as <-. left.
    + assert (Hg' : pool w !! g = Some (Runnable (gate r)) \/
                    pool w !! g = Some (WaitLock (gate_body r))).
      { destruct Hg as [Hg|[Hg|[wake' Hg]]]; auto.
        destruct (gs_ok_sleep w g wake' r (inv_pool w Hi g _ Hg))
          as (_ & _ & _ & _ & _ & Hl' & _). congruence. }
      destruct (gate_progress_free (step w1 (Sched h)) g r) as (acts & t & Ha & Ht).
      * by rewrite Hs.
      * rewrite Hs. simpl. by rewrite lookup_delete_ne.
      * exists ([Tick (Z.to_N (wake - now w)); Sched h] ++ acts), t.
        split; [|by rewrite run_app].
        apply Forall_app. split; [by repeat constructor|done].
  - apply gate_progress_free; [done|].
    destruct Hg as [Hg|[Hg|[wake' Hg]]]; auto.
    destruct (gs_ok_sleep w g wake' r (inv_pool w Hi g _ Hg))
      as (_ & _ & _ & _ & _ & Hl' & _). congruence.
Qed.

Lemma is_pop_state_gate r : is_pop_state (Runnable (gate r)).
Proof. done. Qed.

Lemma returned_micro w lb w' g :
  inv w -> micro w lb w' -> returned w g -> returned w' g.
Proof.
  intros Hi Hm (r & t & He & Hr).
  destruct (micro_trace_app w lb w' Hi Hm) as [pre Hpre].
  exists r, t. split; [|done]. rewrite Hpre. apply elem_of_app. by right.
Qed.

Lemma keep_micro w lb w' g s :
  inv w -> micro w lb w' -> pool w !! g = Some s -> is_pop_state s ->
  (exists s', pool w' !! g = Some s' /\ is_pop_state s') \/ returned w' g.
Proof.
  intros Hi Hm Hg Hs.
  pose proof (inv_fresh w Hi g s Hg) as Hlt.
  destruct Hm as
    [dt|v Hc|v r rq Hc Hr|v Hc Hr Hlt'|v Hc Hr Hle|c Hpop Hc Hb
    |c Hpop Hc Hb Hsq|c s0 sv sq Hpop Hc Hsq|c v b Hpop Hb Hsq|Hc|Hc
    |g0 r Hg0|g0 r h Hg0 Hl|g0 r Hg0 Hl Hsub|g0 r Hg0 Hl Hsub|g0 r wake Hg0 Hl Hwake].
  - left. simpl. eauto.
  - left. simpl. rewrite lookup_delete_ne by lia. eauto.
  - left. unfold ret, emit. cbn [pool with_pool].
    rewrite lookup_delete_ne by lia. rewrite release_recv_lookup.
    cbn [pool with_chan called]. rewrite Hg. case_decide as E; [|eauto].
    subst r. destruct (inv_recvq w Hi g) as (c & Hpop & Hp).
    { rewrite Hr. left. }
    rewrite Hp in Hg. injection Hg as <-. simpl.
    rewrite pop_k_true by done. eauto using is_pop_state_gate.
  - left. simpl. rewrite lookup_delete_ne by lia. eauto.
  - left. simpl. rewrite lookup_insert_ne by lia. eauto.
  - left. simpl. rewrite lookup_delete_ne by lia. eauto.
  - left. simpl. rewrite lookup_insert_ne by lia. eauto.
  - left. unfold park, emit. cbn [pool with_pool].
    rewrite lookup_insert_ne by lia. rewrite release_send_lookup.
    cbn [pool with_chan called]. rewrite Hg.
    case_decide; [|eauto]. destruct s; simpl; try done; eauto.
  - left. simpl. rewrite lookup_insert_ne by lia. eauto.
  - left. simpl. rewrite lookup_delete_ne by lia. eauto.
  - left.
    change (exists s', pool (ret (nextg w) (RetClose ErrNil)
                          (close_world (called CallClose w))) !! g = Some s'
                       /\ is_pop_state s').
    unfold ret, emit. cbn [pool with_pool].
    rewrite lookup_delete_ne by lia.
    rewrite (close_world_lookup _ g (inv_called w CallClose Hi)).
    change (chan (called CallClose w)) with (chan w).
    cbn [pool called]. rewrite Hg.
    destruct (decide (g ∈ map fst (sendq (chan w)))) as [Es|Es].
    { apply (list_elem_of_fmap (A:=gid * iface)) in Es as ([g' v] & -> & Hin).
      apply (inv_sendq w Hi) in Hin. simpl in Hin, Hg. rewrite Hin in Hg.
      by injection Hg as <-. }
    destruct (decide (g ∈ recvq (chan w))) as [Er|Er]; [|eauto].
    destruct (inv_recvq w Hi g Er) as (c & Hpop & Hp).
    rewrite Hp in Hg. injection Hg as <-. simpl.
    rewrite pop_k_false by done. eexists. split; [reflexivity|]. simpl.
    by apply is_pop_ret_pop_ret.
  - destruct (decide (g = g0)) as [->|Hne].
    + right. rewrite Hg0 in Hg. injection Hg as <-. simpl in Hs.
      exists r, (now w). split; [left|done].
    + left. simpl. rewrite lookup_delete_ne by done. eauto.
  - left. simpl. destruct (decide (g = g0)) as [->|Hne].
    + rewrite lookup_insert_eq. eexists. split; [reflexivity|done].
    + rewrite lookup_insert_ne by done. eauto.
  - left. simpl. destruct (decide (g = g0)) as [->|Hne].
    + rewrite lookup_insert_eq. eexists. split; [reflexivity|done].
    + rewrite lookup_insert_ne by done. eauto.
  - destruct (decide (g = g0)) as [->|Hne].
    + right. exists r, (now w). split; [left|].
      destruct Hg0 as [Hg0|Hg0].
      * destruct (gs_ok_gate w g0 r (inv_pool w Hi g0 _ Hg0)) as (c & v & ? & _ & ->).
        by apply is_pop_ret_pop_ret.
      * destruct (gs_ok_lock w g0 r (inv_pool w Hi g0 _ Hg0)) as (c & v & ? & _ & ->).
        by apply is_pop_ret_pop_ret.
    + left. simpl. rewrite lookup_delete_ne by done. eauto.
  - destruct (decide (g = g0)) as [->|Hne].
    + right. exists r, (now w). split; [left|].
      destruct (gs_ok_sleep w g0 wake r (inv_pool w Hi g0 _ Hg0))
        as (c & v & ? & _ & -> & _).
      by apply is_pop_ret_pop_ret.
    + left. simpl. rewrite lookup_delete_ne by done. eauto.
Qed.

Lemma linv_micro w lb w' : inv w -> linv w -> micro w lb w' -> linv w'.
Proof.
  intros Hi Hl Hm g Hg. rewrite (pop_calls_micro w lb w' Hi Hm) in Hg.
  apply elem_of_app in Hg as [Hg|Hg].
  { destruct (Hl g Hg) as [(s & Hp & Hs)|Hr]; [by eapply keep_micro|].
    right. by eapply returned_micro. }
  destruct lb as [|c|g']; try (by apply elem_of_nil in Hg).
  destruct (is_pop c) eqn:Hpop; [|by apply elem_of_nil in Hg].
  apply list_elem_of_singleton in Hg as ->.
  inversion Hm; subst; try done.
  - right. eexists _, _. split; [left|]. by apply is_pop_ret_pop_ret.
  - left. simpl. rewrite lookup_insert_eq. eexists. split; [reflexivity|done].
  - left. unfold park. cbn [pool with_pool]. rewrite lookup_insert_eq.
    eexists. split; [reflexivity|done].
  - left. simpl. rewrite lookup_insert_eq. eexists. split; [reflexivity|done].
Qed.

Lemma linv_run t0 dd cap l acts :
  NewCapacity t0 dd cap = Some l -> linv (run (boot t0 l) acts).
Proof.
  intros Hl. destruct (boot_ok t0 dd cap l Hl) as [Hi0 _].
  apply (run_preserves linv); auto.
  - clear. intros w lb w' Hi Hl Hm. by eapply linv_micro.
  - intros g Hg. by apply elem_of_nil in Hg.
Qed.

(** A caller that is not parked on the empty queue returns as soon as the
    scheduler lets it. *)
Lemma pop_progress w g s :
  inv w -> pool w !! g = Some s -> is_pop_state s -> g ∉ recvq (chan w) ->
  exists acts, Forall passive acts /\ returned (run w acts) g.
Proof.
  intros Hi Hg Hs Hq.
  destruct (inv_pool w Hi g s Hg)
    as [v Hin|err|c Hpop Hin Ht|c Hpop Ht|c v Hpop Ht|c v Hpop Ht|c v wake Hpop Ht Hl Hw];
    try done.
  - exists [Sched g]. split; [by repeat constructor|].
    exists (pop_ret c Nil false), (now w). split; [|done].
    change (run w [Sched g]) with (step w (Sched g)). cbn [step]. rewrite Hg. left.
  - destruct (gate_progress w g (pop_ret c v true) Hi) as (acts & t & Ha & Hr); [auto|].
    exists acts. split; [done|]. exists (pop_ret c v true), t. split; [done|].
    by apply is_pop_ret_pop_ret.
  - destruct (gate_progress w g (pop_ret c v true) Hi) as (acts & t & Ha & Hr); [auto|].
    exists acts. split; [done|]. exists (pop_ret c v true), t. split; [done|].
    by apply is_pop_ret_pop_ret.
  - destruct (gate_progress w g (pop_ret c v true) Hi) as (acts & t & Ha & Hr); [eauto|].
    exists acts. split; [done|]. exists (pop_ret c v true), t. split; [done|].
    by apply is_pop_ret_pop_ret.
Qed.

Lemma pops_return w g :
  inv w -> linv w -> g ∈ pop_calls (trace w) -> g ∉ recvq (chan w) ->
  exists acts, Forall passive acts /\ returned (run w acts) g.
Proof.
  intros Hi Hl Hg Hq. destruct (Hl g Hg) as [(s & Hp & Hs)|Hr].
  - by eapply pop_progress.
  - by exists [].
Qed.

(** A passive environment makes no call. *)
Lemma passive_calls w acts :
  inv w -> Forall passive acts ->
  pop_calls (trace (run w acts)) = pop_calls (trace w) /\
  pushed (trace (run w acts)) = pushed (trace w).
Proof.
  revert w. induction acts as [|a acts IH]; intros w Hi Ha; [done|].
  apply Forall_cons in Ha as [Ha Hacts]. simpl.
  destruct (IH (step w a) (inv_step w a Hi) Hacts) as [-> ->].
  assert (Hm : step w a = w \/ exists lb, micro w lb (step w a) /\
               forall c, lb <> LCall c).
  { destruct a as [c|g|dt]; [done| |].
    - destruct (step_micro_sched w g Hi) as [?|?]; [by left|].
      right. by exists (LGate g).
    - right. exists LTick. split; [apply m_tick|done]. }
  destruct Hm as [->|(lb & Hm & Hlb)]; [done|].
  destruct (micro_trace w lb _ Hi Hm) as (evs & -> & Hevs).
  assert (Hn : new_call w lb = []).
  { destruct lb; try done. by destruct (Hlb c). }
  rewrite Hn. simpl. unfold pop_calls, pushed. rewrite !chron_app.
  rewrite !(chron_none _ evs); [by rewrite !app_nil_r| |].
  - eapply Forall_impl; [exact Hevs|]. intros [] He; try done. by destruct (He g c t).
  - eapply Forall_impl; [exact Hevs|]. intros [] He; try done. by destruct (He g c t).
Qed.

Lemma passive_not_close (acts : list action) :
  Forall passive acts -> Forall (fun a => a <> Go CallClose) acts.
Proof. intros H. eapply Forall_impl; [exact H|]. by intros []. Qed.

(** C1: strict FIFO order.  In every run without a call of [Close], the
    goroutine that made the [i]-th call of [Pop] or [PopOk] returns the
    [i]-th value pushed and nothing else ([PopOk] with the flag [true]):
    nothing is reordered, handed out twice or lost; and once the [i]-th
    value has been pushed the call does return it, as soon as the scheduler
    lets the goroutines in the gate run. *)
Theorem fifo_order t0 dd cap l acts :
  NewCapacity t0 dd cap = Some l ->
  Forall (fun a => a <> Go CallClose) acts ->
  let w := run (boot t0 l) acts in
  forall i g,
    pop_calls (trace w) !! i = Some g ->
    (forall v t, EvReturn g (RetPop v) t ∈ trace w -> pushed (trace w) !! i = Some v) /\
    (forall v ok t,
        EvReturn g (RetPopOk v ok) t ∈ trace w ->
        ok = true /\ pushed (trace w) !! i = Some v) /\
    (forall v,
        pushed (trace w) !! i = Some v ->
        exists acts' t,
          Forall passive acts' /\
          (EvReturn g (RetPop v) t ∈ trace (run w acts') \/
           EvReturn g (RetPopOk v true) t ∈ trace (run w acts'))).
Proof.
  intros Hl Hacts w i g Hg.
  destruct (fifo_safety t0 dd cap l acts Hl Hacts i g Hg) as [H1 H2].
  split; [done|]. split; [done|]. intros v Hv.
  destruct (boot_ok t0 dd cap l Hl) as [Hi0 Ht0].
  pose proof (inv_run _ acts Hi0) as Hi. fold w in Hi.
  pose proof (tinv_run _ acts Hi0 Ht0) as Ht. fold w in Ht.
  pose proof (nodup_calls_run t0 dd cap l acts Hl) as Hnd. fold w in Hnd.
  pose proof (linv_run t0 dd cap l acts Hl) as Hlv. fold w in Hlv.
  assert (Hc : closed (chan w) = false).
  { apply closed_run; auto. unfold NewCapacity, makechan in Hl.
    destruct (cap <? 0); [done|]. by injection Hl as <-. }
  assert (Hq : g ∉ recvq (chan w)).
  { intros Hin. destruct (t_calls w Ht) as (rest & Hpc & _ & _ & Hrest).
    specialize (Hrest Hc). subst rest.
    destruct (inv_recv_wait w Hi) as [Hb Hs].
    { intros E. rewrite E in Hin. by apply elem_of_nil in Hin. }
    pose proof (t_fifo w Ht Hc) as Hf. rewrite Hb, Hs, !app_nil_r in Hf.
    apply list_elem_of_lookup_1 in Hin as [j Hj].
    assert (Hj' : pop_calls (trace w) !! (length ((deqs (trace w)).*1) + j)%nat = Some g).
    { rewrite Hpc. by rewrite lookup_app_r, Nat.add_comm, Nat.add_sub by lia. }
    assert (i = (length ((deqs (trace w)).*1) + j)%nat) as ->
      by (eapply NoDup_lookup; eauto).
    rewrite Hf in Hv. apply lookup_lt_Some in Hv.
    rewrite !length_fmap in *. lia. }
  destruct (pops_return w g Hi Hlv) as (acts' & Ha & r & t & Hr & Hk); auto.
  { by eapply list_elem_of_lookup_2. }
  destruct (passive_calls w acts' Hi Ha) as [Hpc Hpu].
  assert (Hw : run w acts' = run (boot t0 l) (acts ++ acts')) by (by rewrite run_app).
  destruct (fifo_safety t0 dd cap l (acts ++ acts') Hl) with (i := i) (g := g)
    as [S1 S2].
  { apply Forall_app. split; [done|]. by apply passive_not_close. }
  { by rewrite <- Hw, Hpc. }
  rewrite <- Hw, Hpu in S1, S2.
  exists acts', t. split; [done|]. destruct r as [|v'|v' ok|]; try done.
  - left. specialize (S1 v' t Hr). by replace v with v' by congruence.
  - right. destruct (S2 v' ok t Hr) as [-> Hv']. by replace v with v' by congruence.
Qed.

(** C4: [Close] drains, then signals the end.  After the values [vs] were
    pushed and the queue is closed, the [i]-th call of [PopOk] returns
    [(vs !! i, true)] while [i] is below the number of values and
    [(nil, false)] afterwards, [Pop] returns the value or [nil]; every such
    call does return, as soon as the scheduler lets it; a call made when
    the closed queue is empty returns in the step that makes it; no call
    ever panics. *)
Theorem close_drains t0 dd cap l acts1 acts2 :
  NewCapacity t0 dd cap = Some l ->
  closed (chan (run (boot t0 l) acts1)) = false ->
  sendq (chan (run (boot t0 l) acts1)) = [] ->
  let vs := pushed (trace (run (boot t0 l) acts1)) in
  let w := run (boot t0 l) (acts1 ++ Go CallClose :: acts2) in
  (forall i g,
      pop_calls (trace w) !! i = Some g ->
      (forall v ok t,
          EvReturn g (RetPopOk v ok) t ∈ trace w ->
          match vs !! i with
          | Some vi => v = vi /\ ok = true
          | None => v = Nil /\ ok = false
          end) /\
      (forall v t,
          EvReturn g (RetPop v) t ∈ trace w ->
          v = default Nil (vs !! i)) /\
      (exists acts' r t,
          Forall passive acts' /\ EvReturn g r t ∈ trace (run w acts') /\
          match vs !! i with
          | Some vi => r = RetPop vi \/ r = RetPopOk vi true
          | None => r = RetPop Nil \/ r = RetPopOk Nil false
          end)) /\
  (buf (chan w) = [] ->
   trace (step w (Go CallPopOk)) =
     EvReturn (nextg w) (RetPopOk Nil false) (now w)
       :: EvCall (nextg w) CallPopOk (now w) :: trace w /\
   trace (step w (Go CallPop)) =
     EvReturn (nextg w) (RetPop Nil) (now w)
       :: EvCall (nextg w) CallPop (now w) :: trace w) /\
  (forall g m, EvCrash g m ∉ trace w).
Proof.
  intros Hl Hc1 Hs1 vs w.
  destruct (drain_safety t0 dd cap l acts1 acts2 Hl Hc1 Hs1) as (S1 & S2 & S3).
  fold vs w in S1, S2, S3.
  split; [|by split]. intros i g Hg. destruct (S1 i g Hg) as [S11 S12].
  split; [done|]. split; [done|].
  destruct (boot_ok t0 dd cap l Hl) as [Hi0 Ht0].
  pose proof (inv_run _ (acts1 ++ Go CallClose :: acts2) Hi0) as Hi. fold w in Hi.
  pose proof (linv_run t0 dd cap l (acts1 ++ Go CallClose :: acts2) Hl) as Hlv.
  fold w in Hlv.
  assert (Hc : closed (chan w) = true).
  { unfold w. rewrite run_app. simpl.
    apply (accepted_closed_run (step (run (boot t0 l) acts1) (Go CallClose)) acts2).
    - apply inv_step. by apply inv_run.
    - apply closed_step; [by apply inv_run|]. by right. }
  destruct (pops_return w g Hi Hlv) as (acts' & Ha & r & t & Hr & Hk).
  { by eapply list_elem_of_lookup_2. }
  { destruct (inv_closed w Hi Hc) as [-> _]. apply not_elem_of_nil. }
  destruct (passive_calls w acts' Hi Ha) as [Hpc _].
  assert (Hw : run w acts' =
               run (boot t0 l) (acts1 ++ Go CallClose :: (acts2 ++ acts'))).
  { unfold w. by rewrite <- run_app, <- app_assoc. }
  destruct (drain_safety t0 dd cap l acts1 (acts2 ++ acts') Hl Hc1 Hs1)
    as (T1 & _ & _).
  fold vs in T1. rewrite <- Hw in T1.
  destruct (T1 i g) as [T11 T12]; [by rewrite Hpc|].
  exists acts', r, t. split; [done|]. split; [done|].
  destruct r as [|v|v ok|]; try done.
  - rewrite (T12 v t Hr). destruct (vs !! i); simpl; auto.
  - specialize (T11 v ok t Hr). destruct (vs !! i); destruct T11 as [-> ->]; auto.
Qed.

(** ** Further properties of the package *)

(** X1: No call panics: [Push] and [Close] recover from the panic of the
    closed channel, and the deferred [Unlock] always finds the mutex
    locked. *)
Theorem never_panics t0 dd cap l acts :
  NewCapacity t0 dd cap = Some l ->
  forall g m, EvCrash g m ∉ trace (run (boot t0 l) acts).
Proof.
  intros Hl. destruct (boot_ok t0 dd cap l Hl) as [Hi0 Ht0].
  apply (t_nocrash _ (tinv_run _ acts Hi0 Ht0)).
Qed.

(** X2: Between two steps the mutex is held by the goroutine asleep in
    [waitAndBumpNextTime] and by nobody else; so at most one goroutine is
    asleep there. *)
Theorem gate_mutual_exclusion t0 dd cap l acts :
  NewCapacity t0 dd cap = Some l ->
  let w := run (boot t0 l) acts in
  (forall g, lock (lim w) = Some g <->
             exists wake k, pool w !! g = Some (Sleeping wake k)) /\
  (forall g1 g2 wake1 k1 wake2 k2,
      pool w !! g1 = Some (Sleeping wake1 k1) ->
      pool w !! g2 = Some (Sleeping wake2 k2) -> g1 = g2).
Proof.
  intros Hl w. destruct (boot_ok t0 dd cap l Hl) as [Hi0 _].
  pose proof (inv_run _ acts Hi0) as Hi. fold w in Hi.
  assert (H : forall g wake k, pool w !! g = Some (Sleeping wake k) ->
                               lock (lim w) = Some g).
  { intros g wake k Hg.
    by destruct (gs_ok_sleeping w g wake k (inv_pool w Hi g _ Hg))
      as (_ & _ & _ & _ & _ & ? & _). }
  split.
  - intros g. split; [apply (inv_lock w Hi)|]. intros (wake & k & Hg). eauto.
  - intros g1 g2 wake1 k1 wake2 k2 H1 H2.
    apply H in H1. apply H in H2. congruence.
Qed.

(** X3: [New] never panics, and its queue buffers one value at most. *)
Theorem new_holds_one t0 dd :
  exists l, New (V:=V) t0 dd = Some l /\
    forall acts, (length (buf (values (lim (run (boot t0 l) acts)))) <= 1)%nat.
Proof.
  set (l := mkLimiter None t0 dd (mkChan 1 [] false [] []) : Limiter).
  exists l. split; [reflexivity|]. intros acts.
  assert (Hl : NewCapacity (V:=V) t0 dd 1 = Some l) by reflexivity.
  destruct (boot_ok t0 dd 1 l Hl) as [Hi0 _].
  pose proof (inv_cap _ (inv_run _ acts Hi0)) as Hc.
  destruct (dataqsiz_run t0 dd 1 l acts Hl) as [Hq _].
  unfold chan in *. rewrite Hq in Hc. lia.
Qed.

(** X4: Only callers of [Pop] and [PopOk] receive values, and each call
    receives one value at most. *)
Theorem one_value_per_call t0 dd cap l acts :
  NewCapacity t0 dd cap = Some l ->
  let w := run (boot t0 l) acts in
  NoDup (deqs (trace w)).*1 /\
  (forall g v, (g, v) ∈ deqs (trace w) ->
               g ∈ pop_calls (trace w) /\ took (trace w) g = Some v).
Proof.
  intros Hl w. destruct (boot_ok t0 dd cap l Hl) as [Hi0 Ht0].
  pose proof (tinv_run _ acts Hi0 Ht0) as Ht. fold w in Ht.
  pose proof (nodup_calls_run t0 dd cap l acts Hl) as Hnd. fold w in Hnd.
  destruct (t_calls w Ht) as (rest & Hpc & _).
  rewrite Hpc in Hnd. apply NoDup_app in Hnd as (Hnd & _ & _).
  split; [done|]. intros g v Hin. split.
  - rewrite Hpc. apply elem_of_app. left. apply list_elem_of_fmap. by exists (g, v).
  - destruct (deqs_took _ _ _ Hin) as [v' Hv'].
    destruct (took_deqs _ _ _ Hv') as [j Hj].
    apply list_elem_of_lookup_1 in Hin as [i Hi'].
    assert (i = j) as ->.
    { eapply NoDup_lookup; [exact Hnd| |]; rewrite list_lookup_fmap.
      - by rewrite Hi'.
      - by rewrite Hj. }
    congruence.
Qed.

Lemma pushed_micro w lb w' :
  inv w -> micro w lb w' ->
  exists extra, pushed (trace w') = pushed (trace w) ++ extra.
Proof.
  intros Hi Hm. destruct (micro_trace w lb w' Hi Hm) as (evs & -> & Hevs).
  unfold pushed. rewrite !chron_app. rewrite (chron_none _ evs).
  - rewrite app_nil_r. by eexists.
  - eapply Forall_impl; [exact Hevs|]. intros [] He; try done. by destruct (He g c t).
Qed.

Lemma accepted_close_micro w w' :
  micro w (LCall CallClose) w' -> accepted w' = accepted w.
Proof.
  intros Hm. inversion Hm; subst; try done.
  change (accepted (ret (nextg w) (RetClose ErrNil) (close_world (called CallClose w)))
          = accepted w).
  unfold accepted, chan. simpl.
  by destruct (close_world_rest (called CallClose w)) as (_ & -> & _ & ->).
Qed.

Lemma prefix_micro w lb w' :
  inv w -> tinv w -> micro w lb w' ->
  (exists rest, pushed (trace w) = accepted w ++ rest) ->
  exists rest, pushed (trace w') = accepted w' ++ rest.
Proof.
  intros Hi Ht Hm (rest & Hp).
  pose proof (tinv_micro w lb w' Hi Ht Hm) as Ht'.
  destruct (closed (chan w')) eqn:Hc'.
  - destruct (pushed_micro w lb w' Hi Hm) as (extra & Hx).
    destruct (closed (chan w)) eqn:Hc.
    + rewrite (accepted_closed_micro w lb w' Hi Hc Hm).
      exists (rest ++ extra). by rewrite Hx, Hp, app_assoc.
    + apply (closed_micro _ _ _ Hm) in Hc' as [?| ->]; [congruence|].
      rewrite (accepted_close_micro w w' Hm).
      exists (rest ++ extra). by rewrite Hx, Hp, app_assoc.
  - exists (sendq (chan w')).*2. unfold accepted.
    by rewrite (t_fifo w' Ht' Hc'), app_assoc.
Qed.

(** X5: In every run, with or without [Close], the values handed to the
    callers of [Pop] and [PopOk], followed by the values still in the
    buffer, are the first of the values passed to [Push], in the order of
    the calls: nothing is invented, repeated or reordered. *)
Theorem delivered_prefix_of_pushed t0 dd cap l acts :
  NewCapacity t0 dd cap = Some l ->
  let w := run (boot t0 l) acts in
  exists rest,
    pushed (trace w) = (deqs (trace w)).*2 ++ buf (values (lim w)) ++ rest.
Proof.
  intros Hl w. destruct (boot_ok t0 dd cap l Hl) as [Hi0 Ht0].
  assert (H : tinv w /\ exists rest, pushed (trace w) = accepted w ++ rest).
  { apply (run_preserves
             (fun w => tinv w /\ exists rest, pushed (trace w) = accepted w ++ rest));
      auto.
    - clear. intros w lb w' Hi [Ht Hp] Hm. split; [by eapply tinv_micro|].
      by eapply prefix_micro.
    - split; [done|]. exists []. unfold accepted, chan.
      unfold NewCapacity, makechan in Hl. destruct (cap <? 0); [done|].
      by injection Hl as <-. }
  destruct H as [_ (rest & Hp)]. exists rest.
  rewrite Hp. unfold accepted, chan. by rewrite app_assoc.
Qed.

Lemma accepted_close_step w :
  inv w -> accepted (step w (Go CallClose)) = accepted w.
Proof.
  intros Hi. destruct (step_micro_go w CallClose) as [Hm|(w1 & Hm1 & Hm2)].
  - by apply accepted_close_micro.
  - pose proof (accepted_close_micro w w1 Hm1) as H1.
    assert (Hc1 : closed (chan w1) = true).
    { apply (closed_micro _ _ _ Hm1). by right. }
    rewrite (accepted_closed_micro w1 _ _ (inv_micro _ _ _ Hi Hm1) Hc1 Hm2).
    done.
Qed.

(** X6: [Close] freezes what the queue will hand out: from then on the values
    received so far followed by the buffer are what they were when [Close]
    was called.  The values of the calls of [Push] that were blocked at
    that moment, and of all later ones, never come out. *)
Theorem close_freezes_contents t0 dd cap l acts acts' :
  NewCapacity t0 dd cap = Some l ->
  let w := run (boot t0 l) acts in
  let w' := run (step w (Go CallClose)) acts' in
  closed (values (lim w')) = true /\
  (deqs (trace w')).*2 ++ buf (values (lim w')) =
  (deqs (trace w)).*2 ++ buf (values (lim w)).
Proof.
  intros Hl w w'. destruct (boot_ok t0 dd cap l Hl) as [Hi0 _].
  pose proof (inv_run _ acts Hi0) as Hi. fold w in Hi.
  destruct (accepted_closed_run (step w (Go CallClose)) acts') as [Hc Ha].
  { by apply inv_step. }
  { apply closed_step; [done|]. by right. }
  fold w' in Hc, Ha. split; [done|].
  rewrite accepted_close_step in Ha by done. exact Ha.
Qed.

(** A goroutine that has received a value is in the gate or has returned
    that value. *)
Lemma taker_progress w g v :
  inv w -> tinv w -> linv w -> took (trace w) g = Some v ->
  exists acts' t,
    Forall passive acts' /\
    (EvReturn g (RetPop v) t ∈ trace (run w acts') \/
     EvReturn g (RetPopOk v true) t ∈ trace (run w acts')).
Proof.
  intros Hi Ht Hl Hv.
  assert (Hg : g ∈ pop_calls (trace w)).
  { destruct (took_deqs _ _ _ Hv) as [j Hj].
    destruct (t_calls w Ht) as (rest & -> & _).
    apply elem_of_app. left. apply list_elem_of_fmap. exists (g, v).
    split; [done|]. by eapply list_elem_of_lookup_2. }
  destruct (Hl g Hg) as [(s & Hp & Hs)|(r & t & Hr & Hk)].
  - assert (Hgate : exists c, is_pop c = true /\
              (pool w !! g = Some (Runnable (gate (pop_ret c v true))) \/
               pool w !! g = Some (WaitLock (gate_body (pop_ret c v true))) \/
               exists wake, pool w !! g = Some (Sleeping wake (gate_tail (pop_ret c v true))))).
    { destruct (inv_pool w Hi g s Hp)
        as [x Hin|err|c Hpop Hin Hn|c Hpop Hn|c v' Hpop Hv'|c v' Hpop Hv'
           |c v' wake Hpop Hv' Hlk Hw]; try done; try congruence.
      all: exists c; split; [done|]; replace v with v' by congruence; eauto. }
    destruct Hgate as (c & Hpop & Hstate).
    destruct (gate_progress w g _ Hi Hstate) as (acts' & t & Ha & Hr).
    exists acts', t. split; [done|]. destruct c; try done; auto.
  - exists [], t. split; [done|]. pose proof (t_rets w Ht g r t Hr) as Hok.
    destruct r as [|v'|v' ok|]; try done; simpl in Hok.
    + left. destruct Hok as [?|(? & _)]; [|congruence].
      by replace v with v' by congruence.
    + right. destruct Hok as [[? ->]|(? & _)]; [|congruence].
      by replace v with v' by congruence.
Qed.

(** X7: Whoever has received a value gets through the gate and returns it:
    the mutex is always given back, so the goroutines in
    [waitAndBumpNextTime] cannot block each other for ever. *)
Theorem taker_returns t0 dd cap l acts :
  NewCapacity t0 dd cap = Some l ->
  let w := run (boot t0 l) acts in
  forall g v,
    took (trace w) g = Some v ->
    exists acts' t,
      Forall passive acts' /\
      (EvReturn g (RetPop v) t ∈ trace (run w acts') \/
       EvReturn g (RetPopOk v true) t ∈ trace (run w acts')).
Proof.
  intros Hl w g v. destruct (boot_ok t0 dd cap l Hl) as [Hi0 Ht0].
  apply taker_progress.
  - by apply inv_run.
  - by apply tinv_run.
  - by eapply linv_run.
Qed.

Lemma step_push_buffered w x :
  closed (chan w) = false -> recvq (chan w) = [] ->
  Z.of_nat (length (buf (chan w))) < dataqsiz (chan w) ->
  step w (Go (CallPush x)) =
    ret (nextg w) (RetPush ErrNil)
      (with_chan (mkChan (dataqsiz (chan w)) (buf (chan w) ++ [x]) false []
                         (sendq (chan w)))
         (called (CallPush x) w)).
Proof.
  intros Hc Hr Hlt. rewrite step_go_push. cbv zeta. unfold chansend.
  rewrite Hc, Hr. destruct (Z.ltb_spec (Z.of_nat (length (buf (chan w))))
                              (dataqsiz (chan w))); [done|lia].
Qed.

Lemma enter_gate_outcome g r w :
  (exists t, EvReturn g r t ∈ trace (enter_gate g r w)) \/
  pool (enter_gate g r w) !! g = Some (WaitLock (gate_body r)) \/
  (exists wake, pool (enter_gate g r w) !! g = Some (Sleeping wake (gate_tail r))).
Proof.
  unfold enter_gate, run_gate. destruct (lock (lim w)).
  - right. left. simpl. apply lookup_insert_eq.
  - destruct (_ <=? 0).
    + left. eexists. left.
    + right. right. eexists. simpl. apply lookup_insert_eq.
Qed.

(** X8: A value pushed on an idle, empty, open queue is what the next call
    of [Pop] or [PopOk] receives and returns, whatever the capacity: with
    room the value waits in the buffer, without room the sender waits and
    the receiver takes the value from it. *)
Theorem push_pop_round_trip t0 dd cap l acts x c :
  NewCapacity t0 dd cap = Some l -> is_pop c = true ->
  let w := run (boot t0 l) acts in
  closed (values (lim w)) = false -> buf (values (lim w)) = [] ->
  recvq (values (lim w)) = [] -> sendq (values (lim w)) = [] ->
  let w1 := step w (Go (CallPush x)) in
  let w2 := step w1 (Go c) in
  took (trace w2) (nextg w1) = Some x /\
  exists acts' t,
    Forall passive acts' /\
    EvReturn (nextg w1) (pop_ret c x true) t ∈ trace (run w2 acts').
Proof.
  intros Hl Hpop w Hc Hb Hr Hs w1 w2.
  destruct (boot_ok t0 dd cap l Hl) as [Hi0 _].
  pose proof (inv_run _ acts Hi0) as Hi. fold w in Hi.
  pose proof (inv_step w (Go (CallPush x)) Hi) as Hi1. fold w1 in Hi1.
  pose proof (inv_step w1 (Go c) Hi1) as Hi2. fold w2 in Hi2.
  destruct (dataqsiz_run t0 dd cap l acts Hl) as [Hq Hcap]. fold w in Hq.
  assert (Hw2 : exists W, w2 = enter_gate (nextg w1) (pop_ret c x true) W /\
                          took (trace W) (nextg w1) = Some x).
  { unfold w2. rewrite step_go_pop by done. cbv zeta. unfold chanrecv.
    destruct (decide (cap = 0)) as [->|Hne].
    - assert (Hle : dataqsiz (chan w) <= Z.of_nat (length (buf (chan w)))).
      { unfold chan in *. rewrite Hb, Hq. simpl. lia. }
      pose proof (step_push_parks w x Hc Hr Hle) as E. fold w1 in E.
      rewrite E. unfold chan in *. simpl. rewrite ?Hc, ?Hb, ?Hs. simpl.
      eexists. split; [reflexivity|]. simpl. by rewrite decide_True.
    - assert (Hlt : Z.of_nat (length (buf (chan w))) < dataqsiz (chan w)).
      { unfold chan in *. rewrite Hb, Hq. simpl. lia. }
      pose proof (step_push_buffered w x Hc Hr Hlt) as E. fold w1 in E.
      rewrite E. unfold chan in *. simpl. rewrite ?Hc, ?Hb, ?Hs. simpl.
      eexists. split; [reflexivity|]. simpl. by rewrite decide_True. }
  destruct Hw2 as (W & HW & Htook). split.
  { by rewrite HW, took_enter_gate. }
  destruct (enter_gate_outcome (nextg w1) (pop_ret c x true) W) as [[t Ht]|Hst].
  - exists [], t. split; [done|]. by rewrite HW.
  - rewrite <- HW in Hst. apply gate_progress; auto.
Qed.

Lemma gate_untouched_call w c :
  gate_untouched w (called c w).
Proof. unfold gate_untouched, called. simpl. repeat split; auto; lia. Qed.

Lemma micro_gate_cases w lb w' :
  inv w -> micro w lb w' -> gate_untouched w w' \/ gate_left w w'.
Proof.
  intros Hi Hm. destruct Hm as
    [dt|v Hc|v r rq Hc Hr|v Hc Hr Hlt|v Hc Hr Hle|c Hpop Hc Hb
    |c Hpop Hc Hb Hs|c s sv sq Hpop Hc Hs|c v b Hpop Hb Hs|Hc|Hc
    |g r Hg|g r h Hg Hl|g r Hg Hl Hsub|g r Hg Hl Hsub|g r wake Hg Hl Hwake].
  - left. unfold gate_untouched. simpl. repeat split; auto; lia.
  - left. unfold gate_untouched. simpl. repeat split; auto; lia.
  - left. unfold gate_untouched. simpl. rewrite ?lim_release_recv.
    destruct (release_recv_rest v true r
      (with_chan (mkChan (dataqsiz (chan w)) (buf (chan w)) false rq
                         (sendq (chan w))) (called (CallPush v) w)))
      as (-> & _ & _ & ->). simpl. repeat split; auto; lia.
  - left. unfold gate_untouched. simpl. repeat split; auto; lia.
  - left. unfold gate_untouched. simpl. repeat split; auto; lia.
  - left. unfold gate_untouched, ret, emit, called; cbn [trace lim now with_pool].
    rewrite releases_ret_other.
    + simpl. repeat split; auto; lia.
    + right. simpl. apply (inv_fresh_took w Hi). lia.
  - left. unfold gate_untouched. simpl. repeat split; auto; lia.
  - left. unfold gate_untouched. simpl. rewrite ?lim_release_send.
    destruct (release_send_rest true s
      (with_chan (mkChan (dataqsiz (chan w))
                    (match buf (chan w) with [] => [] | _ :: b => b ++ [sv] end)
                    false (recvq (chan w)) sq) (called c w)))
      as (-> & _ & _ & ->). simpl. repeat split; auto; lia.
  - left. unfold gate_untouched. simpl. repeat split; auto; lia.
  - left. unfold gate_untouched. simpl. repeat split; auto; lia.
  - left.
    change (gate_untouched w
              (ret (nextg w) (RetClose ErrNil) (close_world (called CallClose w)))).
    destruct (close_world_rest (called CallClose w)) as (Hn & Hl & _ & Ht).
    unfold gate_untouched. simpl. rewrite Hn, Hl, Ht. simpl.
    repeat split; auto; lia.
  - left. unfold gate_untouched, ret, emit; cbn [trace lim now with_pool].
    assert (Hr : releases (EvReturn g r (now w) :: trace w) = releases (trace w)).
    { pose proof (inv_pool w Hi g _ Hg) as Hok. inversion Hok; subst.
      - by apply releases_ret_other; left.
      - by apply releases_ret_other; right. }
    rewrite Hr. repeat split; auto; lia.
  - left. unfold gate_untouched. simpl. repeat split; auto; lia.
  - left. unfold gate_untouched. simpl. repeat split; auto; lia.
  - right. destruct Hg as [Hg|Hg].
    + destruct (gs_ok_gate w g r (inv_pool w Hi g _ Hg)) as (c & v & ? & ? & ->).
      by exists g, c, v.
    + destruct (gs_ok_lock w g r (inv_pool w Hi g _ Hg)) as (c & v & ? & ? & ->).
      by exists g, c, v.
  - right. destruct (gs_ok_sleep w g wake r (inv_pool w Hi g _ Hg))
      as (c & v & ? & ? & -> & _).
    by exists g, c, v.
Qed.

Lemma winv_micro t0 w lb w' : inv w -> winv t0 w -> micro w lb w' -> winv t0 w'.
Proof.
  intros Hi [H1 H2 H3 H4] Hm.
  destruct (micro_gate_cases w lb w' Hi Hm)
    as [(Hn & Hd & Hr & Hnow & Hl)|(g & c & v & Hc & Hv & ->)].
  - split; rewrite ?Hn, ?Hd, ?Hr; auto; try lia.
    intros Hd0. destruct Hl as [->|[_ Hsub]]; [auto|].
    assert (time.Sub (nextTime (lim w)) (now w) <= 0); [|lia].
    apply sub_le_0. lia.
  - split; unfold pass_gate, ret, emit, with_pool, with_lock, with_nextTime;
      cbn [trace lim d nextTime now lock].
    + done.
    + unfold time.Add. lia.
    + done.
    + by rewrite releases_ret_pop.
Qed.

Lemma winv_run t0 dd cap l acts :
  NewCapacity t0 dd cap = Some l ->
  winv t0 (run (boot t0 l) acts) /\ d (lim (run (boot t0 l) acts)) = dd.
Proof.
  intros Hl. destruct (boot_ok t0 dd cap l Hl) as [Hi0 _]. split.
  - apply (run_preserves (winv t0)); auto.
    + clear. intros w lb w' Hi Hw Hm. by eapply winv_micro.
    + unfold NewCapacity in Hl. destruct (makechan cap); [|done].
      injection Hl as <-. split; simpl; auto; lia.
  - by eapply d_run.
Qed.






Lemma pinv_run t0 dd cap l acts :
  NewCapacity t0 dd cap = Some l -> time.is_Duration dd ->
  pinv (run (boot t0 l) acts).
Proof.
  intros Hl Hd. destruct (boot_ok t0 dd cap l Hl) as [Hi0 _].
  apply (run_preserves pinv); auto.
  - clear. intros w lb w' Hi Hp Hm. by eapply pinv_micro.
  - by eapply pinv_boot.
Qed.

(** X11: The watermark is the last release plus the interval, and the time of
    construction as long as nothing has been released. *)
Theorem watermark_tracks_releases t0 dd cap l acts :
  NewCapacity t0 dd cap = Some l -> time.is_Duration dd ->
  let w := run (boot t0 l) acts in
  nextTime (lim w) =
    match head (releases (trace w)) with
    | Some t => time.Add t dd
    | None => t0
    end.
Proof.
  intros Hl Hd w.
  pose proof (pinv_run t0 dd cap l acts Hl Hd) as Hp. fold w in Hp.
  destruct (winv_run t0 dd cap l acts Hl) as [[_ _ _ H4] Hdd].
  fold w in H4, Hdd.
  destruct (releases (trace w)) as [|t ts] eqn:E; simpl.
  - by apply H4.
  - rewrite <- Hdd. apply (p_mark w Hp). by rewrite E.
Qed.



(** While nobody pushes or closes, a parked receiver stays where it is. *)
Lemma waiting_micro w lb w' g k :
  inv w -> micro w lb w' -> calm_label lb ->
  closed (chan w) = false -> g ∈ recvq (chan w) ->
  pool w !! g = Some (WaitRecv k) ->
  closed (chan w') = false /\
  (exists extra, recvq (chan w') = recvq (chan w) ++ extra) /\
  pool w' !! g = Some (WaitRecv k).
Proof.
  intros Hi Hm Hq Hc Hin Hp.
  assert (Hne : recvq (chan w) <> []) by (intros E; rewrite E in Hin; by apply elem_of_nil in Hin).
  destruct (inv_recv_wait w Hi Hne) as [Hb Hs].
  pose proof (inv_fresh w Hi g _ Hp) as Hlt.
  destruct Hm as
    [dt|v Hc'|v r0 rq Hc' Hr0|v Hc' Hr0 Hlt'|v Hc' Hr0 Hle|c Hpop Hc' Hb'
    |c Hpop Hc' Hb' Hs'|c s sv sq Hpop Hc' Hs'|c v b Hpop Hb' Hs'|Hc'|Hc'
    |g0 r0 Hg|g0 r0 h Hg Hl|g0 r0 Hg Hl Hsub|g0 r0 Hg Hl Hsub|g0 r0 wake Hg Hl Hwake];
    try done; try congruence.
  all: unfold chan in *; simpl.
  - repeat split; auto. exists []. by rewrite app_nil_r.
  - repeat split; auto; [by eexists|]. by rewrite lookup_insert_ne by lia.
  - repeat split; auto; [exists []; by rewrite app_nil_r|].
    rewrite lookup_delete_ne; [done|]. intros ->. congruence.
  - repeat split; auto; [exists []; by rewrite app_nil_r|].
    rewrite lookup_insert_ne; [done|]. intros ->. congruence.
  - repeat split; auto; [exists []; by rewrite app_nil_r|].
    rewrite lookup_insert_ne; [done|]. intros ->. destruct Hg; congruence.
  - repeat split; auto; [exists []; by rewrite app_nil_r|].
    rewrite lookup_delete_ne; [done|]. intros ->. destruct Hg; congruence.
  - repeat split; auto; [exists []; by rewrite app_nil_r|].
    rewrite lookup_delete_ne; [done|]. intros ->. congruence.
Qed.

Lemma calm_step w a g k :
  inv w -> calm a ->
  closed (chan w) = false -> g ∈ recvq (chan w) ->
  pool w !! g = Some (WaitRecv k) ->
  closed (chan (step w a)) = false /\
  (exists extra, recvq (chan (step w a)) = recvq (chan w) ++ extra) /\
  pool (step w a) !! g = Some (WaitRecv k).
Proof.
  intros Hi Hq Hc Hin Hp. destruct a as [c|g'|dt].
  - assert (Hql : calm_label (LCall c)) by (by destruct c).
    destruct (step_micro_go w c) as [Hm|(w1 & Hm1 & Hm2)].
    + by eapply waiting_micro.
    + destruct (waiting_micro w _ w1 g k Hi Hm1 Hql Hc Hin Hp)
        as (Hc1 & (extra1 & Hr1) & Hp1).
      assert (Hin1 : g ∈ recvq (chan w1)).
      { rewrite Hr1. apply elem_of_app. by left. }
      destruct (waiting_micro w1 _ _ g k (inv_micro _ _ _ Hi Hm1) Hm2 I Hc1 Hin1 Hp1)
        as (Hc2 & (extra2 & Hr2) & Hp2).
      repeat split; [done| |done]. exists (extra1 ++ extra2).
      by rewrite Hr2, Hr1, app_assoc.
  - destruct (step_micro_sched w g' Hi) as [->|Hm].
    + repeat split; auto. exists []. by rewrite app_nil_r.
    + by eapply (waiting_micro w _ _ g k Hi Hm).
  - by eapply (waiting_micro w _ _ g k Hi (m_tick w dt)).
Qed.

Lemma calm_run w acts g k :
  inv w -> Forall calm acts ->
  closed (chan w) = false -> g ∈ recvq (chan w) ->
  pool w !! g = Some (WaitRecv k) ->
  closed (chan (run w acts)) = false /\
  (exists extra, recvq (chan (run w acts)) = recvq (chan w) ++ extra) /\
  pool (run w acts) !! g = Some (WaitRecv k).
Proof.
  revert w. induction acts as [|a acts IH]; intros w Hi Hq Hc Hin Hp.
  - repeat split; auto. exists []. by rewrite app_nil_r.
  - apply Forall_cons in Hq as [Ha Hq]. simpl.
    destruct (calm_step w a g k Hi Ha Hc Hin Hp) as (Hc1 & (extra1 & Hr1) & Hp1).
    destruct (IH (step w a)) as (Hc2 & (extra2 & Hr2) & Hp2); auto.
    { by apply inv_step. }
    { rewrite Hr1. apply elem_of_app. by left. }
    repeat split; [done| |done]. exists (extra1 ++ extra2).
    by rewrite Hr2, Hr1, app_assoc.
Qed.

(** [Pop] finds the queue open and nothing to take. *)
Lemma step_pop_parks w c :
  is_pop c = true ->
  closed (chan w) = false -> buf (chan w) = [] -> sendq (chan w) = [] ->
  step w (Go c) =
    park (nextg w) (WaitRecv (pop_k c))
      (with_chan (mkChan (dataqsiz (chan w)) [] false (recvq (chan w) ++ [nextg w]) [])
         (called c w)).
Proof.
  intros Hpop Hc Hb Hs. rewrite step_go_pop by done. cbv zeta. unfold chanrecv.
  by rewrite Hc, Hb, Hs.
Qed.

(** A push hands its value to the receiver that is first in line. *)
Lemma push_releases_receiver w c g x rq :
  inv w -> is_pop c = true ->
  closed (chan w) = false -> recvq (chan w) = g :: rq ->
  pool w !! g = Some (WaitRecv (pop_k c)) ->
  took (trace (step w (Go (CallPush x)))) g = Some x /\
  pool (step w (Go (CallPush x))) !! g = Some (Runnable (gate (pop_ret c x true))).
Proof.
  intros Hi Hpop Hc Hr Hp.
  pose proof (inv_fresh w Hi g _ Hp) as Hlt.
  rewrite step_go_push. cbv zeta. unfold chansend. rewrite Hc, Hr. split.
  - unfold ret, emit. cbn [trace with_pool took]. by rewrite decide_True.
  - unfold ret, emit. cbn [pool with_pool]. rewrite lookup_delete_ne by lia.
    rewrite release_recv_lookup, decide_True by done.
    cbn [pool with_chan called]. rewrite Hp. simpl. by rewrite pop_k_true.
Qed.

(** [Close] wakes every parked receiver with the closed signal. *)
Lemma close_releases_receiver w c g :
  inv w -> is_pop c = true -> closed (chan w) = false -> g ∈ recvq (chan w) ->
  pool w !! g = Some (WaitRecv (pop_k c)) ->
  pool (step w (Go CallClose)) !! g = Some (Runnable (Ret (pop_ret c Nil false))) /\
  now (step w (Go CallClose)) = now w.
Proof.
  intros Hi Hpop Hcl Hin Hp.
  pose proof (inv_fresh w Hi g _ Hp) as Hlt.
  rewrite step_go_close. cbv zeta. unfold closechan. rewrite Hcl.
  change (pool (ret (nextg w) (RetClose ErrNil) (close_world (called CallClose w)))
            !! g = Some (Runnable (Ret (pop_ret c Nil false))) /\
          now (ret (nextg w) (RetClose ErrNil) (close_world (called CallClose w)))
          = now w).
  split.
  - cbn [ret emit with_pool pool]. rewrite lookup_delete_ne by lia.
    rewrite (close_world_lookup _ _ (inv_called w CallClose Hi)).
    change (chan (called CallClose w)) with (chan w). cbn [pool called].
    destruct (inv_recv_wait w Hi) as [_ Hs].
    { intros E. rewrite E in Hin. by apply elem_of_nil in Hin. }
    destruct (decide (g ∈ map fst (sendq (chan w)))) as [E|_].
    { rewrite Hs in E. by apply elem_of_nil in E. }
    rewrite decide_True by done. rewrite Hp. simpl. by rewrite pop_k_false.
  - simpl. by destruct (close_world_rest (called CallClose w)) as (-> & _).
Qed.

(** X13: A call of [Pop] or [PopOk] on an open queue with nothing to take
    parks, and stays parked without a result as long as nobody pushes or
    closes.  When it is first in line the next [Push] hands it its value,
    which the call then returns; [Close] makes it return [nil] (and
    [false]) as soon as it runs. *)
Theorem pop_waits_for_push t0 dd cap l acts c acts' x :
  NewCapacity t0 dd cap = Some l -> is_pop c = true ->
  let w := run (boot t0 l) acts in
  closed (values (lim w)) = false -> buf (values (lim w)) = [] ->
  sendq (values (lim w)) = [] ->
  Forall calm acts' ->
  let g := nextg w in
  let w' := run (step w (Go c)) acts' in
  (exists k, pool w' !! g = Some (WaitRecv k)) /\
  (forall r t, EvReturn g r t ∉ trace w') /\
  (recvq (values (lim w)) = [] ->
   took (trace (step w' (Go (CallPush x)))) g = Some x /\
   exists acts'' t,
     Forall passive acts'' /\
     EvReturn g (pop_ret c x true) t
       ∈ trace (run (step w' (Go (CallPush x))) acts'')) /\
  trace (run w' [Go CallClose; Sched g]) =
    EvReturn g (pop_ret c Nil false) (now w')
      :: EvReturn (nextg w') (RetClose ErrNil) (now w')
      :: EvCall (nextg w') CallClose (now w') :: trace w'.
Proof.
  intros Hl Hpop w Hc Hb Hs Hq g w'.
  destruct (boot_ok t0 dd cap l Hl) as [Hi0 Ht0].
  pose proof (inv_run _ acts Hi0) as Hi. fold w in Hi.
  pose proof (tinv_run _ acts Hi0 Ht0) as Ht. fold w in Ht.
  pose proof (inv_step w (Go c) Hi) as Hi1.
  pose proof (tinv_step w (Go c) Hi Ht) as Ht1.
  pose proof (step_pop_parks w c Hpop Hc Hb Hs) as Hstep.
  assert (Hc1 : closed (chan (step w (Go c))) = false) by (by rewrite Hstep).
  assert (Hr1 : recvq (chan (step w (Go c))) = recvq (chan w) ++ [g])
    by (by rewrite Hstep).
  assert (Hp1 : pool (step w (Go c)) !! g = Some (WaitRecv (pop_k c))).
  { rewrite Hstep. simpl. apply lookup_insert_eq. }
  assert (Hin1 : g ∈ recvq (chan (step w (Go c)))).
  { rewrite Hr1. apply elem_of_app. right. left. }
  destruct (calm_run _ acts' g _ Hi1 Hq Hc1 Hin1 Hp1) as (Hc' & (extra & Hr') & Hp').
  fold w' in Hc', Hr', Hp'.
  pose proof (inv_run _ acts' Hi1) as Hi'. fold w' in Hi'.
  pose proof (tinv_run _ acts' Hi1 Ht1) as Ht'. fold w' in Ht'.
  assert (Hin' : g ∈ recvq (chan w')).
  { rewrite Hr'. apply elem_of_app. by left. }
  split; [by eexists|]. split; [intros r t; by eapply (t_live w' Ht')|]. split.
  - intros Hr0. unfold chan in *. rewrite Hr1, Hr0 in Hr'. simpl in Hr'.
    destruct (push_releases_receiver w' c g x extra Hi' Hpop Hc' Hr' Hp')
      as [Htook Hpool].
    split; [done|]. apply gate_progress; [by apply inv_step|auto].
  - destruct (close_releases_receiver w' c g Hi' Hpop Hc' Hin' Hp') as [Hpool Hnow].
    change (run w' [Go CallClose; Sched g])
      with (step (step w' (Go CallClose)) (Sched g)).
    rewrite (sched_returns _ g _ Hpool), Hnow.
    rewrite step_close_trace by done. by rewrite Hc'.
Qed.

(** ** [ErrClosed] *)

(** Where a new return comes from: a call that returns in the step that
    makes it, a goroutine that was released with its result, or a
    goroutine that leaves the gate. *)
Lemma new_return_cases w lb w' pre g r t :
  inv w -> micro w lb w' -> trace w' = pre ++ trace w ->
  EvReturn g r t ∈ pre ->
  t = now w /\
  ((g = nextg w /\ exists v, lb = LCall (CallPush v) /\
      r = RetPush (if closed (chan w) then ErrClosed else ErrNil)) \/
   (g = nextg w /\ exists c, is_pop c = true /\ r = pop_ret c Nil false) \/
   (g = nextg w /\ lb = LCall CallClose /\
      r = RetClose (if closed (chan w) then ErrClosed else ErrNil)) \/
   pool w !! g = Some (Runnable (Ret r)) \/
   (exists c v s, is_pop c = true /\ r = pop_ret c v true /\ pool w !! g = Some s)).
Proof.
  intros Hi Hm Hpre He. destruct Hm as
    [dt|v Hc|v r0 rq Hc Hr0|v Hc Hr0 Hlt|v Hc Hr0 Hle|c Hpop Hc Hb
    |c Hpop Hc Hb Hs|c s sv sq Hpop Hc Hs|c v b Hpop Hb Hs|Hc|Hc
    |g0 r0 Hg|g0 r0 h Hg Hl|g0 r0 Hg Hl Hsub|g0 r0 Hg Hl Hsub|g0 r0 wake Hg Hl Hwake].
  11:{ change (trace (ret (nextg w) (RetClose ErrNil) (close_world (called CallClose w)))
               = pre ++ trace w) in Hpre.
       simpl in Hpre.
       destruct (close_world_rest (called CallClose w)) as (Hn & _ & _ & Htr).
       rewrite Htr, Hn in Hpre. simpl in Hpre.
       apply (app_inv_tail _ [_; _]) in Hpre. subst pre.
       in_trace He; [|by apply elem_of_nil in He].
       injection He as -> -> ->. split; [done|]. right. right. left.
       by rewrite Hc. }
  all: simpl in Hpre.
  all: try (destruct (release_recv_rest v true r0
      (with_chan (mkChan (dataqsiz (chan w)) (buf (chan w)) false rq
                         (sendq (chan w))) (called (CallPush v) w)))
      as (Hn & _ & _ & Htr); rewrite Htr, ?Hn in Hpre; simpl in Hpre).
  all: try (destruct (release_send_rest true s
      (with_chan (mkChan (dataqsiz (chan w))
                    (match buf (chan w) with [] => [] | _ :: b => b ++ [sv] end)
                    false (recvq (chan w)) sq) (called c w)))
      as (Hn & _ & _ & Htr); rewrite Htr, ?Hn in Hpre; simpl in Hpre).
  all: first [ apply (app_inv_tail _ []) in Hpre
             | apply (app_inv_tail _ [_]) in Hpre
             | apply (app_inv_tail _ [_; _]) in Hpre
             | apply (app_inv_tail _ [_; _; _]) in Hpre ]; subst pre.
  all: in_trace He; try (by apply elem_of_nil in He).
  all: injection He as -> -> ->; (split; [done|]).
  - left. split; [done|]. exists v. by rewrite Hc.
  - left. split; [done|]. exists v. by rewrite Hc.
  - left. split; [done|]. exists v. by rewrite Hc.
  - right. left. split; [done|]. by exists c.
  - right. right. left. by rewrite Hc.
  - right. right. right. by left.
  - right. right. right. right. destruct Hg as [Hg|Hg].
    + destruct (gs_ok_gate w g0 r0 (inv_pool w Hi g0 _ Hg)) as (c & v & ? & _ & ->).
      by eexists c, v, _.
    + destruct (gs_ok_lock w g0 r0 (inv_pool w Hi g0 _ Hg)) as (c & v & ? & _ & ->).
      by eexists c, v, _.
  - right. right. right. right.
    destruct (gs_ok_sleep w g0 wake r0 (inv_pool w Hi g0 _ Hg))
      as (c & v & ? & _ & -> & _).
    by eexists c, v, _.
Qed.

(** A transition makes one goroutine return at most. *)
Lemma new_return_unique w lb w' pre g1 r1 t1 g2 r2 t2 :
  inv w -> micro w lb w' -> trace w' = pre ++ trace w ->
  EvReturn g1 r1 t1 ∈ pre -> EvReturn g2 r2 t2 ∈ pre ->
  g1 = g2 /\ r1 = r2 /\ t1 = t2.
Proof.
  intros Hi Hm Hpre He1 He2. destruct Hm as
    [dt|v Hc|v r0 rq Hc Hr0|v Hc Hr0 Hlt|v Hc Hr0 Hle|c Hpop Hc Hb
    |c Hpop Hc Hb Hs|c s sv sq Hpop Hc Hs|c v b Hpop Hb Hs|Hc|Hc
    |g0 r0 Hg|g0 r0 h Hg Hl|g0 r0 Hg Hl Hsub|g0 r0 Hg Hl Hsub|g0 r0 wake Hg Hl Hwake].
  11:{ change (trace (ret (nextg w) (RetClose ErrNil) (close_world (called CallClose w)))
               = pre ++ trace w) in Hpre.
       simpl in Hpre.
       destruct (close_world_rest (called CallClose w)) as (Hn & _ & _ & Htr).
       rewrite Htr, Hn in Hpre. simpl in Hpre.
       apply (app_inv_tail _ [_; _]) in Hpre. subst pre.
       in_trace He1; [|by apply elem_of_nil in He1].
       in_trace He2; [|by apply elem_of_nil in He2].
       by simplify_eq. }
  all: simpl in Hpre.
  all: try (destruct (release_recv_rest v true r0
      (with_chan (mkChan (dataqsiz (chan w)) (buf (chan w)) false rq
                         (sendq (chan w))) (called (CallPush v) w)))
      as (Hn & _ & _ & Htr); rewrite Htr, ?Hn in Hpre; simpl in Hpre).
  all: try (destruct (release_send_rest true s
      (with_chan (mkChan (dataqsiz (chan w))
                    (match buf (chan w) with [] => [] | _ :: b => b ++ [sv] end)
                    false (recvq (chan w)) sq) (called c w)))
      as (Hn & _ & _ & Htr); rewrite Htr, ?Hn in Hpre; simpl in Hpre).
  all: first [ apply (app_inv_tail _ []) in Hpre
             | apply (app_inv_tail _ [_]) in Hpre
             | apply (app_inv_tail _ [_; _]) in Hpre
             | apply (app_inv_tail _ [_; _; _]) in Hpre ]; subst pre.
  all: in_trace He1; try (by apply elem_of_nil in He1).
  all: in_trace He2; try (by apply elem_of_nil in He2).
  all: by simplify_eq.
Qed.

Lemma new_return_fresh w lb w' pre g r t r' t' :
  inv w -> tinv w -> micro w lb w' -> trace w' = pre ++ trace w ->
  EvReturn g r t ∈ pre -> EvReturn g r' t' ∉ trace w.
Proof.
  intros Hi Ht Hm Hpre He Hold.
  assert (Hg : g = nextg w \/ exists s, pool w !! g = Some s).
  { destruct (new_return_cases w lb w' pre g r t Hi Hm Hpre He)
      as [_ [(? & _)|[(? & _)|[(? & _)|[Hp|(c & v & s & _ & _ & Hp)]]]]]; eauto. }
  destruct Hg as [->|[s Hp]].
  - apply (t_lt w Ht) in Hold. simpl in Hold. lia.
  - by apply (t_live w Ht g s r' t' Hp).
Qed.

Lemma returns_once_micro w lb w' :
  inv w -> tinv w -> micro w lb w' -> returns_once w -> returns_once w'.
Proof.
  intros Hi Ht Hm Hw g r1 t1 r2 t2.
  destruct (micro_trace_app w lb w' Hi Hm) as [pre Hpre]. rewrite Hpre.
  intros [H1|H1]%elem_of_app [H2|H2]%elem_of_app.
  - by destruct (new_return_unique w lb w' pre _ _ _ _ _ _ Hi Hm Hpre H1 H2)
      as (_ & ? & ?).
  - by destruct (new_return_fresh w lb w' pre g r1 t1 r2 t2 Hi Ht Hm Hpre H1).
  - by destruct (new_return_fresh w lb w' pre g r2 t2 r1 t1 Hi Ht Hm Hpre H2).
  - by eapply Hw.
Qed.

Lemma returns_once_run t0 dd cap l acts :
  NewCapacity t0 dd cap = Some l -> returns_once (run (boot t0 l) acts).
Proof.
  intros Hl. destruct (boot_ok t0 dd cap l Hl) as [Hi0 Ht0].
  assert (H : tinv (run (boot t0 l) acts) /\ returns_once (run (boot t0 l) acts));
    [|by destruct H].
  apply (run_preserves (fun w => tinv w /\ returns_once w)); auto.
  - clear. intros w lb w' Hi [Ht Hw] Hm. split; [by eapply tinv_micro|].
    by eapply returns_once_micro.
  - split; [done|]. intros g r1 t1 r2 t2 H. by apply elem_of_nil in H.
Qed.

(** On an open queue no goroutine is released with [ErrClosed]. *)
Lemma failing_micro w lb w' g :
  inv w -> micro w lb w' -> closed (chan w') = false ->
  pool w' !! g = Some (Runnable (Ret (RetPush ErrClosed))) ->
  pool w !! g = Some (Runnable (Ret (RetPush ErrClosed))).
Proof.
  intros Hi Hm Hc'.
  destruct Hm as
    [dt|v Hc|v r rq Hc Hr|v Hc Hr Hlt|v Hc Hr Hle|c Hpop Hc Hb
    |c Hpop Hc Hb Hs|c s sv sq Hpop Hc Hs|c v b Hpop Hb Hs|Hc|Hc
    |g0 r Hg0|g0 r h Hg0 Hl|g0 r Hg0 Hl Hsub|g0 r Hg0 Hl Hsub|g0 r wake0 Hg0 Hl Hwake].
  - simpl. auto.
  - simpl. by intros [_ H]%lookup_delete_Some.
  - unfold ret, emit. cbn [pool with_pool].
    intros [_ H]%lookup_delete_Some.
    rewrite release_recv_lookup in H. cbn [pool with_chan called] in H.
    case_decide as E; [|done]. subst g.
    destruct (inv_recvq w Hi r) as (c & Hpop & Hp); [rewrite Hr; left|].
    rewrite Hp in H. simpl in H. rewrite pop_k_true in H by done. done.
  - simpl. by intros [_ H]%lookup_delete_Some.
  - simpl. by intros [[_ [=]]|[_ H]]%lookup_insert_Some.
  - simpl. by intros [_ H]%lookup_delete_Some.
  - simpl. by intros [[_ [=]]|[_ H]]%lookup_insert_Some.
  - unfold park, emit. cbn [pool with_pool].
    intros [[_ [=]]|[_ H]]%lookup_insert_Some.
    rewrite release_send_lookup in H. cbn [pool with_chan called] in H.
    case_decide as E; [|done]. subst g.
    pose proof (inv_sendq w Hi s sv) as Hp. rewrite Hs in Hp.
    rewrite Hp in H by left. simpl in H. by rewrite push_k_eq in H.
  - simpl. by intros [[_ [=]]|[_ H]]%lookup_insert_Some.
  - simpl. by intros [_ H]%lookup_delete_Some.
  - exfalso.
    change (closed (chan (close_world (called CallClose w))) = false) in Hc'.
    unfold chan in Hc'.
    by destruct (close_world_rest (called CallClose w)) as (_ & Hl & _);
      rewrite Hl in Hc'.
  - simpl. by intros [_ H]%lookup_delete_Some.
  - simpl. by intros [[_ [=]]|[_ H]]%lookup_insert_Some.
  - simpl. by intros [[_ [=]]|[_ H]]%lookup_insert_Some.
  - simpl. by intros [_ H]%lookup_delete_Some.
  - simpl. by intros [_ H]%lookup_delete_Some.
Qed.

Lemma open_micro w lb w' :
  inv w -> micro w lb w' -> closed (chan w') = false -> closed (chan w) = false.
Proof.
  intros Hi Hm Hc'. destruct (closed (chan w)) eqn:Hc; [|done].
  rewrite <- Hc'. symmetry. apply (closed_micro _ _ _ Hm). by left.
Qed.

Lemma no_errclosed_micro w lb w' :
  inv w -> micro w lb w' ->
  (closed (chan w) = false -> no_errclosed w) ->
  closed (chan w') = false -> no_errclosed w'.
Proof.
  intros Hi Hm Hw Hc'. pose proof (open_micro w lb w' Hi Hm Hc') as Hc.
  destruct (Hw Hc) as (H1 & H2 & H3 & H4).
  destruct (micro_trace_app w lb w' Hi Hm) as [pre Hpre].
  assert (Hnew : forall g r t, EvReturn g r t ∈ pre ->
            r <> RetPush ErrClosed /\ forall e, r <> RetClose e).
  { intros g r t He.
    assert (Hlb : lb <> LCall CallClose).
    { intros ->. assert (closed (chan w') = true); [|congruence].
      apply (closed_micro _ _ _ Hm). by right. }
    destruct (new_return_cases w lb w' pre g r t Hi Hm Hpre He)
      as [_ [(_ & v & _ & ->)|[(_ & c & Hpop & ->)|[(_ & ? & _)|[Hp|(c & v & ? & Hpop & -> & _)]]]]].
    - rewrite Hc. done.
    - by destruct c.
    - done.
    - split; [intros ->; by apply (H4 g)|]. intros e ->.
      pose proof (inv_pool w Hi g _ Hp) as Hok.
      inversion Hok as [| | |c Hpop Htk Hr| | |]; subst. by destruct c.
    - by destruct c. }
  repeat split.
  - intros g t. rewrite Hpre. intros [He|He]%elem_of_app; [|by apply (H1 g t)].
    by destruct (Hnew _ _ _ He).
  - intros g t. rewrite Hpre. intros [He|He]%elem_of_app; [|by apply (H2 g t)].
    destruct (Hnew _ _ _ He) as [_ Hn]. by apply (Hn ErrClosed).
  - intros g e t. rewrite Hpre. intros [He|He]%elem_of_app; [|by apply (H3 g e t)].
    destruct (Hnew _ _ _ He) as [_ Hn]. by apply (Hn e).
  - intros g Hp. apply (H4 g). by eapply failing_micro.
Qed.

Lemma no_errclosed_run t0 dd cap l acts :
  NewCapacity t0 dd cap = Some l ->
  closed (chan (run (boot t0 l) acts)) = false -> no_errclosed (run (boot t0 l) acts).
Proof.
  intros Hl. destruct (boot_ok t0 dd cap l Hl) as [Hi0 _].
  apply (run_preserves (fun w => closed (chan w) = false -> no_errclosed w)); auto.
  - clear. intros w lb w' Hi Hw Hm. by apply (no_errclosed_micro w lb w').
  - intros _. repeat split; simpl; intros; try apply not_elem_of_nil.
    by rewrite lookup_empty.
Qed.




Lemma pushed_push_calls tr : pushed tr = (push_calls tr).*2.
Proof.
  unfold pushed, push_calls. induction tr as [|e tr IH]; simpl; [done|].
  destruct e as [g [v| | |] t| | |]; simpl; try done.
  by rewrite fmap_app, IH.
Qed.

Lemma push_calls_micro w lb w' :
  inv w -> micro w lb w' ->
  push_calls (trace w') =
  push_calls (trace w) ++
  match lb with
  | LCall (CallPush v) => [(nextg w, v)]
  | _ => []
  end.
Proof.
  intros Hi Hm. destruct (micro_trace w lb w' Hi Hm) as (evs & -> & Hevs).
  unfold push_calls. rewrite !chron_app. rewrite (chron_none _ evs).
  - rewrite app_nil_r. destruct lb as [|[]|]; simpl; by rewrite ?app_nil_r.
  - eapply Forall_impl; [exact Hevs|]. intros [] He; try done. by destruct (He g c t).
Qed.

(** A goroutine released with its result keeps it until it returns it. *)
Lemma result_micro w lb w' g r :
  inv w -> micro w lb w' -> pool w !! g = Some (Runnable (Ret r)) ->
  pool w' !! g = Some (Runnable (Ret r)) \/ EvReturn g r (now w) ∈ trace w'.
Proof.
  intros Hi Hm Hg.
  pose proof (inv_fresh w Hi g _ Hg) as Hlt.
  destruct Hm as
    [dt|v Hc|v r0 rq Hc Hr|v Hc Hr Hlt'|v Hc Hr Hle|c Hpop Hc Hb
    |c Hpop Hc Hb Hsq|c s0 sv sq Hpop Hc Hsq|c v b Hpop Hb Hsq|Hc|Hc
    |g0 r0 Hg0|g0 r0 h Hg0 Hl|g0 r0 Hg0 Hl Hsub|g0 r0 Hg0 Hl Hsub|g0 r0 wake Hg0 Hl Hwake].
  - left. simpl. eauto.
  - left. simpl. by rewrite lookup_delete_ne by lia.
  - left. unfold ret, emit. cbn [pool with_pool].
    rewrite lookup_delete_ne by lia. rewrite release_recv_lookup.
    cbn [pool with_chan called]. rewrite Hg. by case_decide.
  - left. simpl. by rewrite lookup_delete_ne by lia.
  - left. simpl. by rewrite lookup_insert_ne by lia.
  - left. simpl. by rewrite lookup_delete_ne by lia.
  - left. simpl. by rewrite lookup_insert_ne by lia.
  - left. unfold park, emit. cbn [pool with_pool].
    rewrite lookup_insert_ne by lia. rewrite release_send_lookup.
    cbn [pool with_chan called]. rewrite Hg. by case_decide.
  - left. simpl. by rewrite lookup_insert_ne by lia.
  - left. simpl. by rewrite lookup_delete_ne by lia.
  - left.
    change (pool (ret (nextg w) (RetClose ErrNil)
                    (close_world (called CallClose w))) !! g = Some (Runnable (Ret r))).
    unfold ret, emit. cbn [pool with_pool].
    rewrite lookup_delete_ne by lia.
    rewrite (close_world_lookup _ g (inv_called w CallClose Hi)).
    change (chan (called CallClose w)) with (chan w).
    cbn [pool called]. rewrite Hg.
    destruct (decide (g ∈ map fst (sendq (chan w)))) as [Es|Es].
    { apply (list_elem_of_fmap (A:=gid * iface)) in Es as ([g' v] & -> & Hin).
      apply (inv_sendq w Hi) in Hin. simpl in Hin, Hg. congruence. }
    by destruct (decide (g ∈ recvq (chan w))).
  - destruct (decide (g = g0)) as [->|Hne].
    + right. rewrite Hg0 in Hg. injection Hg as <-. left.
    + left. simpl. by rewrite lookup_delete_ne.
  - left. simpl. rewrite lookup_insert_ne; [done|]. intros ->.
    rewrite Hg in Hg0. discriminate Hg0.
  - left. simpl. rewrite lookup_insert_ne; [done|]. intros ->.
    rewrite Hg in Hg0. destruct Hg0 as [Hg0|Hg0]; discriminate Hg0.
  - left. simpl. rewrite lookup_delete_ne; [done|]. intros ->.
    rewrite Hg in Hg0. destruct Hg0 as [Hg0|Hg0]; discriminate Hg0.
  - left. simpl. rewrite lookup_delete_ne; [done|]. intros ->.
    rewrite Hg in Hg0. discriminate Hg0.
Qed.

Lemma push_ok_micro w lb w' g :
  inv w -> micro w lb w' -> push_ok w g -> push_ok w' g.
Proof.
  intros Hi Hm [Hp|[t He]].
  - destruct (result_micro w lb w' g _ Hi Hm Hp); [by left|right; eauto].
  - right. exists t. destruct (micro_trace_app w lb w' Hi Hm) as [pre ->].
    apply elem_of_app. by right.
Qed.

Lemma push_failed_micro w lb w' g :
  inv w -> micro w lb w' -> push_failed w g -> push_failed w' g.
Proof.
  intros Hi Hm [Hp|[t He]].
  - destruct (result_micro w lb w' g _ Hi Hm Hp); [by left|right; eauto].
  - right. exists t. destruct (micro_trace_app w lb w' Hi Hm) as [pre ->].
    apply elem_of_app. by right.
Qed.

(** What a transition between open states does to the values that are
    in and to the parked senders: nothing but parking a new sender, or a
    new value goes in at once, or the first parked sender gets in. *)
Lemma open_micro_cases w lb w' :
  inv w -> micro w lb w' -> closed (chan w') = false ->
  (accepted w' = accepted w /\
   sendq (chan w') =
     sendq (chan w) ++
     match lb with LCall (CallPush v) => [(nextg w, v)] | _ => [] end) \/
  (exists v, lb = LCall (CallPush v) /\
     sendq (chan w) = [] /\ sendq (chan w') = [] /\
     accepted w' = accepted w ++ [v] /\
     EvReturn (nextg w) (RetPush ErrNil) (now w) ∈ trace w') \/
  (exists s sv, (forall v, lb <> LCall (CallPush v)) /\
     sendq (chan w) = (s, sv) :: sendq (chan w') /\
     accepted w' = accepted w ++ [sv] /\
     pool w' !! s = Some (Runnable (Ret (RetPush ErrNil)))).
Proof.
  intros Hi Hm Hc'. destruct Hm as
    [dt|v Hc|v r rq Hc Hr|v Hc Hr Hlt|v Hc Hr Hle|c Hpop Hc Hb
    |c Hpop Hc Hb Hs|c s sv sq Hpop Hc Hs|c v b Hpop Hb Hs|Hc|Hc
    |g r Hg|g r h Hg Hl|g r Hg Hl Hsub|g r Hg Hl Hsub|g r wake Hg Hl Hwake].
  - left. unfold accepted, chan. simpl. by rewrite app_nil_r.
  - unfold chan in *. simpl in Hc'. congruence.
  - right. left. exists v.
    destruct (inv_recv_wait w Hi) as [Hb Hs]; [by rewrite Hr|].
    unfold accepted, chan in *. simpl. rewrite lim_release_recv.
    destruct (release_recv_rest v true r
      (with_chan (mkChan (dataqsiz (values (lim w))) (buf (values (lim w))) false rq
                         (sendq (values (lim w)))) (called (CallPush v) w)))
      as (-> & _ & _ & ->). simpl.
    repeat split; auto; [|left].
    unfold deqs. simpl. by rewrite Hb, fmap_app, !app_nil_r.
  - right. left. exists v.
    assert (Hs : sendq (chan w) = []).
    { destruct (sendq (chan w)) eqn:E; [done|].
      pose proof (inv_send_wait w Hi) as H. rewrite E in H.
      specialize (H ltac:(done)). lia. }
    unfold accepted, chan in *. simpl. repeat split; auto; [|left].
    unfold deqs. simpl. by rewrite app_assoc.
  - left. unfold accepted, chan. simpl. done.
  - unfold chan in *. simpl in Hc'. congruence.
  - left. unfold accepted, chan in *. simpl. rewrite Hb, Hs.
    split; [done|by destruct c].
  - right. right. exists s, sv. split; [by intros v [= ->]|].
    unfold accepted, chan in *. simpl. rewrite lim_release_send.
    destruct (release_send_rest true s
      (with_chan (mkChan (dataqsiz (values (lim w)))
                    (match buf (values (lim w)) with [] => [] | _ :: b => b ++ [sv] end)
                    false (recvq (values (lim w))) sq) (called c w)))
      as (_ & _ & _ & ->). simpl.
    split; [done|]. split.
    + unfold deqs. simpl. rewrite fmap_app. simpl.
      destruct (buf (values (lim w))); simpl; by rewrite <- ?app_assoc.
    + pose proof (inv_sendq w Hi s sv) as Hp. unfold chan in Hp. rewrite Hs in Hp.
      specialize (Hp ltac:(left)).
      pose proof (inv_fresh w Hi s _ Hp) as Hlt.
      rewrite lookup_insert_ne by lia.
      rewrite release_send_lookup, decide_True by done.
      cbn [pool with_chan called]. rewrite Hp. simpl. by rewrite push_k_eq.
  - left. unfold accepted, chan in *. simpl in *. rewrite Hc' in Hs. rewrite Hb, Hs.
    split; [|destruct c; try done; by rewrite app_nil_r].
    unfold deqs. simpl. rewrite fmap_app. simpl. by rewrite <- app_assoc.
  - unfold chan in *. simpl in Hc'. congruence.
  - exfalso.
    change (closed (chan (close_world (called CallClose w))) = false) in Hc'.
    unfold chan in Hc'.
    by destruct (close_world_rest (called CallClose w)) as (_ & Hl & _);
      rewrite Hl in Hc'.
  - left. unfold accepted, chan. simpl. by rewrite app_nil_r.
  - left. unfold accepted, chan. simpl. by rewrite app_nil_r.
  - left. unfold accepted, chan. simpl. by rewrite app_nil_r.
  - left. unfold accepted, chan. simpl. by rewrite app_nil_r.
  - left. unfold accepted, chan. simpl. by rewrite app_nil_r.
Qed.

Lemma close_fails_senders w w' g v :
  inv w -> micro w (LCall CallClose) w' -> closed (chan w) = false ->
  (g, v) ∈ sendq (chan w) ->
  pool w' !! g = Some (Runnable (Ret (RetPush ErrClosed))).
Proof.
  intros Hi Hm Hc Hin.
  pose proof (inv_sendq w Hi g v Hin) as Hp.
  pose proof (inv_fresh w Hi g _ Hp) as Hlt.
  inversion Hm; subst; try congruence; try done.
  change (pool (ret (nextg w) (RetClose ErrNil) (close_world (called CallClose w)))
            !! g = Some (Runnable (Ret (RetPush ErrClosed)))).
  cbn [ret emit with_pool pool]. rewrite lookup_delete_ne by lia.
  rewrite (close_world_lookup _ _ (inv_called w CallClose Hi)).
  rewrite decide_True; [done|].
  apply (list_elem_of_fmap (A:=gid * iface)). by exists (g, v).
Qed.

Lemma push_inv_micro w lb w' :
  inv w -> micro w lb w' -> push_inv w -> push_inv w'.
Proof.
  intros Hi Hm (acc & rej & Hpc & Hacc & Hok & Hrej).
  assert (Hok' : Forall (fun p => push_ok w' p.1) acc).
  { eapply Forall_impl; [exact Hok|]. intros p. by apply (push_ok_micro w lb w'). }
  unfold push_inv. rewrite (push_calls_micro w lb w' Hi Hm), Hpc.
  destruct (closed (chan w')) eqn:Hc'.
  - destruct (closed (chan w)) eqn:Hc.
    + exists acc, (rej ++ match lb with LCall (CallPush v) => [(nextg w, v)] | _ => [] end).
      split; [by rewrite app_assoc|]. split.
      { by rewrite (accepted_closed_micro w lb w' Hi Hc Hm). }
      split; [done|]. apply Forall_app. split.
      * eapply Forall_impl; [exact Hrej|]. intros p. by apply (push_failed_micro w lb w').
      * destruct lb as [|[v| | |]|]; try done. constructor; [|constructor]. simpl.
        right. inversion Hm; subst; try congruence; try done. eexists. left.
    + apply (closed_micro _ _ _ Hm) in Hc' as [?| ->]; [congruence|].
      exists acc, rej. split; [by rewrite app_nil_r|]. split.
      { by rewrite (accepted_close_micro w w' Hm). }
      split; [done|]. subst rej. apply Forall_forall. intros [g v] Hin. simpl.
      left. by eapply close_fails_senders.
  - pose proof (open_micro w lb w' Hi Hm Hc') as Hc. rewrite Hc in Hrej. subst rej.
    destruct (open_micro_cases w lb w' Hi Hm Hc')
      as [[Ha Hs]|[(v & -> & Hs & Hs' & Ha & Hr)|(s & sv & Hlb & Hs & Ha & Hp)]].
    + exists acc, (sendq (chan w')). rewrite Hs, Ha.
      split; [by rewrite app_assoc|]. done.
    + exists (acc ++ [(nextg w, v)]), []. rewrite Hs, Hs', Ha.
      split; [by rewrite !app_nil_r|]. split; [by rewrite fmap_app, Hacc|].
      split; [|done]. apply Forall_app. split; [done|].
      constructor; [|constructor]. simpl. right. eauto.
    + exists (acc ++ [(s, sv)]), (sendq (chan w')). rewrite Hs, Ha.
      assert (Hnew : match lb with LCall (CallPush v) => [(nextg w, v)] | _ => [] end
                     = @nil (gid * iface)).
      { destruct lb as [|[v| | |]|]; try done. by destruct (Hlb v). }
      rewrite Hnew, app_nil_r.
      split; [by rewrite <- app_assoc|]. split; [by rewrite fmap_app, Hacc|].
      split; [|done]. apply Forall_app. split; [done|].
      constructor; [|constructor]. simpl. by left.
Qed.

Lemma push_inv_run t0 dd cap l acts :
  NewCapacity t0 dd cap = Some l -> push_inv (run (boot t0 l) acts).
Proof.
  intros Hl. destruct (boot_ok t0 dd cap l Hl) as [Hi0 _].
  apply (run_preserves push_inv); auto.
  - clear. intros w lb w' Hi Hw Hm. by eapply push_inv_micro.
  - exists [], []. unfold accepted, chan. unfold NewCapacity, makechan in Hl.
    destruct (cap <? 0); [done|]. by injection Hl as <-.
Qed.

(** X15: The result of [Push] tells whether the value got in.  The [i]-th call
    of [Push] returns [nil] only when its value is the [i]-th of the values
    handed out or buffered; it returns [ErrClosed] only when the queue is
    closed and its value is not among them, and never will be. *)
Theorem push_result_meaning t0 dd cap l acts :
  NewCapacity t0 dd cap = Some l ->
  let w := run (boot t0 l) acts in
  forall i g v,
    push_calls (trace w) !! i = Some (g, v) ->
    (forall t,
        EvReturn g (RetPush ErrNil) t ∈ trace w ->
        ((deqs (trace w)).*2 ++ buf (values (lim w))) !! i = Some v) /\
    (forall t,
        EvReturn g (RetPush ErrClosed) t ∈ trace w ->
        closed (values (lim w)) = true /\
        forall acts',
          (length ((deqs (trace (run w acts'))).*2
                     ++ buf (values (lim (run w acts')))) <= i)%nat).
Proof.
  intros Hl w i g v Hi'.
  destruct (boot_ok t0 dd cap l Hl) as [Hi0 Ht0].
  pose proof (inv_run _ acts Hi0) as Hi. fold w in Hi.
  pose proof (tinv_run _ acts Hi0 Ht0) as Ht. fold w in Ht.
  pose proof (returns_once_run t0 dd cap l acts Hl) as Honce. fold w in Honce.
  destruct (push_inv_run t0 dd cap l acts Hl) as (acc & rej & Hpc & Hacc & Hok & Hrej).
  fold w in Hpc, Hacc, Hok, Hrej.
  assert (Hlive : forall s r t, pool w !! g = Some s -> EvReturn g r t ∉ trace w).
  { intros s r t. apply (t_live w Ht). }
  rewrite Hpc in Hi'. apply lookup_app_Some in Hi' as [Hin|[Hlen Hin]].
  - split.
    + intros _ _. change (accepted w !! i = Some v).
      by rewrite <- Hacc, list_lookup_fmap, Hin.
    + intros t He. exfalso.
      rewrite Forall_forall in Hok.
      destruct (Hok (g, v)) as [Hp|[t' He']]; [by eapply list_elem_of_lookup_2| |].
      * by eapply Hlive.
      * by destruct (Honce _ _ _ _ _ He He').
  - assert (Hbad : forall t, EvReturn g (RetPush ErrNil) t ∉ trace w).
    { intros t He. destruct (closed (chan w)) eqn:Hc.
      - rewrite Forall_forall in Hrej.
        destruct (Hrej (g, v)) as [Hp|[t' He']]; [by eapply list_elem_of_lookup_2| |].
        + by eapply Hlive.
        + by destruct (Honce _ _ _ _ _ He He').
      - subst rej. apply list_elem_of_lookup_2 in Hin.
        eapply Hlive; [|exact He]. by eapply (inv_sendq w Hi). }
    split; [intros t He; by destruct (Hbad t)|].
    intros t He.
    assert (Hc : closed (chan w) = true).
    { destruct (closed (chan w)) eqn:Hc; [done|].
      destruct (no_errclosed_run t0 dd cap l acts Hl Hc) as (H1 & _).
      by destruct (H1 g t). }
    split; [done|]. intros acts'.
    destruct (accepted_closed_run w acts' Hi Hc) as [_ Ha].
    change (length (accepted (run w acts')) <= i)%nat.
    rewrite Ha, <- Hacc, length_fmap. done.
Qed.

End Verification.

(** * The theorems at work on concrete queues *)

(** [TestLimiter_endToEndWorksForLargeDurations] passes: the values come
    out in order, one second apart, and the call after the last value
    reports the end. *)
Example end_to_end_works :
  let w := run (boot 0 Demo.large) Demo.end_to_end in
  NewCapacity 0 1000000000 2 = Some Demo.large /\
  pushed (trace w) = [Val 0; Val 1; Val 2; Val 3] /\
  chron (fun e => match e with EvReturn _ (RetPopOk v ok) t => Some (v, ok, t) | _ => None end)
        (trace w) =
    [(Val 0, true, 0); (Val 1, true, 1000000000); (Val 2, true, 2000000000);
     (Val 3, true, 3000000000); (Nil, false, 3000000000)] /\
  pool w = ∅.
Proof. vm_compute. repeat split; reflexivity. Qed.

Lemma fifo_order_witness :
  NewCapacity 0 5 2 = Some Demo.two /\
  Forall (fun a => a <> Go CallClose) Demo.push_push_pop_pop /\
  let w := run (boot 0 Demo.two) Demo.push_push_pop_pop in
  forall i g,
    pop_calls (trace w) !! i = Some g ->
    (forall v t, EvReturn g (RetPop v) t ∈ trace w -> pushed (trace w) !! i = Some v) /\
    (forall v ok t,
        EvReturn g (RetPopOk v ok) t ∈ trace w ->
        ok = true /\ pushed (trace w) !! i = Some v) /\
    (forall v,
        pushed (trace w) !! i = Some v ->
        exists acts' t,
          Forall passive acts' /\
          (EvReturn g (RetPop v) t ∈ trace (run w acts') \/
           EvReturn g (RetPopOk v true) t ∈ trace (run w acts'))).
Proof.
  assert (H : Forall (fun a : action Z => a <> Go CallClose) Demo.push_push_pop_pop).
  { repeat constructor; discriminate. }
  split; [reflexivity|]. split; [exact H|].
  exact (fifo_order 0 5 2 Demo.two Demo.push_push_pop_pop eq_refl H).
Defined.



Lemma close_drains_witness :
  NewCapacity 0 5 2 = Some Demo.two /\
  closed (chan (run (boot 0 Demo.two) Demo.push_push)) = false /\
  sendq (chan (run (boot 0 Demo.two) Demo.push_push)) = [] /\
  let vs := pushed (trace (run (boot 0 Demo.two) Demo.push_push)) in
  let w := run (boot 0 Demo.two) (Demo.push_push ++ Go CallClose :: Demo.drain) in
  (forall i g,
      pop_calls (trace w) !! i = Some g ->
      (forall v ok t,
          EvReturn g (RetPopOk v ok) t ∈ trace w ->
          match vs !! i with
          | Some vi => v = vi /\ ok = true
          | None => v = Nil /\ ok = false
          end) /\
      (forall v t, EvReturn g (RetPop v) t ∈ trace w -> v = default Nil (vs !! i)) /\
      (exists acts' r t,
          Forall passive acts' /\ EvReturn g r t ∈ trace (run w acts') /\
          match vs !! i with
          | Some vi => r = RetPop vi \/ r = RetPopOk vi true
          | None => r = RetPop Nil \/ r = RetPopOk Nil false
          end)) /\
  (buf (chan w) = [] ->
   trace (step w (Go CallPopOk)) =
     EvReturn (nextg w) (RetPopOk Nil false) (now w)
       :: EvCall (nextg w) CallPopOk (now w) :: trace w /\
   trace (step w (Go CallPop)) =
     EvReturn (nextg w) (RetPop Nil) (now w)
       :: EvCall (nextg w) CallPop (now w) :: trace w) /\
  (forall g m, EvCrash g m ∉ trace w).
Proof.
  split; [reflexivity|]. split; [reflexivity|]. split; [reflexivity|].
  exact (close_drains 0 5 2 Demo.two Demo.push_push Demo.drain eq_refl eq_refl eq_refl).
Defined.

Lemma closed_rejects_push_witness :
  NewCapacity 0 5 2 = Some Demo.two /\
  let w := run (boot 0 Demo.two) [Go CallClose] in
  (exists g t, EvReturn g (RetClose ErrNil) t ∈ trace w) /\
  trace (step w (Go (CallPush (Val 9)))) =
    EvReturn (nextg w) (RetPush ErrClosed) (now w)
      :: EvCall (nextg w) (CallPush (Val 9)) (now w) :: trace w /\
  lim (step w (Go (CallPush (Val 9)))) = lim w /\
  pool (step w (Go (CallPush (Val 9)))) = pool w /\
  now (step w (Go (CallPush (Val 9)))) = now w.
Proof.
  assert (H : exists g t,
             EvReturn g (RetClose ErrNil) t ∈ trace (run (boot 0 Demo.two) [Go CallClose])).
  { exists 0%nat, 0. vm_compute. left. }
  split; [reflexivity|]. split; [exact H|].
  exact (closed_rejects_push 0 5 2 Demo.two [Go CallClose] (Val 9) eq_refl H).
Defined.

Lemma close_one_shot_witness :
  NewCapacity 0 5 2 = Some Demo.two /\
  let w := run (boot 0 Demo.two) Demo.push_push in
  (closed (values (lim w)) = true <-> exists g t, EvCall g CallClose t ∈ trace w) /\
  trace (step w (Go CallClose)) =
    EvReturn (nextg w)
      (RetClose (if closed (values (lim w)) then ErrClosed else ErrNil)) (now w)
      :: EvCall (nextg w) CallClose (now w) :: trace w /\
  closed (values (lim (step w (Go CallClose)))) = true /\
  (forall a, closed (values (lim w)) = true ->
             closed (values (lim (step w a))) = true).
Proof.
  split; [reflexivity|].
  exact (close_one_shot 0 5 2 Demo.two Demo.push_push eq_refl).
Defined.

Lemma capacity_backpressure_witness :
  NewCapacity 0 5 1 = Some Demo.one /\ 1 <= 1 /\
  let w := run (boot 0 Demo.one) [Go (CallPush (Val 7))] in
  Z.of_nat (length (buf (values (lim w)))) <= 1 /\
  (closed (values (lim w)) = false ->
   Z.of_nat (length (buf (values (lim w)))) = 1 ->
   Forall quiet [Tick 3; Go (CallPush (Val 9))] ->
   let g := nextg w in
   let w' := run (step w (Go (CallPush (Val 8)))) [Tick 3; Go (CallPush (Val 9))] in
   (exists k, pool w' !! g = Some (WaitSend k)) /\
   (forall r t, EvReturn g r t ∉ trace w') /\
   buf (values (lim w')) = buf (values (lim w)) /\
   (forall c, is_pop c = true -> sendq (values (lim w)) = [] ->
      buf (values (lim (step w' (Go c)))) = tl (buf (values (lim w))) ++ [Val 8] /\
      pool (step w' (Go c)) !! g = Some (Runnable (Ret (RetPush ErrNil)))) /\
   pool (step w' (Go CallClose)) !! g = Some (Runnable (Ret (RetPush ErrClosed)))).
Proof.
  split; [reflexivity|]. split; [discriminate|].
  exact (capacity_backpressure 0 5 1 Demo.one [Go (CallPush (Val 7))] (Val 8)
           [Tick 3; Go (CallPush (Val 9))] eq_refl ltac:(discriminate)).
Defined.

(** With a negative interval, which [New] accepts, a release moves the
    watermark back: the queue is made at time 0, a value is pushed, and
    the pop at time 3 sets [nextTime] to [3 + (-10)]. *)
Lemma watermark_moves_back :
  New 0 (-10) = Some Demo.backwards /\ time.is_Duration (-10) /\
  let w := run (boot 0 Demo.backwards) [Go (CallPush (Val 7)); Tick 3] in
  nextTime (lim w) = 0 /\ nextTime (lim (step w (Go CallPop))) = -7 /\
  ~ nextTime (lim w) <= nextTime (lim (step w (Go CallPop))).
Proof.
  split; [reflexivity|]. split; [split; discriminate|].
  split; [reflexivity|]. split; [reflexivity|]. vm_compute. intros H. by apply H.
Qed.

Lemma watermark_monotone_witness :
  NewCapacity 0 5 2 = Some Demo.two /\ time.is_Duration 5 /\ 0 <= 5 /\
  nextTime (lim (run (boot 0 Demo.two) Demo.push_push)) <=
  nextTime (lim (step (run (boot 0 Demo.two) Demo.push_push) (Go CallPop))).
Proof.
  assert (H : time.is_Duration 5) by (split; discriminate).
  split; [reflexivity|]. split; [exact H|]. split; [discriminate|].
  exact (watermark_monotone 0 5 2 Demo.two Demo.push_push (Go CallPop) eq_refl H
           ltac:(discriminate)).
Defined.

Lemma pop_projects_popok_witness :
  NewCapacity 0 5 2 = Some Demo.two /\
  let w := run (boot 0 Demo.two) Demo.push_push in
  let g := nextg w in
  let w1 := run (step w (Go CallPop)) [Tick 1] in
  let w2 := run (step w (Go CallPopOk)) [Tick 1] in
  (now w1 = now w2 /\ lim w1 = lim w2 /\ trace w1 = proj_event g <$> trace w2) /\
  (forall v t,
      EvReturn g (RetPop v) t ∈ trace w1 <->
      exists ok, EvReturn g (RetPopOk v ok) t ∈ trace w2) /\
  (forall l1 : Limiter Z, New 0 5 = Some l1 ->
     let pushed_nil := run (boot 0 l1) [Go (CallPush Nil)] in
     let drained := run (boot 0 l1) [Go CallClose] in
     head (trace (step pushed_nil (Go CallPop))) = Some (EvReturn 1%nat (RetPop Nil) 0) /\
     head (trace (step drained (Go CallPop))) = Some (EvReturn 1%nat (RetPop Nil) 0) /\
     head (trace (step pushed_nil (Go CallPopOk))) =
       Some (EvReturn 1%nat (RetPopOk Nil true) 0) /\
     head (trace (step drained (Go CallPopOk))) =
       Some (EvReturn 1%nat (RetPopOk Nil false) 0)).
Proof.
  split; [reflexivity|].
  exact (pop_projects_popok 0 5 2 Demo.two Demo.push_push [Tick 1] eq_refl).
Defined.


(** ** Further properties *)

Lemma never_panics_witness :
  NewCapacity 0 5 2 = Some Demo.two /\
  forall g m, EvCrash g m ∉ trace (run (boot 0 Demo.two) Demo.push_push_pop_pop).
Proof.
  split; [reflexivity|].
  exact (never_panics 0 5 2 Demo.two Demo.push_push_pop_pop eq_refl).
Defined.

Lemma gate_mutual_exclusion_witness :
  NewCapacity 0 5 2 = Some Demo.two /\
  let w := run (boot 0 Demo.two) (Demo.push_push ++ [Go CallPop; Go CallPopOk]) in
  (forall g, lock (lim w) = Some g <->
             exists wake k, pool w !! g = Some (Sleeping wake k)) /\
  (forall g1 g2 wake1 k1 wake2 k2,
      pool w !! g1 = Some (Sleeping wake1 k1) ->
      pool w !! g2 = Some (Sleeping wake2 k2) -> g1 = g2).
Proof.
  split; [reflexivity|].
  exact (gate_mutual_exclusion 0 5 2 Demo.two
           (Demo.push_push ++ [Go CallPop; Go CallPopOk]) eq_refl).
Defined.

Lemma one_value_per_call_witness :
  NewCapacity 0 5 2 = Some Demo.two /\
  let w := run (boot 0 Demo.two) Demo.push_push_pop_pop in
  NoDup (deqs (trace w)).*1 /\
  (forall g v, (g, v) ∈ deqs (trace w) ->
               g ∈ pop_calls (trace w) /\ took (trace w) g = Some v).
Proof.
  split; [reflexivity|].
  exact (one_value_per_call 0 5 2 Demo.two Demo.push_push_pop_pop eq_refl).
Defined.

Lemma delivered_prefix_of_pushed_witness :
  NewCapacity 0 5 1 = Some Demo.one /\
  let w := run (boot 0 Demo.one) (Demo.push_push ++ [Go CallClose; Go CallPop]) in
  exists rest,
    pushed (trace w) = (deqs (trace w)).*2 ++ buf (values (lim w)) ++ rest.
Proof.
  split; [reflexivity|].
  exact (delivered_prefix_of_pushed 0 5 1 Demo.one
           (Demo.push_push ++ [Go CallClose; Go CallPop]) eq_refl).
Defined.

Lemma close_freezes_contents_witness :
  NewCapacity 0 5 1 = Some Demo.one /\
  let w := run (boot 0 Demo.one) Demo.push_push in
  let w' := run (step w (Go CallClose)) [Sched 1%nat; Go (CallPush (Val 9)); Go CallPop] in
  closed (values (lim w')) = true /\
  (deqs (trace w')).*2 ++ buf (values (lim w')) =
  (deqs (trace w)).*2 ++ buf (values (lim w)).
Proof.
  split; [reflexivity|].
  exact (close_freezes_contents 0 5 1 Demo.one Demo.push_push
           [Sched 1%nat; Go (CallPush (Val 9)); Go CallPop] eq_refl).
Defined.

Lemma taker_returns_witness :
  NewCapacity 0 5 2 = Some Demo.two /\
  let w := run (boot 0 Demo.two) (Demo.push_push ++ [Go CallPop; Go CallPopOk]) in
  forall g v,
    took (trace w) g = Some v ->
    exists acts' t,
      Forall passive acts' /\
      (EvReturn g (RetPop v) t ∈ trace (run w acts') \/
       EvReturn g (RetPopOk v true) t ∈ trace (run w acts')).
Proof.
  split; [reflexivity|].
  exact (taker_returns 0 5 2 Demo.two
           (Demo.push_push ++ [Go CallPop; Go CallPopOk]) eq_refl).
Defined.

Lemma push_pop_round_trip_witness :
  NewCapacity 0 5 2 = Some Demo.two /\ is_pop (V:=Z) CallPop = true /\
  let w := run (boot 0 Demo.two) [] in
  closed (values (lim w)) = false /\ buf (values (lim w)) = [] /\
  recvq (values (lim w)) = [] /\ sendq (values (lim w)) = [] /\
  let w1 := step w (Go (CallPush (Val 7))) in
  let w2 := step w1 (Go CallPop) in
  took (trace w2) (nextg w1) = Some (Val 7) /\
  exists acts' t,
    Forall passive acts' /\
    EvReturn (nextg w1) (pop_ret CallPop (Val 7) true) t ∈ trace (run w2 acts').
Proof.
  do 6 (split; [reflexivity|]).
  exact (push_pop_round_trip 0 5 2 Demo.two [] (Val 7) CallPop
           eq_refl eq_refl eq_refl eq_refl eq_refl eq_refl).
Defined.



Lemma watermark_tracks_releases_witness :
  NewCapacity 0 5 2 = Some Demo.two /\ time.is_Duration 5 /\
  let w := run (boot 0 Demo.two) Demo.push_push_pop_pop in
  nextTime (lim w) =
    match head (releases (trace w)) with
    | Some t => time.Add t 5
    | None => 0
    end.
Proof.
  assert (H : time.is_Duration 5) by (split; discriminate).
  split; [reflexivity|]. split; [exact H|].
  exact (watermark_tracks_releases 0 5 2 Demo.two Demo.push_push_pop_pop eq_refl H).
Defined.


Lemma pop_waits_for_push_witness :
  NewCapacity 0 5 2 = Some Demo.two /\ is_pop (V:=Z) CallPopOk = true /\
  let w := run (boot 0 Demo.two) [] in
  closed (values (lim w)) = false /\ buf (values (lim w)) = [] /\
  sendq (values (lim w)) = [] /\
  Forall (calm (V:=Z)) [Tick 1; Go CallPop] /\
  let g := nextg w in
  let w' := run (step w (Go CallPopOk)) [Tick 1; Go CallPop] in
  (exists k, pool w' !! g = Some (WaitRecv k)) /\
  (forall r t, EvReturn g r t ∉ trace w') /\
  (recvq (values (lim w)) = [] ->
   took (trace (step w' (Go (CallPush (Val 7))))) g = Some (Val 7) /\
   exists acts'' t,
     Forall passive acts'' /\
     EvReturn g (pop_ret CallPopOk (Val 7) true) t
       ∈ trace (run (step w' (Go (CallPush (Val 7)))) acts'')) /\
  trace (run w' [Go CallClose; Sched g]) =
    EvReturn g (pop_ret CallPopOk Nil false) (now w')
      :: EvReturn (nextg w') (RetClose ErrNil) (now w')
      :: EvCall (nextg w') CallClose (now w') :: trace w'.
Proof.
  assert (H : Forall (calm (V:=Z)) [Tick 1; Go CallPop]) by (repeat constructor).
  do 5 (split; [reflexivity|]). split; [exact H|].
  exact (pop_waits_for_push 0 5 2 Demo.two [] CallPopOk [Tick 1; Go CallPop] (Val 7)
           eq_refl eq_refl eq_refl eq_refl eq_refl H).
Defined.


Lemma push_result_meaning_witness :
  NewCapacity 0 5 1 = Some Demo.one /\
  let w := run (boot 0 Demo.one) (Demo.push_push ++ [Go CallClose; Sched 1%nat]) in
  forall i g v,
    push_calls (trace w) !! i = Some (g, v) ->
    (forall t,
        EvReturn g (RetPush ErrNil) t ∈ trace w ->
        ((deqs (trace w)).*2 ++ buf (values (lim w))) !! i = Some v) /\
    (forall t,
        EvReturn g (RetPush ErrClosed) t ∈ trace w ->
        closed (values (lim w)) = true /\
        forall acts',
          (length ((deqs (trace (run w acts'))).*2
                     ++ buf (values (lim (run w acts')))) <= i)%nat).
Proof.
  split; [reflexivity|].
  exact (push_result_meaning 0 5 1 Demo.one
           (Demo.push_push ++ [Go CallClose; Sched 1%nat]) eq_refl).
Defined.
